(** * optimal_interpolation: a shallow embedding of [processor.py]

    The two functions of [src/processor.py], [optimal_interpolation] and
    [processor], are transcribed line by line.  Both are NumPy programs, so
    the embedding first fixes the small part of NumPy and of Python they use:

    - numbers: the code computes on [float64] and [int32].  The definitions
      are written once, over an interface [Scalar] of the operations the code
      applies; the instance [float_scalar] is IEEE-754 binary64 (Rocq's
      primitive floats), the arithmetic the program runs on;
    - arrays: a 1-D array is a list, a 2-D array a list of rows of equal
      length, with NumPy's broadcasting of binary operations written out;
    - exceptions: every operation that can raise returns [exn + A];
    - randomness: [random.uniform(0, 0.5)] is an input, the sequence of draws
      of a call. *)

From Stdlib Require Import String Ascii.
From Stdlib Require Import List ZArith Bool Lia.
From Stdlib Require Import Floats.
Import ListNotations.
Local Open Scope nat_scope.

Set Implicit Arguments.

(** ** Python exceptions and what [print] writes *)

Inductive exn : Type :=
| IndexError
| ValueError
| ZeroDivisionError
| NotImplementedError (msg : string)
| TypeError
| OverflowError
| AssertionError (selected_len : nat) (right_len : list (list Z))
| Exception (msg : string).

(** The error monad: [inl e] is "raised [e]", [inr a] is "returned [a]". *)
Definition raise {A} (e : exn) : exn + A := inl e.
Definition ret {A} (a : A) : exn + A := inr a.
Definition bind {A B} (c : exn + A) (k : A -> exn + B) : exn + B :=
  match c with
  | inl e => inl e
  | inr a => k a
  end.

Declare Scope py_scope.
Delimit Scope py_scope with py.
Notation "x <- c ;; k" := (bind c (fun x => k))
  (at level 61, c at next level, right associativity) : py_scope.
Notation "' p <- c ;; k" := (bind c (fun p => k))
  (at level 61, p pattern, c at next level, right associativity) : py_scope.

Definition of_option {A} (e : exn) (o : option A) : exn + A :=
  match o with
  | Some a => inr a
  | None => inl e
  end.

(** Lines written to standard output. *)
Inductive printed : Type :=
| PText (s : string)
| PRatio (label : string) (ratio : list (list Z))
| PSizes (label : string) (found declared : nat).

(** ** The numbers of the program *)

Class Scalar (F : Type) : Type := {
  zero : F;
  one : F;
  half : F;                (* the literal 0.5 *)
  add : F -> F -> F;
  sub : F -> F -> F;
  mul : F -> F -> F;
  div : F -> F -> F;       (* NumPy's true division: no exception *)
  leb : F -> F -> bool;    (* <= ; x >= y is y <= x *)
  of_int : Z -> F;         (* an integer used in a float operation *)
  rint32 : F -> Z          (* np.int32(np.round(x)) *)
}.

(** A 32-bit conversion that does not fit gives the "integer indefinite"
    value on x86-64. *)
Definition int32_min : Z := - 2 ^ 31.
Definition int32_max : Z := 2 ^ 31 - 1.

Definition int32_of_Z (z : Z) : Z :=
  if ((int32_min <=? z) && (z <=? int32_max))%Z then z else int32_min.

(** Product of two [int32]: wraps around. *)
Definition int32_mul (a b : Z) : Z :=
  ((a * b + 2 ^ 31) mod 2 ^ 32 - 2 ^ 31)%Z.

(** Rounding [m * 2^e] (with [m > 0]) to the nearest integer, ties to the
    even one: what [np.round] does. *)
Definition round_half_even_pow2 (m : positive) (e : Z) : Z :=
  if (0 <=? e)%Z then (Zpos m * 2 ^ e)%Z
  else
    let d := (2 ^ (- e))%Z in
    let q := (Zpos m / d)%Z in
    let r := (Zpos m mod d)%Z in
    match (2 * r ?= d)%Z with
    | Lt => q
    | Gt => (q + 1)%Z
    | Eq => if Z.even q then q else (q + 1)%Z
    end.

Module Float64.

(** An integer that fits 63 bits, converted to the nearest float. *)
Definition of_int (z : Z) : float :=
  if (z <? 0)%Z then PrimFloat.opp (PrimFloat.of_uint63 (Uint63.of_Z (- z)))
  else PrimFloat.of_uint63 (Uint63.of_Z z).

Definition rint32 (x : float) : Z :=
  match Prim2SF x with
  | S754_zero _ => 0%Z
  | S754_finite s m e =>
      let n := round_half_even_pow2 m e in
      int32_of_Z (if s then (- n)%Z else n)
  | S754_infinity _ | S754_nan => int32_min
  end.

End Float64.

#[export] Instance float_scalar : Scalar float := {|
  zero := PrimFloat.zero;
  one := PrimFloat.one;
  half := 0.5%float;
  add := PrimFloat.add;
  sub := PrimFloat.sub;
  mul := PrimFloat.mul;
  div := PrimFloat.div;
  leb := PrimFloat.leb;
  of_int := Float64.of_int;
  rint32 := Float64.rint32
|}.

(** ** Lists as NumPy arrays *)

Fixpoint mapM {A B} (f : A -> exn + B) (l : list A) : exn + list B :=
  match l with
  | [] => inr []
  | a :: l' =>
      match f a with
      | inl e => inl e
      | inr b =>
          match mapM f l' with
          | inl e => inl e
          | inr bs => inr (b :: bs)
          end
      end
  end.

Definition map2 {A B C} (f : A -> B -> C) (u : list A) (v : list B) : list C :=
  map (fun p => f (fst p) (snd p)) (combine u v).

(** [l[i] = x] for [i] in range. *)
Fixpoint update {A} (l : list A) (i : nat) (x : A) : list A :=
  match l, i with
  | [], _ => []
  | _ :: l', O => x :: l'
  | a :: l', S i' => a :: update l' i' x
  end.

Definition nrows {A} (M : list (list A)) : nat := length M.
Definition ncols {A} (M : list (list A)) : nat :=
  match M with
  | [] => 0
  | r :: _ => length r
  end.
(** [M.shape] and [M.size]; an array without rows has shape [(0, 0)]. *)
Definition shape {A} (M : list (list A)) : nat * nat := (nrows M, ncols M).
Definition size {A} (M : list (list A)) : nat := nrows M * ncols M.

(** Every row has [c] entries. *)
Definition rect {A} (c : nat) (M : list (list A)) : Prop :=
  Forall (fun r => length r = c) M.

(** [M[a, b]] for non-negative [a], [b]. *)
Definition nth2 {A} (M : list (list A)) (a b : nat) : option A :=
  match nth_error M a with
  | Some r => nth_error r b
  | None => None
  end.

Definition get2 {A} (M : list (list A)) (a b : nat) : exn + A :=
  of_option IndexError (nth2 M a b).

(** Two arrays with rows of the same lengths. *)
Definition same_shape {A B} (M : list (list A)) (N : list (list B)) : Prop :=
  map (@length A) M = map (@length B) N.

(** [np.ndindex(shape)]: row-major. *)
Definition ndindex (sh : nat * nat) : list (nat * nat) :=
  flat_map (fun a => map (pair a) (seq 0 (snd sh))) (seq 0 (fst sh)).

(** Broadcasting of two dimensions, and of a binary operation over two 2-D
    arrays: a dimension of length 1 is stretched; other lengths must agree
    or [ValueError] ("operands could not be broadcast together"). *)
Definition bdim (a b : nat) : option nat :=
  if a =? b then Some a
  else if a =? 1 then Some b
  else if b =? 1 then Some a
  else None.

Definition stretch {A} (n : nat) (l : list A) : list A :=
  match l with
  | [x] => repeat x n
  | _ => l
  end.

Definition broadcast2 {A B C} (f : A -> B -> C)
    (X : list (list A)) (Y : list (list B)) : exn + list (list C) :=
  match bdim (nrows X) (nrows Y), bdim (ncols X) (ncols Y) with
  | Some r, Some c =>
      ret (map2 (fun x y => map2 f (stretch c x) (stretch c y))
                (stretch r X) (stretch r Y))
  | _, _ => raise ValueError
  end.

(** [np.where(cond)] on a 2-D condition: a tuple of two index arrays, the
    row indices and the column indices of the true entries, row-major. *)
Definition nonzero1 (row : list bool) : list nat :=
  map fst (filter snd (combine (seq 0 (length row)) row)).

Definition nonzero2 (cond : list (list bool)) : list (nat * nat) :=
  flat_map (fun p => map (pair (fst p)) (nonzero1 (snd p)))
           (combine (seq 0 (length cond)) cond).

Definition np_where (cond : list (list bool)) : list (list nat) :=
  [map fst (nonzero2 cond); map snd (nonzero2 cond)].

(** [bool(a)] of an array: its element when it has exactly one, an error
    when it has several, false when it has none. *)
Definition truth (a : list (list bool)) : exn + bool :=
  match a with
  | [[x]] => ret x
  | _ => if size a =? 0 then ret false else raise ValueError
  end.

(** A Python number, as an entry of an item of [back_sel]: an [int] or a
    float. *)
Inductive pyval (F : Type) : Type :=
| PInt (z : Z)
| PFloat (f : F).
Arguments PInt {F} z.
Arguments PFloat {F} f.

(** [a[v]] on a sequence of length [len]: an [int] may be negative and then
    counts from the end; a float is no index. *)
Definition py_index {F} (len : nat) (v : pyval F) : exn + nat :=
  match v with
  | PFloat _ => raise IndexError
  | PInt z =>
      if ((0 <=? z) && (z <? Z.of_nat len))%Z then ret (Z.to_nat z)
      else if ((- Z.of_nat len <=? z) && (z <? 0))%Z then ret (Z.to_nat (z + Z.of_nat len))
      else raise IndexError
  end.

(** ** [optimal_interpolation] (processor.py, lines 8-73) *)

(** [repr] of a list of strings, as an f-string prints it. *)
Definition repr_list (l : list string) : string :=
  ("[" ++ String.concat ", " (map (fun s => "'" ++ s ++ "'") l) ++ "]")%string.

Definition supported_functions : list string := ["mean"%string].

Definition unsupported_message (map_func : string) : string :=
  ("H(xb) must be chosen between " ++ repr_list supported_functions
   ++ ", you provided " ++ map_func)%string.

Section Estimator.

Context {F : Type} {ops : Scalar F}.

Definition to_float (v : pyval F) : F :=
  match v with
  | PInt z => of_int z
  | PFloat f => f
  end.

(** Line 23: [xb = np.array([itm[2] for itm in back_sel])]. *)
Definition xb (back_sel : list (list (pyval F))) : exn + list F :=
  mapM (fun itm => of_option IndexError (option_map to_float (nth_error itm 2)))
       back_sel.

(** Line 27: [R = (0.5 * y_meas) ** 2]. *)
Definition R (y_meas : F) : F :=
  let h := mul half y_meas in mul h h.

(** Line 39: [H = sum(xb) / len(xb)]; Python's [sum] starts from the
    integer 0, and on an empty [xb] the quotient is the integer division
    [0 / 0]. *)
Definition H (xb0 : list F) : exn + F :=
  match xb0 with
  | [] => raise ZeroDivisionError
  | _ => ret (div (fold_left add xb0 (of_int 0))
                  (of_int (Z.of_nat (length xb0))))
  end.

(** Lines 40-41: [Hdot = np.ones((1, n)) * 1 / n]. *)
Definition Hdot (n : nat) : list F :=
  repeat (div (mul one (of_int 1)) (of_int (Z.of_nat n))) n.

(** Lines 45-47: [eb = xb * err], [err] holding one draw per element. *)
Definition eb (xb0 err : list F) : list F := map2 mul xb0 err.

(** Line 49: [Pb = np.outer(eb, eb.transpose())]. *)
Definition Pb (eb0 : list F) : list (list F) :=
  map (fun a => map (fun b => mul a b) eb0) eb0.

(** [np.dot] of a row and a column, accumulated from the left; the order
    of the additions, which the library chooses, matters to rounding
    only. *)
Definition dot (u v : list F) : F :=
  fold_left (fun acc p => add acc (mul (fst p) (snd p))) (combine u v) zero.

(** Line 57: [Num = np.dot(Pb, np.transpose(Hdot))]. *)
Definition Num (pb : list (list F)) (hdot : list F) : list F :=
  map (fun row => dot row hdot) pb.

(** Line 58: [Den = np.dot(Hdot, Num) + R]. *)
Definition Den (hdot num : list F) (r : F) : F := add (dot hdot num) r.

(** Line 61: [K = Num / Den]. *)
Definition K (num : list F) (den : F) : list F :=
  map (fun x => div x den) num.

(** Line 65: [xa = xb + (K * (y_meas - H))]. *)
Definition xa (xb0 k : list F) (y_meas h : F) : list F :=
  map2 (fun x g => add x (mul g (sub y_meas h))) xb0 k.

(** Lines 23-65: everything before the output grid is touched.  The check
    of [Pb.shape] (lines 50-54) is left out: [np.outer] of two arrays of
    [n] elements has shape [(n, n)], and the handler would only print. *)
Definition analysis (err : nat -> F) (y_meas : F)
    (back_sel : list (list (pyval F))) (map_func : string) : exn + list F :=
  (xb0 <- xb back_sel ;;
   let r := R y_meas in
   if negb (existsb (String.eqb map_func) supported_functions) then
     raise (NotImplementedError (unsupported_message map_func))
   else if String.eqb map_func "mean" then
     h <- H xb0 ;;
     let hdot := Hdot (length xb0) in
     let eb0 := eb xb0 (map err (seq 0 (length xb0))) in
     let pb := Pb eb0 in
     let num := Num pb hdot in
     let den := Den hdot num r in
     let k := K num den in
     ret (xa xb0 k y_meas h)
   else raise TypeError)%py.

(** Line 71: [syn_prod[m][n] += v]. *)
Definition iadd (syn_prod : list (list F)) (m n : pyval F) (v : F)
    : exn + list (list F) :=
  (i <- py_index (length syn_prod) m ;;
   row <- of_option IndexError (nth_error syn_prod i) ;;
   j <- py_index (length row) n ;;
   old <- of_option IndexError (nth_error row j) ;;
   ret (update syn_prod i (update row j (add old v))))%py.

(** Lines 68-71.  The grid is updated in place: when an item raises, the
    items before it have been written. *)
Fixpoint load (syn_prod : list (list F)) (back_sel : list (list (pyval F)))
    (xa0 : list F) : list (list F) * option exn :=
  match back_sel, xa0 with
  | itm :: back_sel', v :: xa' =>
      match (m <- of_option IndexError (nth_error itm 0) ;;
             n <- of_option IndexError (nth_error itm 1) ;;
             iadd syn_prod m n v)%py with
      | inl e => (syn_prod, Some e)
      | inr syn_prod' => load syn_prod' back_sel' xa'
      end
  | _, _ => (syn_prod, None)
  end.

(** The whole function: the grid after the call, and the exception raised
    if any (otherwise the grid is also the value returned). *)
Definition optimal_interpolation (err : nat -> F) (syn_prod : list (list F))
    (y_meas : F) (back_sel : list (list (pyval F))) (map_func : string)
    : list (list F) * option exn :=
  match analysis err y_meas back_sel map_func with
  | inl e => (syn_prod, Some e)
  | inr xa0 => load syn_prod back_sel xa0
  end.

End Estimator.

(** ** [processor] (processor.py, lines 76-156) *)

(** Code that prints: the lines written so far, and the outcome. *)
Definition run (A : Type) : Type := list printed * (exn + A).

Definition rret {A} (a : A) : run A := ([], inr a).
Definition lift {A} (c : exn + A) : run A := ([], c).
Definition print (p : printed) : run unit := ([p], inr tt).
Definition rbind {A B} (c : run A) (k : A -> run B) : run B :=
  match c with
  | (out, inl e) => (out, inl e)
  | (out, inr a) => (out ++ fst (k a), snd (k a))
  end.

(** [try: body except Exception as e: handler]: every exception of [exn] is
    an [Exception], so the handler catches whatever the body raises. *)
Definition try_except {A} (body : run A) (handler : exn -> run A) : run A :=
  match body with
  | (out, inl e) => (out ++ fst (handler e), snd (handler e))
  | (out, inr a) => (out, inr a)
  end.

Declare Scope run_scope.
Delimit Scope run_scope with run.
Notation "x <- c ;; k" := (rbind c (fun x => k))
  (at level 61, c at next level, right associativity) : run_scope.

(** [print(e)] writes the message of the exception. *)
Definition exn_text (e : exn) : printed :=
  match e with
  | Exception msg | NotImplementedError msg => PText msg
  | IndexError => PText "IndexError"
  | ValueError => PText "ValueError"
  | ZeroDivisionError => PText "ZeroDivisionError"
  | TypeError => PText "TypeError"
  | OverflowError => PText "OverflowError"
  | AssertionError n right_len => PRatio "AssertionError" right_len
  end.

(** Lines 117-127: the two length checks, inside [try ... except]. *)
Definition integrity_check (len_smooth size_smooth len_coarse size_coarse : nat)
    : run unit :=
  try_except
    (_ <- (if negb (len_smooth =? size_smooth) then
             lift (raise (Exception
               "Something was wrong in the formation of the mapping array: map_smooth.size != smooth.size"))
           else rret tt) ;;
     if negb (len_coarse =? size_coarse) then
       lift (raise (Exception
         "Something was wrong in the formation of the mapping array: map_coarse.size != coarse.size"))
     else rret tt)%run
    (fun e =>
       _ <- print (exn_text e) ;;
       _ <- print (PSizes "len(map_coarse), coarse.size" len_coarse size_coarse) ;;
       print (PSizes "len(map_smooth), smooth.size" len_smooth size_smooth))%run.

(** A row [[lat, lon, value]] of [map_coarse] or [map_smooth]. *)
Record grid_record (F : Type) : Type := {
  rec_lat : F;
  rec_lon : F;
  rec_value : F
}.

(** What [processor] hands to [xr.Dataset]. *)
Record Dataset (F : Type) : Type := {
  ds_varname : string;
  ds_synergistic : list (list F);
  ds_latitude : list (list F);
  ds_longitude : list (list F)
}.

Section Processor.

Context {F : Type} {ops : Scalar F}.

(** Lines 102-103: [np.int32(np.round(s / c))], elementwise on the two
    coordinate arrays, broadcast against each other. *)
Definition ratio (s c : list (list F)) : exn + list (list Z) :=
  broadcast2 (fun x y => rint32 (div x y)) s c.

(** Line 108: [np.zeros(shape)]. *)
Definition np_zeros (sh : nat * nat) : list (list F) :=
  repeat (repeat zero (snd sh)) (fst sh).

(** Lines 111-115: one record per index of [np.ndindex(val.shape)]. *)
Definition flatten (lat lon val : list (list F)) : exn + list (grid_record F) :=
  mapM (fun ab =>
          (x <- get2 lat (fst ab) (snd ab) ;;
           y <- get2 lon (fst ab) (snd ab) ;;
           v <- get2 val (fst ab) (snd ab) ;;
           ret {| rec_lat := x; rec_lon := y; rec_value := v |})%py)
       (ndindex (shape val)).

(** [m[:, k]] on the array of records, which is 1-D when it is empty. *)
Definition column (f : grid_record F -> F) (m : list (grid_record F))
    : exn + list F :=
  match m with
  | [] => raise IndexError
  | _ => ret (map f m)
  end.

(** [ratio / 2]: an [int32] array divided by the integer 2. *)
Definition half_width (ratio0 : list (list Z)) : list (list F) :=
  map (map (fun z => div (of_int z) (of_int 2))) ratio0.

(** Lines 132-137: the condition given to [np.where].  The 1-D columns of
    [map_smooth] broadcast against the 2-D ratio arrays as one row. *)
Definition window (lat_ratio lon_ratio : list (list Z)) (c : grid_record F)
    (map_smooth : list (grid_record F)) : exn + list (list bool) :=
  (lats <- column (@rec_lat F) map_smooth ;;
   c1 <- broadcast2 leb [lats]
           (map (map (add (rec_lat c))) (half_width lat_ratio)) ;;
   c2 <- broadcast2 (fun x y => leb y x) [lats]
           (map (map (sub (rec_lat c))) (half_width lat_ratio)) ;;
   c12 <- broadcast2 andb c1 c2 ;;
   lons <- column (@rec_lon F) map_smooth ;;
   c3 <- broadcast2 leb [lons]
           (map (map (add (rec_lon c))) (half_width lon_ratio)) ;;
   c123 <- broadcast2 andb c12 c3 ;;
   c4 <- broadcast2 (fun x y => leb y x) [lons]
           (map (map (sub (rec_lon c))) (half_width lon_ratio)) ;;
   broadcast2 andb c123 c4)%py.

Definition indices (lat_ratio lon_ratio : list (list Z)) (c : grid_record F)
    (map_smooth : list (grid_record F)) : exn + list (list nat) :=
  (cond <- window lat_ratio lon_ratio c map_smooth ;; ret (np_where cond))%py.

(** Line 139: [selected = [map_smooth[index, 2] for index in indices]]:
    one array of values per index array of the tuple. *)
Definition selected (map_smooth : list (grid_record F))
    (indices0 : list (list nat)) : exn + list (list F) :=
  mapM (fun index =>
          mapM (fun ix => of_option IndexError
                            (option_map (@rec_value F) (nth_error map_smooth ix)))
               index)
       indices0.

(** Lines 141-142: [assert len(selected) == (lat_ratio * lon_ratio)].  The
    right-hand side is an [int32] array, the comparison an array of
    booleans, and [assert] takes its truth value. *)
Definition assert_selected (sel : list (list F))
    (lat_ratio lon_ratio : list (list Z)) : exn + unit :=
  (right_len <- broadcast2 int32_mul lat_ratio lon_ratio ;;
   ok <- truth (map (map (Z.eqb (Z.of_nat (length sel)))) right_len) ;;
   if ok then ret tt else raise (AssertionError (length sel) right_len))%py.

(** Lines 130-145: the body of the loop, for the coarse record [c]. *)
Definition cell (err : nat -> F) (lat_ratio lon_ratio : list (list Z))
    (map_smooth : list (grid_record F)) (interpolation mapping : string)
    (syne : list (list F)) (c : grid_record F) : exn + list (list F) :=
  (ind <- indices lat_ratio lon_ratio c map_smooth ;;
   sel <- selected map_smooth ind ;;
   _ <- assert_selected sel lat_ratio lon_ratio ;;
   if String.eqb interpolation "Optimal Interpolation" then
     match optimal_interpolation err syne (rec_value c)
             (map (map PFloat) sel) mapping with
     | (_, Some e) => raise e
     | (syne', None) => ret syne'
     end
   else ret syne)%py.

(** Line 129: the loop; [rnd i] is the sequence of draws of iteration [i]. *)
Fixpoint cells (rnd : nat -> nat -> F) (lat_ratio lon_ratio : list (list Z))
    (map_smooth : list (grid_record F)) (interpolation mapping : string)
    (i : nat) (map_coarse : list (grid_record F)) (syne : list (list F))
    : exn + list (list F) :=
  match map_coarse with
  | [] => ret syne
  | c :: rest =>
      (syne' <- cell (rnd i) lat_ratio lon_ratio map_smooth interpolation
                     mapping syne c ;;
       cells rnd lat_ratio lon_ratio map_smooth interpolation mapping
             (S i) rest syne')%py
  end.

Definition processor (rnd : nat -> nat -> F)
    (coarse smooth c_lat c_lon s_lat s_lon : list (list F))
    (varname interpolation mapping : string) : run (Dataset F) :=
  (lat_ratio <- lift (ratio s_lat c_lat) ;;
   lon_ratio <- lift (ratio s_lon c_lon) ;;
   _ <- print (PRatio "coarse/smooth latitude ratio" lat_ratio) ;;
   _ <- print (PRatio "coarse/smooth latitude ratio" lon_ratio) ;;
   let syne := np_zeros (shape smooth) in
   map_coarse <- lift (flatten c_lat c_lon coarse) ;;
   map_smooth <- lift (flatten s_lat s_lon smooth) ;;
   _ <- integrity_check (length map_smooth) (size smooth)
                        (length map_coarse) (size coarse) ;;
   syne' <- lift (cells rnd lat_ratio lon_ratio map_smooth interpolation
                        mapping 0 map_coarse syne) ;;
   rret {| ds_varname := varname; ds_synergistic := syne';
           ds_latitude := s_lat; ds_longitude := s_lon |})%run.

End Processor.

(** ** The vocabulary of the specification

    Section 4.5: H(xb) = average(xb); section 4.3: the bounding box of a
    coarse record; section 4.7: the fine-grid index of an item. *)

Section Specification.

Context {F : Type} {ops : Scalar F}.

Definition spec_H (xb0 : list F) : F :=
  div (fold_left add xb0 (of_int 0)) (of_int (Z.of_nat (length xb0))).

(** Section 4.3: the closed bounding box of a coarse record, for one pair
    of ratios. *)
Definition in_window (lat_ratio lon_ratio : Z) (c r : grid_record F) : bool :=
  (leb (rec_lat r) (add (rec_lat c) (div (of_int lat_ratio) (of_int 2)))
   && leb (sub (rec_lat c) (div (of_int lat_ratio) (of_int 2))) (rec_lat r))
  && leb (rec_lon r) (add (rec_lon c) (div (of_int lon_ratio) (of_int 2)))
  && leb (sub (rec_lon c) (div (of_int lon_ratio) (of_int 2))) (rec_lon r).

(** Section 4.7, the fine-grid index recorded with an analysis element:
    the cell that [syn_prod[itm[0]][itm[1]]] names in a grid whose rows have
    the lengths [lens], if it names one. *)
Definition address (lens : list nat) (itm : list (pyval F)) : option (nat * nat) :=
  match nth_error itm 0, nth_error itm 1 with
  | Some m, Some n =>
      match py_index (length lens) m with
      | inr i =>
          match nth_error lens i with
          | Some len =>
              match py_index len n with
              | inr j => Some (i, j)
              | inl _ => None
              end
          | None => None
          end
      | inl _ => None
      end
  | _, _ => None
  end.

Definition hits (lens : list nat) (itm : list (pyval F)) (i j : nat) : Prop :=
  address lens itm = Some (i, j).

End Specification.

(** ** Vocabulary of further properties *)

Section WrittenValues.

Context {F : Type} {ops : Scalar F}.

(** An item on which lines 23 and 69-70 can read [itm[0]], [itm[1]] and
    [itm[2]]. *)
Definition complete (itm : list (pyval F)) : bool := 3 <=? length itm.

(** The item addresses the cell [(i, j)]. *)
Definition addresses (lens : list nat) (itm : list (pyval F)) (i j : nat) : bool :=
  match address lens itm with
  | Some (a, b) => (a =? i) && (b =? j)
  | None => false
  end.

(** The analysis elements of the items that address the cell [(i, j)], in
    the order of the loop of lines 68-71. *)
Definition written (lens : list nat) (back_sel : list (list (pyval F)))
    (xa0 : list F) (i j : nat) : list F :=
  map snd (filter (fun p => addresses lens (fst p) i j) (combine back_sel xa0)).

End WrittenValues.

(** ** [output_saving] and [list_files] (file_io.py) *)

Module FileIO.

(** A Python [str], as the sequence of its code points: a file name may
    hold any character. *)
Definition str : Type := list N.

(** A literal of the program. *)
Definition lit (s : string) : str := map N_of_ascii (list_ascii_of_string s).

(** [f'{x}'] of a value that may be [None]. *)
Definition format (x : option str) : str :=
  match x with
  | Some s => s
  | None => lit "None"
  end.

Fixpoint str_eqb (s t : str) : bool :=
  match s, t with
  | [], [] => true
  | c :: s', d :: t' => (c =? d)%N && str_eqb s' t'
  | _, _ => false
  end.

Inductive value_error : Type :=
| NoDate (msg : str)                     (* line 91 *)
| NotEnoughValues (expected got : nat)   (* unpacking, main.py line 74 *)
| TooManyValues (expected : nat).

Inductive type_error : Type :=
| NoneNotIterable                        (* iterating over [None] *)
| PathOfNone.                            (* [Path(None)] *)

(** The exceptions of file_io.py and main.py; an exception raised inside
    pandas or xarray is known by its name only, one raised by [processor]
    is an [exn]. *)
Inductive error : Type :=
| ValueError (why : value_error)
| TypeError (why : type_error)
| AttributeError (type_name attribute : string)
| FileNotFoundError (msg : str)
| NotImplementedError (msg : str)
| LibraryError (name : string)
| ProcessorError (e : exn).

Definition bind {A B} (c : error + A) (k : A -> error + B) : error + B :=
  match c with
  | inl e => inl e
  | inr a => k a
  end.

Declare Scope file_scope.
Delimit Scope file_scope with file.
Notation "x <- c ;; k" := (bind c (fun x => k))
  (at level 61, c at next level, right associativity) : file_scope.

Section Pattern.

(** [\d] in a [str] pattern matches every code point of the Unicode
    category Nd; the table is an input. *)
Variable decimal : N -> bool.

(** [\d{n}] at the start of [s]: what follows the [n] digits. *)
Fixpoint digits (n : nat) (s : str) : option str :=
  match n with
  | O => Some s
  | S n' =>
      match s with
      | c :: s' => if decimal c then digits n' s' else None
      | [] => None
      end
  end.

(** The pattern of line 88, [(\d{8}T\d{6})], at the start of [s]: the text
    of group 1.  [T] is the code point 84. *)
Definition match_here (s : str) : option str :=
  match digits 8 s with
  | Some (c :: r) =>
      if (c =? 84)%N then
        match digits 6 r with
        | Some _ => Some (firstn 15 s)
        | None => None
        end
      else None
  | _ => None
  end.

(** Line 89, [pattern.search(reference)]: the match at the leftmost
    position that has one. *)
Fixpoint search (s : str) : option str :=
  match match_here s with
  | Some g => Some g
  | None =>
      match s with
      | [] => None
      | _ :: s' => search s'
      end
  end.

(** Lines 94-96 call [strftime] on [match.group(1)], which is a [str]: the
    lookup of the attribute fails, [strftime] being a method of [datetime]
    objects. *)
Definition str_strftime (s : str) (fmt : string) : error + str :=
  inl (AttributeError "str" "strftime").

(** Lines 88-165.  [save] stands for lines 98-165, which create the
    directories and write the NetCDF file, and return its path; [main]
    leaves [date] to its default, "yes". *)
Definition output_saving {D P : Type}
    (save : D -> string -> option str -> string -> string -> str -> str -> str -> str
            -> error + P)
    (out_dataset : D) (varname : string) (reference : str) (out_dir : option str)
    (type_of_interpolation : string) (date : string) : error + P :=
  match search reference with
  | None => inl (ValueError (NoDate (reference ++ lit " does not contain a date")))
  | Some date_time_str =>
      (year <- str_strftime date_time_str "%Y" ;;
       month <- str_strftime date_time_str "%m" ;;
       day <- str_strftime date_time_str "%d" ;;
       save out_dataset varname out_dir type_of_interpolation date
            date_time_str year month day)%file
  end.

(** A date-time stamp: eight decimal digits, [T], six decimal digits. *)
Definition stamp (d : str) : Prop :=
  exists a b, d = a ++ 84%N :: b /\ length a = 8 /\ length b = 6
              /\ Forall (fun c => decimal c = true) (a ++ b).

Definition contains_stamp (s : str) : Prop :=
  exists pre d post, s = pre ++ d ++ post /\ stamp d.

End Pattern.

(** Lines 18-42.  [glob] is the state of the file system; [day_pattern base
    d extension] is the text of
    [Path(base) / f'{d.year:04d}' / f'{d.month:02d}' / f'{d.day:02d}' / f'*.{extension}']. *)
Definition list_files {T : Type} (glob : str -> list str)
    (day_pattern : str -> T -> str -> str)
    (base_dir : option str) (date_index : list T) (extension : str)
    : error + list str :=
  match base_dir with
  | None => inl (TypeError PathOfNone)
  | Some base => inr (flat_map (fun d => glob (day_pattern base d extension)) date_index)
  end.

End FileIO.

(** ** [main] (main.py, lines 20-90) *)

Module Main.

Import FileIO.

(** A line written by [print], by [main] itself or inside [processor]. *)
Inductive line : Type :=
| Line (text : str)
| ProcessorLine (p : printed).

Definition out (A : Type) : Type := list line * (error + A).

Definition oret {A} (a : A) : out A := ([], inr a).
Definition olift {A} (c : error + A) : out A := ([], c).
Definition oprint (text : str) : out unit := ([Line text], inr tt).
Definition obind {A B} (c : out A) (k : A -> out B) : out B :=
  match c with
  | (o, inl e) => (o, inl e)
  | (o, inr a) => (o ++ fst (k a), snd (k a))
  end.

(** A call of [processor]: its lines, and its exception if it raises. *)
Definition of_processor {A} (c : run A) : out A :=
  (map ProcessorLine (fst c),
   match snd c with
   | inl e => inl (ProcessorError e)
   | inr a => inr a
   end).

Declare Scope main_scope.
Delimit Scope main_scope with main.
Notation "x <- c ;; k" := (obind c (fun x => k))
  (at level 61, c at next level, right associativity) : main_scope.

(** [fileDs1, fileDs2 = files], for [files] wrapped in [tqdm]: iterating
    over [None] is a [TypeError], any number of entries other than two a
    [ValueError]. *)
Definition unpack (files : option (list str)) : error + (str * str) :=
  match files with
  | None => inl (TypeError NoneNotIterable)
  | Some [fileDs1; fileDs2] => inr (fileDs1, fileDs2)
  | Some (_ :: _ :: _ :: _) => inl (ValueError (TooManyValues 2))
  | Some l => inl (ValueError (NotEnoughValues 2 (length l)))
  end.

Section Main.

Context {F : Type} {ops : Scalar F}.

(** Dates as [pd.date_range] yields them. *)
Variable Timestamp : Type.

(** What [main] reads from outside: the clock, pandas, the file system, the
    data sets, and the random draws of each call of [processor]; and the
    parts of the program that only write files or draw. *)
Record world : Type := {
  clock : str;                               (* [datetime.now().strftime('%H:%M:%S')] *)
  decimal : N -> bool;
  lower : str -> str;                        (* [str.lower] *)
  date_range : str -> str -> error + list Timestamp;
  glob : str -> list str;
  day_pattern : str -> Timestamp -> str -> str;
  load_dataset : str -> string
                 -> error + (list (list F) * list (list F) * list (list F));
  rnd : nat -> nat -> nat -> F;
  save : Dataset F -> string -> option str -> string -> string
         -> str -> str -> str -> str -> error + str;
  plotter : str -> string -> out unit
}.

Variable w : world.

Definition _FILE_FORMAT_IN_SUPPORTED : str := lit "['s5p_l3', 's3a_l3', 's3b_l3']".

(** Lines 42-71: the two lists of files, [None] for a list that is not
    computed. *)
Definition get_files (base_dir_ds1 base_dir_ds2 : option str)
    (extension date_start date_end : str) (do_files_from_dates : bool)
    (file_pattern_ds1 file_pattern_ds2 file_format_in_ds1 file_format_in_ds2 : str)
    : error + (option (list str) * option (list str)) :=
  if do_files_from_dates then
    (date_index <- date_range w date_start date_end ;;
     if str_eqb (lower w file_format_in_ds1) (lit "s5p_l3") then
       files_ds1 <- list_files (glob w) (day_pattern w) base_dir_ds1 date_index extension ;;
       match files_ds1 with
       | [] => inl (FileNotFoundError
                      (lit "No files match: " ++ format base_dir_ds1 ++ lit ", "
                       ++ date_start ++ lit "--" ++ date_end ++ lit " and " ++ extension))
       | _ => inr (Some files_ds1, None)
       end
     else if str_eqb (lower w file_format_in_ds2) (lit "s3a_l3")
             || str_eqb (lower w file_format_in_ds2) (lit "s3b_l3") then
       files_ds2 <- list_files (glob w) (day_pattern w) base_dir_ds2 date_index extension ;;
       match files_ds2 with
       | [] => inl (FileNotFoundError
                      (lit "No files match: " ++ format base_dir_ds2 ++ lit ", "
                       ++ date_start ++ lit "--" ++ date_end ++ lit " and " ++ extension))
       | _ => inr (None, Some files_ds2)
       end
     else
       inl (NotImplementedError
              (lit "file_format_in must be in " ++ _FILE_FORMAT_IN_SUPPORTED
               ++ lit ". You provided " ++ file_format_in_ds1 ++ lit " and "
               ++ file_format_in_ds2)))%file
  else
    let files_ds1 := glob w file_pattern_ds1 in
    let files_ds2 := glob w file_pattern_ds2 in
    match files_ds1 with
    | [] => inl (FileNotFoundError (lit "No files match: " ++ file_pattern_ds1))
    | _ =>
        match files_ds2 with
        | [] => inl (FileNotFoundError (lit "No files match: " ++ file_pattern_ds2))
        | _ => inr (Some files_ds1, Some files_ds2)
        end
    end.

(** Lines 76-90: the body of the loop, in its iteration [k]. *)
Definition body (interpolation_method : string) (out_dir : option str)
    (varname : string) (k : nat) (fileDs1 fileDs2 : str) : out unit :=
  (ds1 <- olift (load_dataset w fileDs1 varname) ;;
   ds2 <- olift (load_dataset w fileDs2 varname) ;;
   _ <- oprint (lit "DOAS dataset loaded: " ++ fileDs1) ;;
   _ <- oprint (lit "OC-PFT dataset loaded: " ++ fileDs2) ;;
   let '(arr_ds1, lat_ds1, lon_ds1) := ds1 in
   let '(arr_ds2, lat_ds2, lon_ds2) := ds2 in
   output <- of_processor
               (processor (rnd w k) arr_ds1 arr_ds2 lat_ds1 lon_ds1 lat_ds2 lon_ds2
                          varname interpolation_method "mean") ;;
   _ <- olift (output_saving (decimal w) (save w) output varname fileDs2 out_dir
                             interpolation_method "yes") ;;
   ds_path <- olift (output_saving (decimal w) (save w) output varname fileDs2 out_dir
                                   interpolation_method "yes") ;;
   plotter w ds_path varname)%main.

(** Lines 36-90.  The loop of line 74 runs over the pair of the two
    wrapped lists, and unpacks each of them into the two file names. *)
Definition main (base_dir_ds1 base_dir_ds2 : option str)
    (extension date_start date_end : str) (do_files_from_dates : bool)
    (file_pattern_ds1 file_pattern_ds2 file_format_in_ds1 file_format_in_ds2 : str)
    (interpolation_method : string) (out_dir : option str) (varname : string)
    : out unit :=
  (_ <- oprint (lit "Synergy processing starts at " ++ clock w) ;;
   files <- olift (get_files base_dir_ds1 base_dir_ds2 extension date_start date_end
                             do_files_from_dates file_pattern_ds1 file_pattern_ds2
                             file_format_in_ds1 file_format_in_ds2) ;;
   names <- olift (unpack (fst files)) ;;
   _ <- body interpolation_method out_dir varname 0 (fst names) (snd names) ;;
   names <- olift (unpack (snd files)) ;;
   body interpolation_method out_dir varname 1 (fst names) (snd names))%main.

End Main.

End Main.

(** The same world with other code for the writing of the file and for the
    plot. *)
Definition with_writers {F : Type} {Timestamp : Type} (w : Main.world (F:=F) Timestamp)
    (save' : Dataset F -> string -> option FileIO.str -> string -> string
             -> FileIO.str -> FileIO.str -> FileIO.str -> FileIO.str
             -> FileIO.error + FileIO.str)
    (plotter' : FileIO.str -> string -> Main.out unit) : Main.world Timestamp :=
  {| Main.clock := Main.clock w;
     Main.decimal := Main.decimal w;
     Main.lower := Main.lower w;
     Main.date_range := Main.date_range w;
     Main.glob := Main.glob w;
     Main.day_pattern := Main.day_pattern w;
     Main.load_dataset := Main.load_dataset w;
     Main.rnd := Main.rnd w;
     Main.save := save';
     Main.plotter := plotter' |}.

(** ** [y_meas], a Python float or an [np.float64]

    [processor] passes [map_coarse[i, 2]], an [np.float64]; the signature
    of [optimal_interpolation] says [float], and a caller may pass a Python
    float.  The two differ on line 27 only: [(0.5 * y_meas) ** 2] on a
    Python float raises [OverflowError] when the square of a finite number
    is out of range, and on an [np.float64] it is [inf].  In both cases the
    square is taken to be the product [x * x], correctly rounded.  The
    definitions of section [Estimator] are the code for a measurement on
    which line 27 returns; the definitions below put the check of line 27
    in front of them, after line 23 and before the test of the operator
    name. *)

Module Caller.

Inductive measurement : Type :=
| python_float (y : float)
| np_float64 (y : float).

Definition value (y_meas : measurement) : float :=
  match y_meas with
  | python_float y | np_float64 y => y
  end.

(** [x ** 2] on a Python float raises: [x] is finite and its square is
    not. *)
Definition pow2_raises (x : float) : bool :=
  is_finite x && is_infinity (PrimFloat.mul x x).

(** Whether line 27 raises. *)
Definition overflows (y_meas : measurement) : bool :=
  match y_meas with
  | python_float y => pow2_raises (PrimFloat.mul 0.5 y)
  | np_float64 _ => false
  end.

(** Line 27. *)
Definition line_27 (y_meas : measurement) : exn + float :=
  if overflows y_meas then raise OverflowError else ret (R (value y_meas)).

(** Lines 23-65. *)
Definition analysis (err : nat -> float) (y_meas : measurement)
    (back_sel : list (list (pyval float))) (map_func : string) : exn + list float :=
  (_ <- xb back_sel ;;
   _ <- line_27 y_meas ;;
   analysis err (value y_meas) back_sel map_func)%py.

(** Lines 23-73. *)
Definition optimal_interpolation (err : nat -> float) (syn_prod : list (list float))
    (y_meas : measurement) (back_sel : list (list (pyval float))) (map_func : string)
    : list (list float) * option exn :=
  match analysis err y_meas back_sel map_func with
  | inl e => (syn_prod, Some e)
  | inr xa0 => load syn_prod back_sel xa0
  end.

End Caller.

(** The value of the item is a float, as in the arrays [processor] hands
    over, and not a Python [int]. *)
Definition float_valued {F : Type} (itm : list (pyval F)) : bool :=
  match nth_error itm 2 with
  | Some (PInt _) => false
  | _ => true
  end.

(** ** The estimator as the specification writes it: sums over indices

    Section 4.6 gives the gain and the analysis as formulas of linear
    algebra.  They are written here entry by entry, over vectors and
    matrices given as functions of their indices, with the sum
    [f 0 + ... + f (n - 1)] added from the left. *)

Section IndexedSums.

Context {F : Type} {ops : Scalar F}.









End IndexedSums.

(** ** Rounding to nearest, as [SpecFloat] computes it

    The operations of binary64 are specified by [SpecFloat]: a sum or a
    quotient is computed exactly, truncated with the location of what was
    cut, and rounded ([binary_round_aux]).  These definitions name what
    that computes, on integers. *)

Module Rounding.

Local Open Scope Z_scope.

(** Where the quotient [N / D] lies between the integers [N / D] and
    [N / D + 1]. *)
Definition loc (N D : Z) : location :=
  if N mod D =? 0 then loc_Exact else loc_Inexact (2 * (N mod D) ?= D).

(** [N / D] rounded to the nearest integer, ties to the even one. *)
Definition rnd (N D : Z) : Z := round_nearest_even (N / D) (loc N D).

(** The last steps of [binary_round_aux]: the rounded mantissa [m] at
    exponent [e] is brought back to [prec] digits, and the result is a zero,
    a finite number or, beyond [emax], an infinity. *)
Definition finalize (prec emax : Z) (s : bool) (m e : Z) : spec_float :=
  let '(mrs, e') := shr_fexp prec emax m e loc_Exact in
  match shr_m mrs with
  | Z0 => S754_zero s
  | Zpos p => if e' <=? emax - prec then S754_finite s p e' else S754_infinity s
  | Zneg _ => S754_nan
  end.

(** The positive rational [A / B], counted in units of [2 ^ emin], has its
    last kept bit [ulp_shift] places above the unit. *)
Definition ulp_shift (prec : Z) (A B : Z) : Z := Z.max (Zdigits2 (A / B) - prec) 0.

(** The float of sign [s] nearest to [(A / B) * 2 ^ emin]. *)
Definition nearest (prec emax : Z) (s : bool) (A B : Z) : spec_float :=
  finalize prec emax s (rnd A (B * 2 ^ ulp_shift prec A B))
           (SpecFloat.emin prec emax + ulp_shift prec A B).

(** The value of a finite float, counted in units of [2 ^ emin]. *)
Definition scaled (prec emax : Z) (x : spec_float) : Z :=
  match x with
  | S754_finite s m e => cond_Zopp s (Zpos m * 2 ^ (e - SpecFloat.emin prec emax))
  | _ => 0
  end.

End Rounding.

(** * Properties *)

Unset Implicit Arguments.

(** ** Lists *)

Lemma map2_length {A B C} (f : A -> B -> C) (u : list A) (v : list B) :
  length (map2 f u v) = Nat.min (length u) (length v).
Proof. unfold map2. now rewrite length_map, length_combine. Qed.

Lemma mapM_length {A B} (f : A -> exn + B) (l : list A) (bs : list B) :
  mapM f l = inr bs -> length bs = length l.
Proof.
  revert bs; induction l as [|a l IH]; intros bs; simpl.
  - intros [= <-]; reflexivity.
  - destruct (f a) as [e|b]; [discriminate|].
    destruct (mapM f l) as [e|bs']; [discriminate|].
    intros [= <-]; simpl. now rewrite (IH bs').
Qed.

Lemma mapM_nth {A B} (f : A -> exn + B) (l : list A) (bs : list B) :
  mapM f l = inr bs ->
  forall i a, nth_error l i = Some a ->
              exists b, nth_error bs i = Some b /\ f a = inr b.
Proof.
  revert bs; induction l as [|a0 l IH]; intros bs; simpl.
  - intros _ [|i] a; discriminate.
  - destruct (f a0) as [e|b0] eqn:E0; [discriminate|].
    destruct (mapM f l) as [e|bs'] eqn:E; [discriminate|].
    intros [= <-] [|i] a; simpl.
    + intros [= <-]; eauto.
    + intros Hn. exact (IH bs' eq_refl i a Hn).
Qed.

Lemma mapM_total {A B} (f : A -> exn + B) (l : list A) :
  (forall a, In a l -> exists b, f a = inr b) ->
  exists bs, mapM f l = inr bs.
Proof.
  induction l as [|a l IH]; intros Hf; simpl.
  - eauto.
  - destruct (Hf a (or_introl eq_refl)) as [b ->].
    destruct IH as [bs ->]; [intros; apply Hf; now right|]. eauto.
Qed.

(** ** The caller's measurement *)

Lemma caller_analysis_cases (err : nat -> float) (y_meas : Caller.measurement)
      (back_sel : list (list (pyval float))) (map_func : string) :
  Caller.analysis err y_meas back_sel map_func
  = match xb back_sel with
    | inl e => inl e
    | inr _ => if Caller.overflows y_meas then inl OverflowError
               else analysis err (Caller.value y_meas) back_sel map_func
    end.
Proof.
  unfold Caller.analysis, Caller.line_27, bind.
  destruct (xb back_sel); [reflexivity|].
  destruct (Caller.overflows y_meas); reflexivity.
Qed.

Lemma caller_np_float64 (err : nat -> float) (syn : list (list float)) (y : float)
      (back_sel : list (list (pyval float))) (map_func : string) :
  Caller.optimal_interpolation err syn (Caller.np_float64 y) back_sel map_func
  = optimal_interpolation err syn y back_sel map_func.
Proof.
  unfold Caller.optimal_interpolation, optimal_interpolation.
  rewrite caller_analysis_cases. cbn [Caller.overflows Caller.value].
  destruct (xb back_sel) as [e|xb0] eqn:E; [|reflexivity].
  unfold analysis. now rewrite E.
Qed.

(** ** C1: the gain and the analysis *)

Section EstimatorFacts.

Context {F : Type} {ops : Scalar F}.

Lemma K_length (num : list F) (den : F) : length (K num den) = length num.
Proof. unfold K. apply length_map. Qed.

Lemma Num_length (pb : list (list F)) (hdot : list F) :
  length (Num pb hdot) = length pb.
Proof. unfold Num. apply length_map. Qed.


Lemma H_nonempty (xb0 : list F) :
  1 <= length xb0 -> H xb0 = inr (spec_H xb0).
Proof. destruct xb0; simpl; [lia|reflexivity]. Qed.

(** On the one supported operator, [analysis] is the straight-line code
    of lines 27-65. *)
Lemma analysis_mean (err : nat -> F) (y : F) back_sel (xb0 : list F) :
  xb back_sel = inr xb0 -> 1 <= length xb0 ->
  analysis err y back_sel "mean" =
  inr (let hdot := Hdot (length xb0) in
       let num := Num (Pb (eb xb0 (map err (seq 0 (length xb0))))) hdot in
       xa xb0 (K num (Den hdot num (R y))) y (spec_H xb0)).
Proof.
  intros Hxb Hn. unfold analysis. rewrite Hxb. cbn [bind].
  change (existsb (String.eqb "mean") supported_functions) with true.
  cbn [negb]. change (String.eqb "mean" "mean") with true. cbn iota.
  rewrite (H_nonempty _ Hn). reflexivity.
Qed.

End EstimatorFacts.

Section IndexedSumFacts.

Context {F : Type} {ops : Scalar F}.












End IndexedSumFacts.

Section GainFacts.

Context {F : Type} {ops : Scalar F}.



End GainFacts.





(** ** C10: the output grid and the additive write *)

Lemma update_length {A} (l : list A) (i : nat) (x : A) :
  length (update l i x) = length l.
Proof.
  revert i; induction l as [|a l IH]; intros [|i]; simpl; auto.
Qed.

Lemma nth_error_update_eq {A} (l : list A) (i : nat) (x : A) :
  i < length l -> nth_error (update l i x) i = Some x.
Proof.
  revert i; induction l as [|a l IH]; intros [|i]; simpl; try lia; auto.
  intros Hi. apply IH. lia.
Qed.

Lemma nth_error_update_neq {A} (l : list A) (i j : nat) (x : A) :
  i <> j -> nth_error (update l i x) j = nth_error l j.
Proof.
  revert i j; induction l as [|a l IH]; intros [|i] [|j]; simpl; try congruence; auto.
Qed.

Lemma map_update {A B} (f : A -> B) (l : list A) (i : nat) (x : A) :
  map f (update l i x) = update (map f l) i (f x).
Proof.
  revert i; induction l as [|a l IH]; intros [|i]; simpl; auto.
  now rewrite IH.
Qed.

Lemma update_same {A} (l : list A) (i : nat) (x : A) :
  nth_error l i = Some x -> update l i x = l.
Proof.
  revert i; induction l as [|a l IH]; intros [|i]; simpl; try discriminate.
  - now intros [= ->].
  - intros Hn. now rewrite IH.
Qed.

Lemma py_index_bound {F} (len : nat) (v : pyval F) (i : nat) :
  py_index len v = inr i -> i < len.
Proof.
  unfold py_index. destruct v as [z|f]; [|discriminate].
  destruct ((0 <=? z)%Z && (z <? Z.of_nat len)%Z) eqn:E1.
  - intros [= <-]. apply andb_true_iff in E1 as [? ?]. lia.
  - destruct ((- Z.of_nat len <=? z)%Z && (z <? 0)%Z) eqn:E2; [|discriminate].
    intros [= <-]. apply andb_true_iff in E2 as [? ?]. lia.
Qed.

Section Assembler.

Context {F : Type} {ops : Scalar F}.

Lemma np_zeros_shape (smooth : list (list F)) :
  shape (np_zeros (shape smooth)) = shape smooth.
Proof.
  unfold np_zeros, shape, nrows, ncols; simpl.
  destruct smooth as [|r smooth]; simpl; [reflexivity|].
  now rewrite !repeat_length.
Qed.

Lemma np_zeros_same_shape (smooth : list (list F)) :
  rect (ncols smooth) smooth -> same_shape (np_zeros (shape smooth)) smooth.
Proof.
  unfold same_shape, np_zeros, shape, nrows; simpl.
  generalize (ncols smooth) as c. intros c Hr.
  induction Hr as [|r M Hlen _ IH]; simpl; [reflexivity|].
  now rewrite repeat_length, Hlen, IH.
Qed.

Lemma np_zeros_cells (sh : nat * nat) (i j : nat) (v : F) :
  nth2 (np_zeros sh) i j = Some v -> v = zero.
Proof.
  unfold nth2, np_zeros. intros Hv.
  destruct (nth_error (repeat (repeat zero (snd sh)) (fst sh)) i) as [r|] eqn:Er;
    [|discriminate].
  apply nth_error_In, repeat_spec in Er. subst r.
  apply nth_error_In, repeat_spec in Hv. exact Hv.
Qed.

(** One execution of line 71. *)
Lemma iadd_inv (syn syn' : list (list F)) (m n : pyval F) (v : F) :
  iadd syn m n v = inr syn' ->
  exists i j row old,
    py_index (length syn) m = inr i /\ nth_error syn i = Some row /\
    py_index (length row) n = inr j /\ nth_error row j = Some old /\
    syn' = update syn i (update row j (add old v)).
Proof.
  unfold iadd, bind.
  destruct (py_index (length syn) m) as [e|i] eqn:Ei; [discriminate|].
  destruct (nth_error syn i) as [row|] eqn:Er; [|discriminate]. cbn [of_option].
  destruct (py_index (length row) n) as [e|j] eqn:Ej; [discriminate|].
  destruct (nth_error row j) as [old|] eqn:Eo; [|discriminate]. cbn [of_option].
  intros [= <-]. exists i, j, row, old. auto.
Qed.

Lemma iadd_same_shape (syn syn' : list (list F)) (m n : pyval F) (v : F) :
  iadd syn m n v = inr syn' -> same_shape syn' syn.
Proof.
  intros Hi. destruct (iadd_inv _ _ _ _ _ Hi) as (i & j & row & old & _ & Hrow & _ & _ & ->).
  unfold same_shape. rewrite map_update, update_length.
  apply update_same. now rewrite nth_error_map, Hrow.
Qed.

Lemma iadd_cell (syn syn' : list (list F)) (m n : pyval F) (v : F) :
  iadd syn m n v = inr syn' ->
  exists i j old,
    hits (map (@length F) syn) [m; n] i j /\
    nth2 syn i j = Some old /\
    nth2 syn' i j = Some (add old v) /\
    forall i' j', (i', j') <> (i, j) -> nth2 syn' i' j' = nth2 syn i' j'.
Proof.
  intros Hi. destruct (iadd_inv _ _ _ _ _ Hi) as (i & j & row & old & Hm & Hrow & Hn & Hold & ->).
  exists i, j, old. repeat split.
  - unfold hits, address. cbn [nth_error].
    rewrite length_map, Hm, nth_error_map, Hrow. cbn [option_map]. now rewrite Hn.
  - unfold nth2. now rewrite Hrow.
  - unfold nth2. rewrite nth_error_update_eq by (apply nth_error_Some; congruence).
    apply nth_error_update_eq. apply nth_error_Some; congruence.
  - intros i' j' Hne. unfold nth2.
    destruct (Nat.eq_dec i i') as [<-|Hi'].
    + rewrite nth_error_update_eq by (apply nth_error_Some; congruence).
      rewrite Hrow. apply nth_error_update_neq. congruence.
    + now rewrite nth_error_update_neq.
Qed.

Lemma hits_items (lens : list nat) (itm : list (pyval F)) (m n : pyval F) (i j : nat) :
  nth_error itm 0 = Some m -> nth_error itm 1 = Some n ->
  hits lens [m; n] i j -> hits lens itm i j.
Proof.
  unfold hits, address. intros -> ->. exact (fun E => E).
Qed.

Lemma hits_functional (lens : list nat) (itm : list (pyval F)) (i j i' j' : nat) :
  hits lens itm i j -> hits lens itm i' j' -> (i', j') = (i, j).
Proof.
  unfold hits. intros E E'. congruence.
Qed.

Lemma load_cons_inv (syn syn' : list (list F)) itm back_sel (v : F) xa0 :
  load syn (itm :: back_sel) (v :: xa0) = (syn', None) ->
  exists m n syn1,
    nth_error itm 0 = Some m /\ nth_error itm 1 = Some n /\
    iadd syn m n v = inr syn1 /\ load syn1 back_sel xa0 = (syn', None).
Proof.
  cbn [load]. unfold bind.
  destruct (nth_error itm 0) as [m|]; [|discriminate]. cbn [of_option].
  destruct (nth_error itm 1) as [n|]; [|discriminate]. cbn [of_option].
  destruct (iadd syn m n v) as [e|syn1] eqn:E; [discriminate|].
  intros Hl. now exists m, n, syn1.
Qed.

(** Lines 68-71 leave the shape of the grid and every cell that no item
    addresses as they were. *)
Lemma load_frame (back_sel : list (list (pyval F))) :
  forall (xa0 : list F) (syn syn' : list (list F)),
    load syn back_sel xa0 = (syn', None) ->
    same_shape syn' syn /\
    forall i j,
      (forall itm, In itm back_sel -> ~ hits (map (@length F) syn) itm i j) ->
      nth2 syn' i j = nth2 syn i j.
Proof.
  induction back_sel as [|itm back_sel IH]; intros xa0 syn syn'.
  - simpl. intros [= <-]. split; [reflexivity|auto].
  - destruct xa0 as [|v xa0]; [simpl; intros [= <-]; split; [reflexivity|auto]|].
    intros Hl. destruct (load_cons_inv _ _ _ _ _ _ Hl) as (m & n & syn1 & Hm & Hn & Hi & Hl1).
    destruct (IH _ _ _ Hl1) as [Hs1 Hf1].
    pose proof (iadd_same_shape _ _ _ _ _ Hi) as Hs.
    split; [unfold same_shape in *; congruence|].
    intros i j Hno. rewrite Hf1.
    + destruct (iadd_cell _ _ _ _ _ Hi) as (i0 & j0 & old & Hh & _ & _ & Hother).
      apply Hother. intros [= -> ->].
      apply (Hno itm); [now left|]. now apply hits_items with (m := m) (n := n).
    + intros itm' Hin. unfold same_shape in Hs. rewrite Hs. apply Hno. now right.
Qed.

(** A cell addressed by exactly one item receives that item's analysis
    value, added to what the cell held. *)
Lemma load_additive (back_sel : list (list (pyval F))) :
  forall (xa0 : list F) (syn syn' : list (list F)) (k : nat) itm (i j : nat),
    load syn back_sel xa0 = (syn', None) ->
    length xa0 = length back_sel ->
    nth_error back_sel k = Some itm ->
    hits (map (@length F) syn) itm i j ->
    (forall k' itm', k' <> k -> nth_error back_sel k' = Some itm' ->
                     ~ hits (map (@length F) syn) itm' i j) ->
    exists old v,
      nth2 syn i j = Some old /\ nth_error xa0 k = Some v /\
      nth2 syn' i j = Some (add old v).
Proof.
  induction back_sel as [|itm0 back_sel IH]; intros xa0 syn syn' k itm i j Hl Hlen Hk Hh Hu.
  - destruct k; discriminate.
  - destruct xa0 as [|v xa0]; [discriminate|].
    destruct (load_cons_inv _ _ _ _ _ _ Hl) as (m & n & syn1 & Hm & Hn & Hi & Hl1).
    pose proof (iadd_same_shape _ _ _ _ _ Hi) as Hs. unfold same_shape in Hs.
    destruct (iadd_cell _ _ _ _ _ Hi) as (i0 & j0 & old & Hh0 & Hold & Hnew & Hother).
    apply (hits_items _ _ _ _ _ _ Hm Hn) in Hh0.
    destruct k as [|k]; simpl in Hk.
    + injection Hk as ->.
      injection (hits_functional _ _ _ _ _ _ Hh Hh0) as -> ->.
      exists old, v. repeat split; auto.
      destruct (load_frame _ _ _ _ Hl1) as [_ Hf]. rewrite Hf; [exact Hnew|].
      intros itm' Hin Hh'. apply In_nth_error in Hin as [k' Hk'].
      rewrite Hs in Hh'. exact (Hu (S k') itm' ltac:(lia) Hk' Hh').
    + assert (Hne : (i, j) <> (i0, j0)).
      { intros [= -> ->]. exact (Hu 0 itm0 ltac:(lia) eq_refl Hh0). }
      destruct (IH xa0 syn1 syn' k itm i j Hl1) as (old' & v' & Ho & Hv & Hn');
        [simpl in Hlen; lia|exact Hk|now rewrite Hs| |].
      * intros k' itm' Hk' Hnth. rewrite Hs. apply (Hu (S k') itm'); [lia|exact Hnth].
      * exists old', v'. rewrite <- (Hother i j Hne). auto.
Qed.

End Assembler.

Section EstimatorInversion.

Context {F : Type} {ops : Scalar F}.

(** [analysis] returns only on the operator "mean" and on a non-empty
    neighbourhood whose items all have a third entry. *)
Lemma analysis_inv (err : nat -> F) (y : F) back_sel map_func (v : list F) :
  analysis err y back_sel map_func = inr v ->
  map_func = "mean"%string /\
  exists xb0, xb back_sel = inr xb0 /\ 1 <= length xb0 /\
              length v = length back_sel /\
              analysis err y back_sel "mean" = inr v.
Proof.
  intros Ha.
  assert (Hm : map_func = "mean"%string /\
               exists xb0, xb back_sel = inr xb0 /\ 1 <= length xb0).
  { revert Ha. unfold analysis, bind.
    destruct (xb back_sel) as [e|xb0] eqn:Hxb; [discriminate|].
    unfold supported_functions. cbn [existsb]. rewrite orb_false_r.
    destruct (String.eqb map_func "mean") eqn:Hm; cbn [negb]; [|discriminate].
    apply String.eqb_eq in Hm.
    destruct xb0 as [|x xb0]; [discriminate|]. intros _.
    split; [exact Hm|]. exists (x :: xb0). split; [reflexivity|simpl; lia]. }
  destruct Hm as [-> (xb0 & Hxb & Hn)].
  split; [reflexivity|]. exists xb0. repeat split; auto.
  pose proof (analysis_mean err y back_sel xb0 Hxb Hn) as E. rewrite Ha in E.
  assert (L := f_equal (fun r : exn + list F =>
                          match r with inr l => length l | inl _ => 0 end) E).
  cbv beta iota zeta in L. rewrite L. unfold xa.
  rewrite map2_length, K_length, Num_length. unfold Pb, eb.
  rewrite length_map, map2_length, length_map, length_seq, Nat.min_id, Nat.min_id.
  exact (mapM_length _ _ _ Hxb).
Qed.

Lemma optimal_interpolation_inv (err : nat -> F) syn (y : F) back_sel map_func syn' :
  optimal_interpolation err syn y back_sel map_func = (syn', None) ->
  exists xa0, analysis err y back_sel map_func = inr xa0 /\
              length xa0 = length back_sel /\
              load syn back_sel xa0 = (syn', None).
Proof.
  unfold optimal_interpolation.
  destruct (analysis err y back_sel map_func) as [e|xa0] eqn:Ha; [discriminate|].
  intros Hl. exists xa0. repeat split; auto.
  now destruct (analysis_inv _ _ _ _ _ Ha) as (_ & xb0 & _ & _ & Hlen & _).
Qed.

End EstimatorInversion.

(** ** Code that prints *)

Lemma rbind_inv {A B} (c : run A) (k : A -> run B) (b : B) :
  snd (rbind c k) = inr b ->
  exists a, snd c = inr a /\ snd (k a) = inr b.
Proof.
  destruct c as [out [e|a]]; simpl; [discriminate|]. eauto.
Qed.

Lemma integrity_check_returns (ls ss lc sc : nat) :
  snd (integrity_check ls ss lc sc) = inr tt.
Proof.
  unfold integrity_check.
  destruct (ls =? ss), (lc =? sc); reflexivity.
Qed.

Section ProcessorShape.

Context {F : Type} {ops : Scalar F}.

Lemma cell_same_shape (err : nat -> F) lat_ratio lon_ratio map_smooth
      interpolation mapping syne c syne' :
  cell err lat_ratio lon_ratio map_smooth interpolation mapping syne c = inr syne' ->
  same_shape syne' syne.
Proof.
  unfold cell, bind.
  destruct (indices lat_ratio lon_ratio c map_smooth) as [e|ind]; [discriminate|].
  destruct (selected map_smooth ind) as [e|sel]; [discriminate|].
  destruct (assert_selected sel lat_ratio lon_ratio) as [e|[]]; [discriminate|].
  destruct (String.eqb interpolation "Optimal Interpolation").
  - destruct (optimal_interpolation err syne (rec_value c) (map (map PFloat) sel) mapping)
      as [s [e|]] eqn:Ho; [discriminate|].
    intros [= <-].
    destruct (optimal_interpolation_inv _ _ _ _ _ _ Ho) as (xa0 & _ & _ & Hl).
    now destruct (load_frame _ _ _ _ Hl).
  - intros [= <-]. reflexivity.
Qed.

Lemma cells_same_shape (rnd : nat -> nat -> F) lat_ratio lon_ratio map_smooth
      interpolation mapping map_coarse :
  forall i syne syne',
    cells rnd lat_ratio lon_ratio map_smooth interpolation mapping i map_coarse syne
    = inr syne' ->
    same_shape syne' syne.
Proof.
  induction map_coarse as [|c rest IH]; intros i syne syne'; simpl.
  - intros [= <-]. reflexivity.
  - unfold bind.
    destruct (cell (rnd i) lat_ratio lon_ratio map_smooth interpolation mapping syne c)
      as [e|s1] eqn:Hc; [discriminate|].
    intros Hr. apply IH in Hr. apply cell_same_shape in Hc.
    unfold same_shape in *. congruence.
Qed.

(** What [processor] returns: the grid the loop left, with the fine
    coordinates. *)
Lemma processor_inv (rnd : nat -> nat -> F) coarse smooth c_lat c_lon s_lat s_lon
      varname interpolation mapping ds :
  snd (processor rnd coarse smooth c_lat c_lon s_lat s_lon varname interpolation mapping)
  = inr ds ->
  exists lat_ratio lon_ratio map_coarse map_smooth,
    ratio s_lat c_lat = inr lat_ratio /\ ratio s_lon c_lon = inr lon_ratio /\
    flatten c_lat c_lon coarse = inr map_coarse /\
    flatten s_lat s_lon smooth = inr map_smooth /\
    cells rnd lat_ratio lon_ratio map_smooth interpolation mapping 0 map_coarse
          (np_zeros (shape smooth)) = inr (ds_synergistic ds) /\
    ds_varname ds = varname /\ ds_latitude ds = s_lat /\ ds_longitude ds = s_lon.
Proof.
  unfold processor. intros Hp.
  apply rbind_inv in Hp as (lat_ratio & Hlat & Hp).
  apply rbind_inv in Hp as (lon_ratio & Hlon & Hp).
  apply rbind_inv in Hp as (? & _ & Hp).
  apply rbind_inv in Hp as (? & _ & Hp).
  apply rbind_inv in Hp as (map_coarse & Hmc & Hp).
  apply rbind_inv in Hp as (map_smooth & Hms & Hp).
  apply rbind_inv in Hp as (? & _ & Hp).
  apply rbind_inv in Hp as (syne' & Hcells & Hp).
  simpl in Hlat, Hlon, Hmc, Hms, Hcells, Hp. injection Hp as <-.
  exists lat_ratio, lon_ratio, map_coarse, map_smooth. simpl. auto 10.
Qed.

End ProcessorShape.

(** C10 on the code.  One coarse cell of value 1.0 and one fine cell of
    value 2.0, matched (latitude ratio 2, longitude ratio 1), under
    "Optimal Interpolation".  [processor] allocates the zero grid, but
    records no index while matching: line 139 keeps two arrays of values,
    and these are what the estimator is given as its items.  The estimator
    reads [itm[2]] of an array of one value and raises [IndexError]: no
    cell is written.  Given the matched record with its index, the item
    [0, 0, 2.0], the estimator adds the analysis 1.5 to the cell: the zero
    grid becomes [[1.5]], and a grid that held 10.0 holds 11.5. *)
Theorem C10_no_index_is_recorded :
  let rnd := fun _ _ : nat => 0.25%float in
  let c := {| rec_lat := 1.0%float; rec_lon := 1.0%float; rec_value := 1.0%float |} in
  let map_smooth :=
    [{| rec_lat := 2.0%float; rec_lon := 1.0%float; rec_value := 2.0%float |}] in
  let item := [PInt 0; PInt 0; PFloat 2.0%float] in
  np_zeros (F:=float) (shape [[2.0%float]]) = [[0.0%float]]
  /\ in_window 2 1 c {| rec_lat := 2.0%float; rec_lon := 1.0%float;
                        rec_value := 2.0%float |} = true
  /\ indices [[2%Z]] [[1%Z]] c map_smooth = inr [[0]; [0]]
  /\ selected map_smooth [[0]; [0]] = inr [[2.0%float]; [2.0%float]]
  /\ optimal_interpolation (rnd 0) [[0.0%float]] 1.0%float
       (map (map PFloat) [[2.0%float]; [2.0%float]]) "mean"
     = ([[0.0%float]], Some IndexError)
  /\ processor rnd [[1.0%float]] [[2.0%float]] [[1.0%float]] [[1.0%float]]
               [[2.0%float]] [[1.0%float]] "CYA" "Optimal Interpolation" "mean"
     = ([PRatio "coarse/smooth latitude ratio" [[2%Z]];
         PRatio "coarse/smooth latitude ratio" [[1%Z]]], inl IndexError)
  /\ snd (processor rnd [[1.0%float]] [[2.0%float]] [[1.0%float]] [[1.0%float]]
                    [[2.0%float]] [[1.0%float]] "CYA" "Nearest" "mean")
     = inr {| ds_varname := "CYA"; ds_synergistic := [[0.0%float]];
              ds_latitude := [[2.0%float]]; ds_longitude := [[1.0%float]] |}
  /\ Caller.optimal_interpolation (rnd 0) [[0.0%float]] (Caller.np_float64 1.0%float)
       [item] "mean" = ([[1.5%float]], None)
  /\ Caller.optimal_interpolation (rnd 0) [[10.0%float]] (Caller.np_float64 1.0%float)
       [item] "mean" = ([[11.5%float]], None).
Proof. cbv zeta. repeat split; vm_compute; reflexivity. Qed.

(** ** C9: flattening a grid *)

Lemma ndindex_rows_length (c s r : nat) :
  length (flat_map (fun a => map (pair a) (seq 0 c)) (seq s r)) = r * c.
Proof.
  revert s; induction r as [|r IH]; intros s; simpl; [reflexivity|].
  now rewrite length_app, length_map, length_seq, IH.
Qed.

Lemma ndindex_length (sh : nat * nat) : length (ndindex sh) = fst sh * snd sh.
Proof. apply ndindex_rows_length. Qed.

Lemma ndindex_rows_nth (c s r a b : nat) :
  a < r -> b < c ->
  nth_error (flat_map (fun a => map (pair a) (seq 0 c)) (seq s r)) (a * c + b)
  = Some (s + a, b).
Proof.
  revert s a; induction r as [|r IH]; intros s a Ha Hb; [lia|]. simpl.
  destruct a as [|a]; simpl.
  - rewrite nth_error_app1 by (rewrite length_map, length_seq; exact Hb).
    rewrite nth_error_map, nth_error_seq.
    destruct (Nat.ltb_spec b c); [|lia]. simpl. now rewrite Nat.add_0_r.
  - rewrite nth_error_app2 by (rewrite length_map, length_seq; lia).
    rewrite length_map, length_seq.
    replace (c + a * c + b - c) with (a * c + b) by lia.
    rewrite IH by lia. f_equal. f_equal. lia.
Qed.

Lemma ndindex_nth (r c a b : nat) :
  a < r -> b < c -> nth_error (ndindex (r, c)) (a * c + b) = Some (a, b).
Proof. intros Ha Hb. unfold ndindex. simpl. now rewrite ndindex_rows_nth. Qed.

Lemma In_ndindex (r c a b : nat) :
  In (a, b) (ndindex (r, c)) -> a < r /\ b < c.
Proof.
  unfold ndindex; simpl. rewrite in_flat_map. intros (a' & Ha' & Hin).
  apply in_map_iff in Hin as (b' & [= <- <-] & Hb').
  apply in_seq in Ha'. apply in_seq in Hb'. lia.
Qed.

Lemma nth2_rect {A} (c : nat) (M : list (list A)) (a b : nat) :
  rect c M -> a < length M -> b < c -> exists v, nth2 M a b = Some v.
Proof.
  intros Hr Ha Hb. unfold nth2.
  destruct (nth_error M a) as [row|] eqn:Erow.
  - assert (Hlen : length row = c).
    { unfold rect in Hr. rewrite Forall_forall in Hr. apply Hr.
      eapply nth_error_In; eauto. }
    destruct (nth_error row b) as [v|] eqn:Ev; [eauto|].
    apply nth_error_None in Ev. lia.
  - apply nth_error_None in Erow. lia.
Qed.

Lemma same_shape_rect {A B} (c : nat) (M : list (list A)) (N : list (list B)) :
  same_shape M N -> rect c N -> rect c M /\ length M = length N.
Proof.
  unfold same_shape, rect. intros Hs Hr. split.
  - rewrite Forall_forall in *. intros row Hin.
    apply (in_map (@length A)) in Hin. rewrite Hs in Hin.
    apply in_map_iff in Hin as (row' & <- & Hin'). now apply Hr.
  - apply (f_equal (@length nat)) in Hs. now rewrite !length_map in Hs.
Qed.



(** ** C3: the window of a coarse record *)

Lemma stretch_id {A} (l : list A) : stretch (length l) l = l.
Proof. destruct l as [|x [|y l]]; reflexivity. Qed.

Lemma map2_repeat_r {A B C} (f : A -> B -> C) (l : list A) (u : B) :
  map2 f l (repeat u (length l)) = map (fun x => f x u) l.
Proof.
  unfold map2. induction l as [|x l IH]; simpl; [reflexivity|]. now rewrite IH.
Qed.

Lemma map2_map_same {A B C D} (g : B -> C -> D) (f1 : A -> B) (f2 : A -> C) (l : list A) :
  map2 g (map f1 l) (map f2 l) = map (fun x => g (f1 x) (f2 x)) l.
Proof.
  unfold map2. induction l as [|x l IH]; simpl; [reflexivity|]. now rewrite IH.
Qed.

Lemma bdim_1_r (n : nat) : bdim n 1 = Some n.
Proof.
  unfold bdim. destruct (Nat.eqb_spec n 1) as [->|_]; reflexivity.
Qed.

(** A row of [n >= 1] entries against a single cell: the cell is stretched. *)
Lemma broadcast2_row_cell {A B C} (f : A -> B -> C) (row : list A) (u : B) :
  broadcast2 f [row] [[u]] = inr [map (fun x => f x u) row].
Proof.
  unfold broadcast2. cbn [nrows ncols length]. rewrite !bdim_1_r.
  cbn [stretch repeat map2 combine map fst snd].
  now rewrite stretch_id, map2_repeat_r.
Qed.

(** Two rows of the same length: elementwise. *)
Lemma broadcast2_rows {A B C} (f : A -> B -> C) (r1 : list A) (r2 : list B) :
  length r1 = length r2 -> broadcast2 f [r1] [r2] = inr [map2 f r1 r2].
Proof.
  intros Hl. unfold broadcast2. cbn [nrows ncols length]. rewrite Hl.
  unfold bdim at 2. rewrite Nat.eqb_refl. cbn [bdim Nat.eqb].
  cbn [stretch repeat map2 combine map fst snd].
  rewrite stretch_id. rewrite <- Hl. now rewrite stretch_id.
Qed.

Lemma In_nonzero1_from (row : list bool) :
  forall s j,
    In j (map fst (filter snd (combine (seq s (length row)) row))) <->
    s <= j /\ nth_error row (j - s) = Some true.
Proof.
  induction row as [|b row IH]; intros s j; simpl.
  - split; [tauto|]. intros [_ Hn]. destruct (j - s); discriminate.
  - destruct b; simpl; rewrite IH.
    + split.
      * intros [<-|[Hs Hn]].
        -- split; [lia|]. now rewrite Nat.sub_diag.
        -- split; [lia|]. replace (j - s) with (S (j - S s)) by lia. exact Hn.
      * intros [Hs Hn]. destruct (Nat.eq_dec s j) as [->|Hne]; [now left|right].
        split; [lia|]. replace (j - s) with (S (j - S s)) in Hn by lia. exact Hn.
    + split.
      * intros [Hs Hn]. split; [lia|].
        replace (j - s) with (S (j - S s)) by lia. exact Hn.
      * intros [Hs Hn]. destruct (Nat.eq_dec s j) as [->|Hne].
        -- rewrite Nat.sub_diag in Hn. discriminate.
        -- split; [lia|]. replace (j - s) with (S (j - S s)) in Hn by lia. exact Hn.
Qed.

Lemma In_nonzero1 (row : list bool) (j : nat) :
  In j (nonzero1 row) <-> nth_error row j = Some true.
Proof.
  unfold nonzero1. rewrite In_nonzero1_from, Nat.sub_0_r.
  split; [tauto|]. intros Hn; split; [lia|exact Hn].
Qed.

Lemma NoDup_nonzero1_from (row : list bool) :
  forall s, NoDup (map fst (filter snd (combine (seq s (length row)) row))).
Proof.
  induction row as [|b row IH]; intros s; simpl; [constructor|].
  destruct b; simpl; [|apply IH].
  constructor; [|apply IH].
  rewrite In_nonzero1_from. lia.
Qed.

Lemma NoDup_nonzero1 (row : list bool) : NoDup (nonzero1 row).
Proof. apply NoDup_nonzero1_from. Qed.

Lemma np_where_row (row : list bool) :
  np_where [row] = [map (fun _ => 0) (nonzero1 row); nonzero1 row].
Proof.
  unfold np_where, nonzero2. cbn [length seq combine flat_map fst snd].
  rewrite app_nil_r, !map_map. cbn [fst snd]. now rewrite map_id.
Qed.

Section Matcher.

Context {F : Type} {ops : Scalar F}.

(** With one pair of ratios the condition of [np.where] is one row: the
    bounding-box test of each fine record, in order. *)
Lemma column_cons (f : grid_record F -> F) (r : grid_record F) ms :
  column f (r :: ms) = inr (map f (r :: ms)).
Proof. reflexivity. Qed.

Lemma window_single (a b : Z) (c r : grid_record F) (ms : list (grid_record F)) :
  window [[a]] [[b]] c (r :: ms) = inr [map (in_window a b c) (r :: ms)].
Proof.
  unfold window. rewrite !column_cons. set (l := r :: ms).
  unfold half_width. cbn [map bind].
  rewrite !broadcast2_row_cell. cbn [bind]. rewrite !map_map.
  rewrite broadcast2_rows by now rewrite !length_map.
  cbn [bind]. rewrite map2_map_same.
  rewrite broadcast2_rows by now rewrite !length_map.
  cbn [bind]. rewrite map2_map_same.
  rewrite broadcast2_rows by now rewrite !length_map.
  rewrite map2_map_same. reflexivity.
Qed.

(** [np.where] on a 2-D condition returns two index arrays, and [selected]
    has one entry for each: the length the assertion tests is 2. *)
Lemma selected_length (lat_ratio lon_ratio : list (list Z)) (c : grid_record F)
      (map_smooth : list (grid_record F)) ind sel :
  indices lat_ratio lon_ratio c map_smooth = inr ind ->
  selected map_smooth ind = inr sel ->
  length sel = 2.
Proof.
  unfold indices, bind.
  destruct (window lat_ratio lon_ratio c map_smooth) as [e|cond]; [discriminate|].
  intros [= <-] Hsel. unfold selected in Hsel.
  now rewrite (mapM_length _ _ _ Hsel).
Qed.

(** The assertion passes exactly when the product of the two ratio arrays is
    the one-cell array [[2]], whatever was matched. *)
Lemma assert_selected_passes (sel : list (list F)) (lat_ratio lon_ratio : list (list Z)) :
  length sel = 2 ->
  (assert_selected sel lat_ratio lon_ratio = inr tt <->
   broadcast2 int32_mul lat_ratio lon_ratio = inr [[2%Z]]).
Proof.
  intros Hlen. unfold assert_selected, bind. rewrite Hlen.
  destruct (broadcast2 int32_mul lat_ratio lon_ratio) as [e|right_len];
    [split; discriminate|].
  destruct right_len as [|[|p [|q row]] [|row' rows]]; cbn -[Z.eqb Z.of_nat];
    rewrite ?Nat.mul_0_r; cbn -[Z.eqb Z.of_nat];
    try (split; [discriminate|intros [= ]]; fail).
  unfold ret. destruct (Z.eqb_spec (Z.of_nat 2) p) as [<-|Hne].
  - split; reflexivity.
  - split; [discriminate|]. intros [= E]. now subst p.
Qed.

End Matcher.

(** C3 on the code.  A 2 x 2 fine grid around one coarse cell at latitude
    10.0 and longitude 20.0: every ratio is 1, and the four fine records
    all lie in the closed box of half-width 0.5 around the coarse record, so
    the neighbourhood of the claim is the four records.  The code computes
    no neighbourhood: the ratios are 2 x 2 arrays, one entry per fine cell,
    the column of the four fine latitudes cannot be broadcast against them
    in the comparison of line 133, and the run stops with [ValueError]
    whatever the interpolation name. *)
Theorem C3_window_on_a_grid :
  let smooth := [[1.0%float; 2.0%float]; [3.0%float; 4.0%float]] in
  let s_lat := [[9.5%float; 9.5%float]; [10.5%float; 10.5%float]] in
  let s_lon := [[19.5%float; 20.5%float]; [19.5%float; 20.5%float]] in
  let c := {| rec_lat := 10.0%float; rec_lon := 20.0%float; rec_value := 2.5%float |} in
  let map_smooth :=
    [{| rec_lat := 9.5%float; rec_lon := 19.5%float; rec_value := 1.0%float |};
     {| rec_lat := 9.5%float; rec_lon := 20.5%float; rec_value := 2.0%float |};
     {| rec_lat := 10.5%float; rec_lon := 19.5%float; rec_value := 3.0%float |};
     {| rec_lat := 10.5%float; rec_lon := 20.5%float; rec_value := 4.0%float |}] in
  let ones := [[1%Z; 1%Z]; [1%Z; 1%Z]] in
  ratio s_lat [[10.0%float]] = inr ones
  /\ ratio s_lon [[20.0%float]] = inr ones
  /\ flatten [[10.0%float]] [[20.0%float]] [[2.5%float]] = inr [c]
  /\ flatten s_lat s_lon smooth = inr map_smooth
  /\ map (in_window 1 1 c) map_smooth = [true; true; true; true]
  /\ window ones ones c map_smooth = inl ValueError
  /\ indices ones ones c map_smooth = inl ValueError
  /\ (forall interpolation : string,
        processor (fun _ _ => 0.25%float) [[2.5%float]] smooth
                  [[10.0%float]] [[20.0%float]] s_lat s_lon "CYA" interpolation "mean"
        = ([PRatio "coarse/smooth latitude ratio" ones;
            PRatio "coarse/smooth latitude ratio" ones], inl ValueError)).
Proof.
  cbv zeta. repeat split; intros; vm_compute; reflexivity.
Qed.

(** ** C4: the resolution ratio *)

Lemma map2_stretch_rows {A B C} (f : A -> B -> C) (c : nat)
      (X : list (list A)) (Y : list (list B)) :
  rect c X -> rect c Y ->
  map2 (fun x y => map2 f (stretch c x) (stretch c y)) X Y = map2 (map2 f) X Y.
Proof.
  unfold map2 at 1 3. intros HX; revert Y.
  induction HX as [|x X Hx _ IH]; intros Y HY; [reflexivity|].
  destruct HY as [|y Y Hy HY]; [reflexivity|]. cbn [combine map fst snd].
  rewrite IH by exact HY. subst c. rewrite stretch_id.
  rewrite <- Hy at 1. now rewrite stretch_id.
Qed.

(** Two arrays of the same shape: elementwise. *)
Lemma broadcast2_same_shape {A B C} (f : A -> B -> C)
      (X : list (list A)) (Y : list (list B)) :
  rect (ncols X) X -> same_shape Y X ->
  broadcast2 f X Y = inr (map2 (map2 f) X Y).
Proof.
  intros HX Hs. destruct (same_shape_rect _ _ _ Hs HX) as [HY Hlen].
  assert (Hc : ncols Y = ncols X).
  { destruct X as [|x X], Y as [|y Y]; try discriminate; [reflexivity|].
    unfold same_shape in Hs. simpl in Hs. injection Hs as Hs _. exact Hs. }
  unfold broadcast2, nrows. rewrite Hc, Hlen.
  unfold bdim. rewrite !Nat.eqb_refl. unfold ret. f_equal.
  rewrite stretch_id. rewrite <- Hlen at 1. rewrite stretch_id.
  now apply map2_stretch_rows.
Qed.

Lemma map_stretch_cell {A B C} (f : A -> B -> C) (c : nat) (X : list (list A)) (u : B) :
  rect c X ->
  map (fun x => map2 f (stretch c x) (stretch c [u])) X
  = map (map (fun x => f x u)) X.
Proof.
  intros Hc. induction Hc as [|x X Hx _ IH]; [reflexivity|]. cbn [map].
  rewrite IH. f_equal. subst c. cbn [stretch]. now rewrite stretch_id, map2_repeat_r.
Qed.

(** An array against a single cell: the cell is stretched over the array. *)
Lemma broadcast2_cell {A B C} (f : A -> B -> C) (X : list (list A)) (u : B) :
  rect (ncols X) X ->
  broadcast2 f X [[u]] = inr (map (map (fun x => f x u)) X).
Proof.
  intros HX. unfold broadcast2, nrows. cbn [ncols length]. rewrite !bdim_1_r.
  unfold ret. f_equal. rewrite stretch_id. cbn [stretch].
  rewrite map2_repeat_r. now apply map_stretch_cell.
Qed.

(** C4 on the code.  A fine grid of one row and two columns, at the
    latitudes 10.0 and 30.0, above one coarse cell at latitude 10.0: the
    code computes two latitude ratios, 1 and 3, one per fine cell, where
    the claim has one for the whole grid, and it prints the array and then
    tests it as a number: the assertion of line 141 compares the array of
    the products with an integer and takes the truth value of the result,
    which raises [ValueError].  A ratio need not be positive either: 1.0
    against 10.0 gives 0, -10.0 against 10.0 gives -1; and one fine cell
    against a 2 x 2 coarse array gives four ratios. *)
Theorem C4_ratio_is_an_array :
  let s_lat := [[10.0%float; 30.0%float]] in
  let s_lon := [[20.0%float; 20.0%float]] in
  let smooth := [[1.0%float; 2.0%float]] in
  ratio s_lat [[10.0%float]] = inr [[1%Z; 3%Z]]
  /\ ratio s_lon [[20.0%float]] = inr [[1%Z; 1%Z]]
  /\ processor (fun _ _ => 0.25%float) [[2.5%float]] smooth
               [[10.0%float]] [[20.0%float]] s_lat s_lon "CYA" "Nearest" "mean"
     = ([PRatio "coarse/smooth latitude ratio" [[1%Z; 3%Z]];
         PRatio "coarse/smooth latitude ratio" [[1%Z; 1%Z]]], inl ValueError)
  /\ assert_selected [[1.0%float]; [1.0%float]] [[1%Z; 3%Z]] [[1%Z; 1%Z]] = inl ValueError
  /\ ratio [[1.0%float]] [[10.0%float]] = inr [[0%Z]]
  /\ ratio [[(-10.0)%float]] [[10.0%float]] = inr [[(-1)%Z]]
  /\ ratio [[10.0%float]] [[10.0%float; 20.0%float]; [30.0%float; 40.0%float]]
     = inr [[1%Z; 0%Z]; [0%Z; 0%Z]].
Proof. cbv zeta. repeat split; vm_compute; reflexivity. Qed.

(** ** C8: names that are not recognised *)

Section Names.

Context {F : Type} {ops : Scalar F}.

Lemma optimal_interpolation_unsupported (err : nat -> F) syn (y : F) back_sel
      map_func xb0 :
  xb back_sel = inr xb0 -> map_func <> "mean"%string ->
  optimal_interpolation err syn y back_sel map_func
  = (syn, Some (NotImplementedError (unsupported_message map_func))).
Proof.
  intros Hxb Hm. unfold optimal_interpolation, analysis. rewrite Hxb. cbn [bind].
  unfold supported_functions. cbn [existsb]. rewrite orb_false_r.
  apply String.eqb_neq in Hm. now rewrite Hm.
Qed.

(** Under another interpolation name the body of the loop matches and
    checks the neighbourhood, and leaves the grid as it is. *)
Lemma cell_skip (err : nat -> F) lat_ratio lon_ratio map_smooth interpolation
      mapping syne c :
  interpolation <> "Optimal Interpolation"%string ->
  cell err lat_ratio lon_ratio map_smooth interpolation mapping syne c
  = (ind <- indices lat_ratio lon_ratio c map_smooth ;;
     sel <- selected map_smooth ind ;;
     _ <- assert_selected sel lat_ratio lon_ratio ;;
     ret syne)%py.
Proof.
  intros Hi. apply String.eqb_neq in Hi. unfold cell. now rewrite Hi.
Qed.

Lemma cell_skip_returns (err : nat -> F) lat_ratio lon_ratio map_smooth
      interpolation mapping syne c syne' :
  interpolation <> "Optimal Interpolation"%string ->
  cell err lat_ratio lon_ratio map_smooth interpolation mapping syne c = inr syne' ->
  syne' = syne.
Proof.
  intros Hi. rewrite cell_skip by exact Hi. unfold bind.
  destruct (indices lat_ratio lon_ratio c map_smooth) as [e|ind]; [discriminate|].
  destruct (selected map_smooth ind) as [e|sel]; [discriminate|].
  destruct (assert_selected sel lat_ratio lon_ratio) as [e|[]]; [discriminate|].
  now intros [= <-].
Qed.

Lemma cells_skip (rnd : nat -> nat -> F) lat_ratio lon_ratio map_smooth
      interpolation mapping map_coarse :
  interpolation <> "Optimal Interpolation"%string ->
  forall i syne,
    (forall syne', cells rnd lat_ratio lon_ratio map_smooth interpolation mapping
                         i map_coarse syne = inr syne' -> syne' = syne)
    /\ (forall rnd' mapping',
           cells rnd' lat_ratio lon_ratio map_smooth interpolation mapping'
                 i map_coarse syne
           = cells rnd lat_ratio lon_ratio map_smooth interpolation mapping
                   i map_coarse syne).
Proof.
  intros Hi. induction map_coarse as [|c rest IH]; intros i syne; cbn [cells].
  - split; [now intros syne' [= <-]|reflexivity].
  - split.
    + intros syne'. unfold bind.
      destruct (cell (rnd i) lat_ratio lon_ratio map_smooth interpolation mapping syne c)
        as [e|s1] eqn:Hc; [discriminate|].
      apply cell_skip_returns in Hc; [subst s1|exact Hi].
      apply (proj1 (IH (S i) syne)).
    + intros rnd' mapping'. rewrite !cell_skip by exact Hi.
      unfold bind.
      destruct (indices lat_ratio lon_ratio c map_smooth) as [e|ind]; [reflexivity|].
      destruct (selected map_smooth ind) as [e|sel]; [reflexivity|].
      destruct (assert_selected sel lat_ratio lon_ratio) as [e|[]]; [reflexivity|].
      apply (proj2 (IH (S i) syne)).
Qed.

(** As [processor] calls it, the estimator receives arrays of values, so
    [syn_prod[m]] is indexed with a float: under the name "Optimal
    Interpolation" the body of the loop raises on every coarse record, and
    [processor] returns only for a coarse grid without cells. *)
Lemma cell_estimator_raises (err : nat -> F) lat_ratio lon_ratio map_smooth
      mapping syne c syne' :
  cell err lat_ratio lon_ratio map_smooth "Optimal Interpolation" mapping syne c
  <> inr syne'.
Proof.
  unfold cell, bind.
  destruct (indices lat_ratio lon_ratio c map_smooth) as [e|ind]; [discriminate|].
  destruct (selected map_smooth ind) as [e|sel]; [discriminate|].
  destruct (assert_selected sel lat_ratio lon_ratio) as [e|[]]; [discriminate|].
  change (String.eqb "Optimal Interpolation" "Optimal Interpolation") with true.
  cbn iota.
  destruct (optimal_interpolation err syne (rec_value c) (map (map PFloat) sel) mapping)
    as [s [e|]] eqn:Ho; [discriminate|].
  intros _.
  destruct (optimal_interpolation_inv _ _ _ _ _ _ Ho) as (xa0 & Ha & Hlen & Hl).
  destruct (analysis_inv _ _ _ _ _ Ha) as (_ & xb0 & Hxb & Hn & _ & _).
  pose proof (mapM_length _ _ _ Hxb) as Hlb.
  destruct sel as [|itm sel]; [simpl in Hlb; lia|].
  destruct xa0 as [|v xa0]; [discriminate|]. cbn [map] in Hl.
  destruct (load_cons_inv _ _ _ _ _ _ Hl) as (m & n & syn1 & Hm & _ & Hi & _).
  destruct itm as [|x itm]; [discriminate|]. cbn [map nth_error] in Hm.
  injection Hm as <-.
  destruct (iadd_inv _ _ _ _ _ Hi) as (i & _ & _ & _ & Hidx & _). discriminate.
Qed.


End Names.

(** C8, as the code has it.  Given a neighbourhood whose items all have a
    value, [optimal_interpolation] under an operator name other than "mean"
    leaves the grid untouched and raises: [NotImplementedError], with a
    message that names the allowed set ['mean'], unless the measurement is
    a Python float so large that line 27, which comes first, raises
    [OverflowError]; the name is checked inside the call, once a
    neighbourhood is at hand.  With an [np.float64], which is what
    [processor] passes, it is always [NotImplementedError].  An
    interpolation name other than "Optimal Interpolation" raises nothing:
    whenever [processor] returns under such a name the grid it returns is
    the zero grid, and the operator name and the draws are not looked at. *)
Theorem C8_unsupported_names :
  forall (err : nat -> float) (syn : list (list float)) (y_meas : Caller.measurement)
         (back_sel : list (list (pyval float))) (map_func : string) (xb0 : list float)
         (rnd : nat -> nat -> float)
         (coarse smooth c_lat c_lon s_lat s_lon : list (list float))
         (varname interpolation mapping : string),
    xb back_sel = inr xb0 ->
    map_func <> "mean"%string ->
    interpolation <> "Optimal Interpolation"%string ->
    Caller.optimal_interpolation err syn y_meas back_sel map_func
    = (syn, Some (if Caller.overflows y_meas then OverflowError
                  else NotImplementedError
                         ("H(xb) must be chosen between ['mean'], you provided "
                          ++ map_func)))
    /\ (forall y : float,
          Caller.optimal_interpolation err syn (Caller.np_float64 y) back_sel map_func
          = (syn, Some (NotImplementedError
                          ("H(xb) must be chosen between ['mean'], you provided "
                           ++ map_func))))
    /\ (forall ds,
          snd (processor rnd coarse smooth c_lat c_lon s_lat s_lon varname
                         interpolation mapping) = inr ds ->
          ds_synergistic ds = np_zeros (shape smooth))
    /\ (forall rnd' mapping',
          processor rnd' coarse smooth c_lat c_lon s_lat s_lon varname
                    interpolation mapping'
          = processor rnd coarse smooth c_lat c_lon s_lat s_lon varname
                      interpolation mapping).
Proof.
  intros err syn y_meas back_sel map_func xb0 rnd coarse smooth c_lat c_lon s_lat s_lon
         varname interpolation mapping Hxb Hm Hi.
  assert (Hu : forall y : float,
             analysis err y back_sel map_func
             = inl (NotImplementedError
                      ("H(xb) must be chosen between ['mean'], you provided " ++ map_func))).
  { intros y. unfold analysis. rewrite Hxb. cbn [bind].
    unfold supported_functions. cbn [existsb]. rewrite orb_false_r.
    pose proof (proj2 (String.eqb_neq _ _) Hm) as Hm'. rewrite Hm'. reflexivity. }
  split; [|split; [|split]].
  - unfold Caller.optimal_interpolation. rewrite caller_analysis_cases, Hxb.
    destruct (Caller.overflows y_meas); [reflexivity|]. now rewrite Hu.
  - intros y. unfold Caller.optimal_interpolation.
    rewrite caller_analysis_cases, Hxb. cbn [Caller.overflows Caller.value].
    now rewrite Hu.
  - intros ds Hp.
    apply processor_inv in Hp as (lr & lo & mc & ms & _ & _ & _ & _ & Hc & _).
    exact (proj1 (cells_skip rnd lr lo ms interpolation mapping mc Hi 0 _) _ Hc).
  - intros rnd' mapping'. unfold processor.
    destruct (ratio s_lat c_lat) as [e|lr]; [reflexivity|].
    destruct (ratio s_lon c_lon) as [e|lo]; [reflexivity|].
    destruct (flatten c_lat c_lon coarse) as [e|mc]; [reflexivity|].
    destruct (flatten s_lat s_lon smooth) as [e|ms]; [reflexivity|].
    cbn [rbind lift print fst snd].
    now rewrite (proj2 (cells_skip rnd lr lo ms interpolation mapping mc Hi 0 _) rnd' mapping').
Qed.

(** C8 under the names "median" and "Nearest": a Python float 2.0 and one
    of 2^600, whose square overflows. *)
Lemma C8_witness :
  let err := fun _ : nat => 0.25%float in
  let syn := [[0.0%float]] in
  let back_sel := [[PInt 0; PInt 0; PFloat 1.0%float]] in
  let rnd := fun _ _ : nat => 0.25%float in
  let coarse := [[5.0%float]] in
  let smooth := [[3.0%float]] in
  let c_lat := [[1.0%float]] in
  let c_lon := [[1.0%float]] in
  let s_lat := [[2.0%float]] in
  let s_lon := [[1.0%float]] in
  (xb back_sel = inr [1.0%float]
   /\ "median"%string <> "mean"%string
   /\ "Nearest"%string <> "Optimal Interpolation"%string)
  /\ Caller.optimal_interpolation err syn (Caller.python_float 0x1p600%float)
                                  back_sel "median"
     = (syn, Some OverflowError)
  /\ (Caller.optimal_interpolation err syn (Caller.python_float 2.0%float) back_sel "median"
      = (syn, Some (if Caller.overflows (Caller.python_float 2.0%float)
                    then OverflowError
                    else NotImplementedError
                           ("H(xb) must be chosen between ['mean'], you provided "
                            ++ "median")))
      /\ (forall y : float,
            Caller.optimal_interpolation err syn (Caller.np_float64 y) back_sel "median"
            = (syn, Some (NotImplementedError
                            ("H(xb) must be chosen between ['mean'], you provided "
                             ++ "median"))))
      /\ (forall ds,
            snd (processor rnd coarse smooth c_lat c_lon s_lat s_lon "CYA"
                           "Nearest" "mean") = inr ds ->
            ds_synergistic ds = np_zeros (shape smooth))
      /\ (forall rnd' mapping',
            processor rnd' coarse smooth c_lat c_lon s_lat s_lon "CYA"
                      "Nearest" mapping'
            = processor rnd coarse smooth c_lat c_lon s_lat s_lon "CYA"
                        "Nearest" "mean")).
Proof.
  cbv zeta. split; [|split].
  - split; [reflexivity|split; discriminate].
  - vm_compute; reflexivity.
  - apply (@C8_unsupported_names (fun _ : nat => 0.25%float) [[0.0%float]]
             (Caller.python_float 2.0%float)
             [[PInt 0; PInt 0; PFloat 1.0%float]] "median" [1.0%float]
             (fun _ _ : nat => 0.25%float)
             [[5.0%float]] [[3.0%float]] [[1.0%float]] [[1.0%float]]
             [[2.0%float]] [[1.0%float]] "CYA" "Nearest" "mean").
    + reflexivity.
    + discriminate.
    + discriminate.
Defined.

(** C8, as stated, fails for the interpolation name: on a pair of one-cell
    grids (ratios 2 and 1) the run under the name "Nearest" raises nothing
    and returns a data set, the zero grid; so does a run on an empty coarse
    grid. *)
Lemma C8_counterexample :
  snd (processor (fun _ _ => 0.25%float) [[5.0%float]] [[3.0%float]]
                 [[1.0%float]] [[1.0%float]] [[2.0%float]] [[1.0%float]]
                 "CYA" "Nearest" "mean")
  = inr {| ds_varname := "CYA"; ds_synergistic := [[0.0%float]];
           ds_latitude := [[2.0%float]]; ds_longitude := [[1.0%float]] |}
  /\ snd (processor (fun _ _ => 0.25%float) [] [[3.0%float]]
                    [] [] [[2.0%float]] [[1.0%float]]
                    "CYA" "Nearest" "median")
     = inr {| ds_varname := "CYA"; ds_synergistic := [[0.0%float]];
              ds_latitude := [[2.0%float]]; ds_longitude := [[1.0%float]] |}.
Proof. split; vm_compute; reflexivity. Qed.

(** ** C2: the assertion on the neighbourhood *)

(** C2 on the code.  [np.where] on the 2-D condition returns two index
    arrays, and [selected] has one entry per index array: its length is 2
    however many fine records match.  On the one-cell grids with latitudes
    1.0 (coarse) and 2.0 (fine) one fine record is matched, the product of
    the ratios is 2, and the assertion passes: under the name "Nearest" the
    run returns, and under "Optimal Interpolation" it goes on to the
    estimator, which fails on [itm[2]].  With the fine latitude 1.0 one
    record is matched, the product is 1, and the assertion fails. *)
Theorem C2_assertion_counts_index_arrays :
  let c := {| rec_lat := 1.0%float; rec_lon := 1.0%float; rec_value := 5.0%float |} in
  let ms := [{| rec_lat := 2.0%float; rec_lon := 1.0%float; rec_value := 3.0%float |}] in
  ratio [[2.0%float]] [[1.0%float]] = inr [[2%Z]]
  /\ ratio [[1.0%float]] [[1.0%float]] = inr [[1%Z]]
  /\ window [[2%Z]] [[1%Z]] c ms = inr [[true]]
  /\ indices [[2%Z]] [[1%Z]] c ms = inr [[0]; [0]]
  /\ selected ms [[0]; [0]] = inr [[3.0%float]; [3.0%float]]
  /\ assert_selected [[3.0%float]; [3.0%float]] [[2%Z]] [[1%Z]] = inr tt
  /\ snd (processor (fun _ _ => 0.25%float) [[5.0%float]] [[3.0%float]]
                    [[1.0%float]] [[1.0%float]] [[2.0%float]] [[1.0%float]]
                    "CYA" "Nearest" "mean")
     = inr {| ds_varname := "CYA"; ds_synergistic := [[0.0%float]];
              ds_latitude := [[2.0%float]]; ds_longitude := [[1.0%float]] |}
  /\ snd (processor (fun _ _ => 0.25%float) [[5.0%float]] [[3.0%float]]
                    [[1.0%float]] [[1.0%float]] [[2.0%float]] [[1.0%float]]
                    "CYA" "Optimal Interpolation" "mean")
     = inl IndexError
  /\ snd (processor (fun _ _ => 0.25%float) [[5.0%float]] [[3.0%float]]
                    [[1.0%float]] [[1.0%float]] [[1.0%float]] [[1.0%float]]
                    "CYA" "Optimal Interpolation" "mean")
     = inl (AssertionError 2 [[1%Z]]).
Proof. repeat split; vm_compute; reflexivity. Qed.

(** ** Binary64: the classes of a number and the operations on a zero *)

Module Binary64.

Local Open Scope float_scope.

Lemma is_nan_spec x : is_nan x = true <-> Prim2SF x = S754_nan.
Proof.
  unfold is_nan. rewrite eqb_spec. unfold SFeqb.
  destruct (Prim2SF x) as [s|s| |s m e]; simpl.
  - split; discriminate.
  - destruct s; split; discriminate.
  - tauto.
  - rewrite Z.compare_refl, Pos.compare_cont_refl. destruct s; split; discriminate.
Qed.

Lemma is_zero_spec x : is_zero x = true <-> exists s, Prim2SF x = S754_zero s.
Proof.
  unfold is_zero. rewrite eqb_spec. change (Prim2SF zero) with (S754_zero false).
  unfold SFeqb. destruct (Prim2SF x) as [s|s| |s m e]; simpl.
  - split; eauto.
  - destruct s; split; try discriminate; intros [? ?]; discriminate.
  - split; try discriminate; intros [? ?]; discriminate.
  - destruct s; split; try discriminate; intros [? ?]; discriminate.
Qed.

Lemma is_infinity_spec x :
  is_infinity x = true <-> exists s, Prim2SF x = S754_infinity s.
Proof.
  unfold is_infinity. rewrite eqb_spec, abs_spec.
  change (Prim2SF infinity) with (S754_infinity false).
  unfold SFeqb. destruct (Prim2SF x) as [s|s| |s m e]; simpl.
  - split; try discriminate; intros [? ?]; discriminate.
  - split; eauto.
  - split; try discriminate; intros [? ?]; discriminate.
  - split; try discriminate; intros [? ?]; discriminate.
Qed.

(** The four classes of a binary64 number, read off its booleans. *)
Lemma classes x :
  (is_nan x = true /\ Prim2SF x = S754_nan)
  \/ (is_nan x = false /\ is_infinity x = true /\ is_zero x = false
      /\ exists s, Prim2SF x = S754_infinity s)
  \/ (is_nan x = false /\ is_infinity x = false /\ is_zero x = true
      /\ exists s, Prim2SF x = S754_zero s)
  \/ (is_nan x = false /\ is_infinity x = false /\ is_zero x = false
      /\ exists s m e, Prim2SF x = S754_finite s m e).
Proof.
  pose proof (is_nan_spec x) as Hn. pose proof (is_zero_spec x) as Hz.
  pose proof (is_infinity_spec x) as Hi.
  assert (Bn : is_nan x = false \/ is_nan x = true) by (destruct (is_nan x); auto).
  assert (Bz : is_zero x = false \/ is_zero x = true) by (destruct (is_zero x); auto).
  assert (Bi : is_infinity x = false \/ is_infinity x = true)
    by (destruct (is_infinity x); auto).
  destruct (Prim2SF x) as [s|s| |s m e] eqn:E.
  - right; right; left.
    destruct Bn as [Bn|Bn]; [|apply Hn in Bn; discriminate].
    destruct Bi as [Bi|Bi]; [|apply Hi in Bi as [? ?]; discriminate].
    destruct Bz as [Bz|Bz]; [|eauto].
    destruct Hz as [_ Hz]. rewrite Hz in Bz by eauto. discriminate.
  - right; left.
    destruct Bn as [Bn|Bn]; [|apply Hn in Bn; discriminate].
    destruct Bz as [Bz|Bz]; [|apply Hz in Bz as [? ?]; discriminate].
    destruct Bi as [Bi|Bi]; [|eauto].
    destruct Hi as [_ Hi]. rewrite Hi in Bi by eauto. discriminate.
  - left. split; [|reflexivity]. now apply Hn.
  - right; right; right.
    destruct Bn as [Bn|Bn]; [|apply Hn in Bn; discriminate].
    destruct Bi as [Bi|Bi]; [|apply Hi in Bi as [? ?]; discriminate].
    destruct Bz as [Bz|Bz]; [|apply Hz in Bz as [? ?]; discriminate].
    repeat split; auto. now exists s, m, e.
Qed.

Lemma is_finite_spec x :
  is_finite x = true <->
  (exists s, Prim2SF x = S754_zero s) \/ (exists s m e, Prim2SF x = S754_finite s m e).
Proof.
  unfold is_finite.
  destruct (classes x) as [[Hn E]|[(Hn & Hi & Hz & s & E)|[(Hn & Hi & Hz & s & E)|(Hn & Hi & Hz & s & m & e & E)]]];
    rewrite Hn; try rewrite Hi; simpl; rewrite E.
  - split; [discriminate|]. intros [[? ?]|(? & ? & ? & ?)]; discriminate.
  - split; [discriminate|]. intros [[? ?]|(? & ? & ? & ?)]; discriminate.
  - split; eauto.
  - split; eauto 6.
Qed.

Ltac float_cases x :=
  let s := fresh "s" in let m := fresh "m" in let e := fresh "e" in
  let E := fresh "E" in
  destruct (classes x) as
    [[? E]|[(? & ? & ? & s & E)|[(? & ? & ? & s & E)|(? & ? & ? & s & m & e & E)]]].

Lemma zero_of_spec x s : Prim2SF x = S754_zero s -> is_zero x = true.
Proof. intros E. apply is_zero_spec. eauto. Qed.

(** A finite number times a zero, either way round, is a zero. *)
Lemma mul_finite_zero x z :
  is_finite x = true -> is_zero z = true -> is_zero (x * z) = true.
Proof.
  intros Hx Hz. apply is_finite_spec in Hx. apply is_zero_spec in Hz as [sz Ez].
  destruct Hx as [[s E]|(s & m & e & E)];
    eapply zero_of_spec; rewrite mul_spec, E, Ez; reflexivity.
Qed.

Lemma mul_zero_finite z x :
  is_zero z = true -> is_finite x = true -> is_zero (z * x) = true.
Proof.
  intros Hz Hx. apply is_finite_spec in Hx. apply is_zero_spec in Hz as [sz Ez].
  destruct Hx as [[s E]|(s & m & e & E)];
    eapply zero_of_spec; rewrite mul_spec, E, Ez; reflexivity.
Qed.

Lemma zero_is_finite z : is_zero z = true -> is_finite z = true.
Proof. intros Hz. apply is_finite_spec. left. now apply is_zero_spec. Qed.

Lemma add_zero_zero a b :
  is_zero a = true -> is_zero b = true -> is_zero (a + b) = true.
Proof.
  intros Ha Hb. apply is_zero_spec in Ha as [sa Ea]. apply is_zero_spec in Hb as [sb Eb].
  destruct sa, sb; eapply zero_of_spec; rewrite add_spec, Ea, Eb; reflexivity.
Qed.

(** A zero plus a number that is neither a zero nor a NaN is that number. *)
Lemma add_zero_l a b :
  is_zero a = true -> is_nan b = false -> is_zero b = false -> a + b = b.
Proof.
  intros Ha Hn Hz. apply is_zero_spec in Ha as [sa Ea].
  apply Prim2SF_inj. rewrite add_spec, Ea.
  float_cases b; try congruence; rewrite E; reflexivity.
Qed.

Lemma div_zero_l a d :
  is_zero a = true -> is_nan d = false -> is_zero d = false -> is_zero (a / d) = true.
Proof.
  intros Ha Hn Hz. apply is_zero_spec in Ha as [sa Ea].
  float_cases d; try congruence;
    eapply zero_of_spec; rewrite div_spec, Ea, E; reflexivity.
Qed.

(** Division by a zero: a NaN or an infinity, never an exception. *)
Lemma div_by_zero x d :
  is_zero d = true -> is_nan (x / d) = true \/ is_infinity (x / d) = true.
Proof.
  intros Hd. apply is_zero_spec in Hd as [sd Ed].
  float_cases x.
  - left. apply is_nan_spec. rewrite div_spec, E, Ed. reflexivity.
  - right. apply is_infinity_spec. rewrite div_spec, E, Ed. simpl. eauto.
  - left. apply is_nan_spec. rewrite div_spec, E, Ed. reflexivity.
  - right. apply is_infinity_spec. rewrite div_spec, E, Ed. simpl. eauto.
Qed.

(** Adding a zero to a finite number gives a number equal to it ([==]). *)
Lemma add_finite_zero x z :
  is_finite x = true -> is_zero z = true -> (x + z =? x) = true.
Proof.
  intros Hx Hz. apply is_finite_spec in Hx. apply is_zero_spec in Hz as [sz Ez].
  rewrite eqb_spec, add_spec, Ez.
  destruct Hx as [[s E]|(s & m & e & E)]; rewrite E.
  - destruct s, sz; reflexivity.
  - unfold SF64add, SFadd, SFeqb. cbn [SFcompare].
    rewrite Z.compare_refl, Pos.compare_cont_refl. now destruct s.
Qed.

End Binary64.

(** ** C7 and C5: the estimator on binary64 *)

Section EstimatorOnBinary64.

Lemma dot_acc_zero_l (u v : list float) :
  Forall (fun a : float => is_zero a = true) u -> Forall (fun a : float => is_finite a = true) v ->
  forall acc : float, is_zero acc = true ->
    is_zero (fold_left (fun a p => add a (mul (fst p) (snd p))) (combine u v) acc) = true.
Proof.
  intros Hu; revert v. induction Hu as [|a u Ha _ IH]; intros v Hv acc Hacc.
  - exact Hacc.
  - destruct Hv as [|b v Hb Hv]; [exact Hacc|]. cbn [combine fold_left fst snd].
    apply IH; [exact Hv|].
    apply Binary64.add_zero_zero; [exact Hacc|].
    now apply Binary64.mul_zero_finite.
Qed.

Lemma dot_acc_zero_r (u v : list float) :
  Forall (fun a : float => is_finite a = true) u -> Forall (fun a : float => is_zero a = true) v ->
  forall acc : float, is_zero acc = true ->
    is_zero (fold_left (fun a p => add a (mul (fst p) (snd p))) (combine u v) acc) = true.
Proof.
  intros Hu; revert v. induction Hu as [|a u Ha _ IH]; intros v Hv acc Hacc.
  - exact Hacc.
  - destruct Hv as [|b v Hb Hv]; [exact Hacc|]. cbn [combine fold_left fst snd].
    apply IH; [exact Hv|].
    apply Binary64.add_zero_zero; [exact Hacc|].
    now apply Binary64.mul_finite_zero.
Qed.

Lemma dot_zero_l (u v : list float) :
  Forall (fun a : float => is_zero a = true) u -> Forall (fun a : float => is_finite a = true) v -> is_zero (dot u v) = true.
Proof. intros Hu Hv. now apply dot_acc_zero_l. Qed.

Lemma dot_zero_r (u v : list float) :
  Forall (fun a : float => is_finite a = true) u -> Forall (fun a : float => is_zero a = true) v -> is_zero (dot u v) = true.
Proof. intros Hu Hv. now apply dot_acc_zero_r. Qed.

(** With every draw a zero, the error vector [eb] and the matrix [Pb] of a
    finite background hold zeros only. *)
Lemma eb_zero (xb0 err : list float) :
  Forall (fun a : float => is_finite a = true) xb0 -> Forall (fun a : float => is_zero a = true) err -> Forall (fun a : float => is_zero a = true) (eb xb0 err).
Proof.
  unfold eb, map2. intros Hx; revert err.
  induction Hx as [|x xb0 Hx _ IH]; intros err He; [constructor|].
  destruct He as [|e err He Herr]; [constructor|]. cbn [combine map fst snd].
  constructor; [now apply Binary64.mul_finite_zero|now apply IH].
Qed.

Lemma Pb_zero (eb0 : list float) :
  Forall (fun a : float => is_zero a = true) eb0 -> Forall (Forall (fun a : float => is_zero a = true)) (Pb eb0).
Proof.
  intros He. unfold Pb. apply Forall_map. rewrite Forall_forall. intros a Ha.
  apply Forall_map. rewrite Forall_forall. intros b Hb.
  rewrite Forall_forall in He.
  apply Binary64.mul_zero_finite; [now apply He|].
  apply Binary64.zero_is_finite. now apply He.
Qed.

Lemma Num_zero (pb : list (list float)) (hdot : list float) :
  Forall (Forall (fun a : float => is_zero a = true)) pb -> Forall (fun a : float => is_finite a = true) hdot -> Forall (fun a : float => is_zero a = true) (Num pb hdot).
Proof.
  intros Hp Hh. unfold Num. apply Forall_map.
  rewrite Forall_forall in *. intros row Hrow. apply dot_zero_l; [now apply Hp|].
  now rewrite Forall_forall.
Qed.

Lemma K_broken (num : list float) (den : float) :
  is_zero den = true -> Forall (fun a : float => is_nan a = true \/ is_infinity a = true) (K num den).
Proof.
  intros Hd. unfold K. apply Forall_map. rewrite Forall_forall. intros x _.
  now apply Binary64.div_by_zero.
Qed.

Lemma mul_broken (g t : float) : (fun a : float => is_nan a = true \/ is_infinity a = true) g -> (fun a : float => is_nan a = true \/ is_infinity a = true) (mul g t).
Proof.
  intros Hg. cbn [mul float_scalar].
  assert (Hs : Prim2SF g = S754_nan \/ exists s, Prim2SF g = S754_infinity s).
  { destruct Hg as [Hg|Hg]; [left; now apply Binary64.is_nan_spec|
                             right; now apply Binary64.is_infinity_spec]. }
  assert (Ht : Prim2SF (g * t)%float = S754_nan
               \/ exists s, Prim2SF (g * t)%float = S754_infinity s).
  { rewrite mul_spec. destruct Hs as [->|[s ->]]; [now left|].
    destruct (Prim2SF t) as [st|st| |st mt et]; simpl; eauto. }
  destruct Ht as [Ht|Ht]; [left; now apply Binary64.is_nan_spec|
                           right; now apply Binary64.is_infinity_spec].
Qed.

Lemma add_broken (x w : float) : (fun a : float => is_nan a = true \/ is_infinity a = true) w -> (fun a : float => is_nan a = true \/ is_infinity a = true) (add x w).
Proof.
  intros Hw. cbn [add float_scalar].
  assert (Hs : Prim2SF w = S754_nan \/ exists s, Prim2SF w = S754_infinity s).
  { destruct Hw as [Hw|Hw]; [left; now apply Binary64.is_nan_spec|
                             right; now apply Binary64.is_infinity_spec]. }
  assert (Ht : Prim2SF (x + w)%float = S754_nan
               \/ exists s, Prim2SF (x + w)%float = S754_infinity s).
  { rewrite add_spec. destruct Hs as [->|[s ->]].
    - left. destruct (Prim2SF x); reflexivity.
    - destruct (Prim2SF x) as [sx|sx| |sx mx ex]; simpl; eauto.
      destruct sx, s; simpl; eauto. }
  destruct Ht as [Ht|Ht]; [left; now apply Binary64.is_nan_spec|
                           right; now apply Binary64.is_infinity_spec].
Qed.

Lemma xa_broken (xb0 k : list float) (y h : float) :
  Forall (fun a : float => is_nan a = true \/ is_infinity a = true) k -> Forall (fun a : float => is_nan a = true \/ is_infinity a = true) (xa xb0 k y h).
Proof.
  unfold xa, map2. intros Hk; revert xb0.
  induction Hk as [|g k Hg _ IH]; intros [|x xb0]; cbn [combine map fst snd];
    try constructor; [|apply IH].
  apply add_broken. now apply mul_broken.
Qed.

Lemma load_raises (back_sel : list (list (pyval float))) :
  forall (xa0 : list float) (syn syn' : list (list float)) e,
    load syn back_sel xa0 = (syn', Some e) -> e = IndexError.
Proof.
  induction back_sel as [|itm back_sel IH]; intros xa0 syn syn' e.
  - simpl. discriminate.
  - destruct xa0 as [|v xa0]; [simpl; discriminate|]. cbn [load]. unfold bind, iadd, bind.
    destruct (nth_error itm 0) as [m|]; cbn [of_option]; [|now intros [= _ <-]].
    destruct (nth_error itm 1) as [n|]; cbn [of_option]; [|now intros [= _ <-]].
    destruct (py_index (length syn) m) as [e1|i] eqn:Ei.
    { intros [= _ <-]. unfold py_index in Ei. destruct m; [|now injection Ei].
      repeat match type of Ei with
             | (if ?b then _ else _) = _ => destruct b
             end; try discriminate. now injection Ei. }
    destruct (nth_error syn i) as [row|]; cbn [of_option]; [|now intros [= _ <-]].
    destruct (py_index (length row) n) as [e1|j] eqn:Ej.
    { intros [= _ <-]. unfold py_index in Ej. destruct n; [|now injection Ej].
      repeat match type of Ej with
             | (if ?b then _ else _) = _ => destruct b
             end; try discriminate. now injection Ej. }
    destruct (nth_error row j) as [old|]; cbn [of_option]; [|now intros [= _ <-]].
    unfold ret. apply IH.
Qed.

Lemma K_zero (num : list float) (den : float) :
  Forall (fun a : float => is_zero a = true) num -> is_nan den = false -> is_zero den = false ->
  Forall (fun a : float => is_zero a = true) (K num den).
Proof.
  intros Hnum Hn Hz. unfold K. apply Forall_map.
  rewrite Forall_forall in *. intros x Hx.
  apply Binary64.div_zero_l; auto.
Qed.

Lemma xa_unchanged (xb0 k : list float) (y h : float) :
  length k = length xb0 -> Forall (fun a : float => is_finite a = true) xb0 -> Forall (fun a : float => is_zero a = true) k ->
  is_finite (sub y h) = true ->
  Forall2 (fun a x => PrimFloat.eqb a x = true) (xa xb0 k y h) xb0.
Proof.
  unfold xa, map2. intros Hlen Hx; revert k Hlen.
  induction Hx as [|x xb0 Hx _ IH]; intros [|g k] Hlen Hk Ht; try discriminate.
  - constructor.
  - cbn [combine map fst snd]. inversion Hk; subst. constructor.
    + apply Binary64.add_finite_zero; [exact Hx|].
      now apply Binary64.mul_zero_finite.
    + apply IH; auto.
Qed.

End EstimatorOnBinary64.

(** C7, as the code has it.  When the denominator [Hdot . Pb . Hdot^T + R]
    is a zero, lines 56-65 raise nothing: the division is carried out, every
    element of the gain is a NaN or an infinity, so is every element of the
    analysis, and the call can only fail with an [IndexError] of the loop
    that writes them to the grid. *)
Theorem C7_zero_denominator_is_silent :
  forall (err : nat -> float) (y : float) (back_sel : list (list (pyval float)))
         (xb0 : list float),
    xb back_sel = inr xb0 ->
    1 <= length xb0 ->
    let hdot := Hdot (length xb0) in
    let num := Num (Pb (eb xb0 (map err (seq 0 (length xb0))))) hdot in
    let den := Den hdot num (R y) in
    is_zero den = true ->
    analysis err y back_sel "mean" = inr (xa xb0 (K num den) y (spec_H xb0))
    /\ Forall (fun g => is_nan g = true \/ is_infinity g = true) (K num den)
    /\ Forall (fun a => is_nan a = true \/ is_infinity a = true)
              (xa xb0 (K num den) y (spec_H xb0))
    /\ forall syn syn' e,
         optimal_interpolation err syn y back_sel "mean" = (syn', Some e) ->
         e = IndexError.
Proof.
  intros err y back_sel xb0 Hxb Hn hdot num den Hden.
  pose proof (analysis_mean err y back_sel xb0 Hxb Hn) as Ha. cbv zeta in Ha.
  fold hdot in Ha. fold num in Ha. fold den in Ha.
  repeat split.
  - exact Ha.
  - now apply K_broken.
  - apply xa_broken. now apply K_broken.
  - intros syn syn' e. unfold optimal_interpolation. rewrite Ha. apply load_raises.
Qed.

(** C7 on a fine cell and a coarse cell that both hold 0.0. *)
Lemma C7_witness :
  let err := fun _ : nat => 0.25%float in
  let y := 0.0%float in
  let back_sel := [[PInt 0; PInt 0; PFloat 0.0%float]] in
  let xb0 := [0.0%float] in
  let hdot := Hdot (length xb0) in
  let num := Num (Pb (eb xb0 (map err (seq 0 (length xb0))))) hdot in
  let den := Den hdot num (R y) in
  (xb back_sel = inr xb0 /\ 1 <= length xb0 /\ is_zero den = true)
  /\ (analysis err y back_sel "mean" = inr (xa xb0 (K num den) y (spec_H xb0))
      /\ Forall (fun g => is_nan g = true \/ is_infinity g = true) (K num den)
      /\ Forall (fun a => is_nan a = true \/ is_infinity a = true)
                (xa xb0 (K num den) y (spec_H xb0))
      /\ forall syn syn' e,
           optimal_interpolation err syn y back_sel "mean" = (syn', Some e) ->
           e = IndexError).
Proof.
  cbv zeta. split.
  - split; [reflexivity|split; [simpl; lia|reflexivity]].
  - apply (C7_zero_denominator_is_silent (fun _ : nat => 0.25%float) 0.0%float
             [[PInt 0; PInt 0; PFloat 0.0%float]] [0.0%float]).
    + reflexivity.
    + simpl; lia.
    + reflexivity.
Defined.

(** C7, as stated, fails: a fine cell and a coarse cell that both hold 0.0
    give the denominator 0.0; the call returns, and the grid holds a NaN. *)
Lemma C7_counterexample :
  let back_sel := [[PInt 0; PInt 0; PFloat 0.0%float]] in
  let hdot := Hdot 1 in
  let num := Num (Pb (eb [0.0%float] [0.25%float])) hdot in
  Den hdot num (R 0.0%float) = 0.0%float
  /\ analysis (fun _ => 0.25%float) 0.0%float back_sel "mean" = inr [nan]
  /\ optimal_interpolation (fun _ => 0.25%float) [[0.0%float]] 0.0%float back_sel "mean"
     = ([[nan]], None).
Proof. repeat split; vm_compute; reflexivity. Qed.

(** C5, as the code has it.  When every draw is a zero and the background
    values are finite numbers, [Pb] holds zeros only, whatever [y].  When
    moreover R = (0.5 y)^2, as computed, is a number other than zero, and
    the Jacobian entry 1/n and the innovation y - H(xb) are finite, the
    denominator is R, the gain holds zeros only, and the analysis returned
    equals the background element by element ([==]), for a Python float
    and for an [np.float64] on which line 27 does not overflow. *)
Theorem C5_zero_background_error :
  forall (err : nat -> float) (y : float) (back_sel : list (list (pyval float)))
         (xb0 : list float),
    xb back_sel = inr xb0 ->
    1 <= length xb0 ->
    (forall i, is_zero (err i) = true) ->
    Forall (fun x => is_finite x = true) xb0 ->
    let hdot := Hdot (length xb0) in
    let pb := Pb (eb xb0 (map err (seq 0 (length xb0)))) in
    let num := Num pb hdot in
    let den := Den hdot num (R y) in
    Forall (Forall (fun p => is_zero p = true)) pb
    /\ (is_finite (div (mul one (of_int 1)) (of_int (Z.of_nat (length xb0)))) = true ->
        is_nan (R y) = false ->
        is_zero (R y) = false ->
        is_finite (sub y (spec_H xb0)) = true ->
        den = R y
        /\ length (K num den) = length xb0
        /\ Forall (fun g => is_zero g = true) (K num den)
        /\ exists v, analysis err y back_sel "mean" = inr v
                     /\ Forall2 (fun a x => PrimFloat.eqb a x = true) v xb0
                     /\ forall y_meas,
                          Caller.value y_meas = y ->
                          Caller.overflows y_meas = false ->
                          Caller.analysis err y_meas back_sel "mean" = inr v).
Proof.
  intros err y back_sel xb0 Hxb Hn Herr Hfin hdot pb num den.
  assert (Hpb : Forall (Forall (fun p => is_zero p = true)) pb).
  { apply Pb_zero, eb_zero; [exact Hfin|].
    apply Forall_map. rewrite Forall_forall. intros i _. apply Herr. }
  split; [exact Hpb|]. intros Hh HRn HRz Hinn.
  assert (Hhdot : Forall (fun a => is_finite a = true) hdot).
  { unfold hdot, Hdot. rewrite Forall_forall. intros a Ha.
    apply repeat_spec in Ha. now subst a. }
  assert (Hnum : Forall (fun a => is_zero a = true) num) by now apply Num_zero.
  assert (Hden : den = R y).
  { unfold den, Den. apply Binary64.add_zero_l; auto. now apply dot_zero_r. }
  assert (Hlen : length (K num den) = length xb0).
  { rewrite K_length. unfold num. rewrite Num_length. unfold pb, Pb, eb.
    rewrite length_map, map2_length, length_map, length_seq. apply Nat.min_id. }
  assert (HK : Forall (fun g => is_zero g = true) (K num den)).
  { apply K_zero; [exact Hnum| |]; now rewrite Hden. }
  repeat split; auto.
  exists (xa xb0 (K num den) y (spec_H xb0)). split; [|split].
  - exact (analysis_mean err y back_sel xb0 Hxb Hn).
  - now apply xa_unchanged.
  - intros y_meas Hy Ho. rewrite caller_analysis_cases, Hxb, Ho, Hy.
    exact (analysis_mean err y back_sel xb0 Hxb Hn).
Qed.

(** C5 on a background of two values, all draws 0.0 and [y = 2.0]. *)
Lemma C5_witness :
  let err := fun _ : nat => 0.0%float in
  let y := 2.0%float in
  let back_sel := [[PInt 0; PInt 0; PFloat 1.0%float];
                   [PInt 1; PInt 1; PFloat 3.0%float]] in
  let xb0 := [1.0%float; 3.0%float] in
  let hdot := Hdot (length xb0) in
  let pb := Pb (eb xb0 (map err (seq 0 (length xb0)))) in
  let num := Num pb hdot in
  let den := Den hdot num (R y) in
  (xb back_sel = inr xb0 /\ 1 <= length xb0
   /\ (forall i, is_zero (err i) = true)
   /\ Forall (fun x => is_finite x = true) xb0
   /\ is_finite (div (mul one (of_int 1)) (of_int (Z.of_nat (length xb0)))) = true
   /\ is_nan (R y) = false /\ is_zero (R y) = false
   /\ is_finite (sub y (spec_H xb0)) = true)
  /\ Forall (Forall (fun p => is_zero p = true)) pb
  /\ den = R y
  /\ length (K num den) = length xb0
  /\ Forall (fun g => is_zero g = true) (K num den)
  /\ exists v, analysis err y back_sel "mean" = inr v
               /\ Forall2 (fun a x => PrimFloat.eqb a x = true) v xb0
               /\ forall y_meas,
                    Caller.value y_meas = y ->
                    Caller.overflows y_meas = false ->
                    Caller.analysis err y_meas back_sel "mean" = inr v.
Proof.
  cbv zeta.
  assert (Hxb : xb [[PInt 0; PInt 0; PFloat 1.0%float]; [PInt 1; PInt 1; PFloat 3.0%float]]
                = inr [1.0%float; 3.0%float]) by reflexivity.
  assert (Hn : 1 <= length [1.0%float; 3.0%float]) by (simpl; lia).
  assert (Herr : forall i : nat, is_zero ((fun _ : nat => 0.0%float) i) = true)
    by (intros i; reflexivity).
  assert (Hfin : Forall (fun x => is_finite x = true) [1.0%float; 3.0%float])
    by (repeat constructor).
  destruct (C5_zero_background_error (fun _ : nat => 0.0%float) 2.0%float
              [[PInt 0; PInt 0; PFloat 1.0%float]; [PInt 1; PInt 1; PFloat 3.0%float]]
              [1.0%float; 3.0%float] Hxb Hn Herr Hfin) as [Hpb Hrest].
  split; [|split; [exact Hpb|apply Hrest; reflexivity]].
  repeat (split; [first [exact Hxb|exact Hn|exact Herr|exact Hfin|reflexivity]|]).
  reflexivity.
Defined.

(** C5, as stated, fails at [y = 0]: with the background [1.0] and the draw
    0.0, [Pb] is the zero matrix but R is 0.0, the gain is 0.0 / 0.0, a NaN,
    and so is the analysis, which is not equal to the background.  It fails
    in the same way at [y = 2^-600], a measurement that is not zero: the
    square (0.5 y)^2 underflows, and R is 0.0 again. *)
Lemma C5_counterexample :
  let xb0 := [1.0%float] in
  let pb := Pb (eb xb0 [0.0%float]) in
  let num := Num pb (Hdot 1) in
  let k := K num (Den (Hdot 1) num (R 0.0%float)) in
  pb = [[0.0%float]]
  /\ k = [nan]
  /\ map is_zero k = [false]
  /\ analysis (fun _ => 0.0%float) 0.0%float [[PInt 0; PInt 0; PFloat 1.0%float]] "mean"
     = inr [nan]
  /\ map2 PrimFloat.eqb (xa xb0 k 0.0%float (spec_H xb0)) xb0 = [false]
  /\ is_zero 0x1p-600%float = false
  /\ R 0x1p-600%float = 0.0%float
  /\ analysis (fun _ => 0.0%float) 0x1p-600%float [[PInt 0; PInt 0; PFloat 1.0%float]] "mean"
     = inr [nan]
  /\ Caller.analysis (fun _ => 0.0%float) (Caller.python_float 0x1p-600%float)
       [[PInt 0; PInt 0; PFloat 1.0%float]] "mean"
     = inr [nan].
Proof. repeat split; vm_compute; reflexivity. Qed.

(** ** Binary64: sums and quotients are rounded to nearest

    [SpecFloat]'s [binary_round_aux] rounds to nearest, ties to even; so
    addition is monotone and division by a positive number antitone. *)

Set Implicit Arguments.

Section Digits.

Import Rounding.
Local Open Scope Z_scope.

Lemma digits2_pos_size (p : positive) : digits2_pos p = Pos.size p.
Proof. induction p; simpl; congruence. Qed.

Lemma Zdigits2_log2 (m : Z) : 0 < m -> Zdigits2 m = Z.log2 m + 1.
Proof.
  destruct m as [|p|p]; try lia. intros _. cbn [Zdigits2].
  rewrite digits2_pos_size.
  destruct p; cbn [Pos.size Z.log2]; lia.
Qed.

Lemma Zdigits2_bounds (m : Z) :
  0 < m -> 2 ^ (Zdigits2 m - 1) <= m < 2 ^ Zdigits2 m.
Proof.
  intros Hm. rewrite (Zdigits2_log2 Hm).
  replace (Z.log2 m + 1 - 1) with (Z.log2 m) by lia.
  replace (Z.log2 m + 1) with (Z.succ (Z.log2 m)) by lia.
  now apply Z.log2_spec.
Qed.

Lemma Zdigits2_nonneg (m : Z) : 0 <= m -> 0 <= Zdigits2 m.
Proof. destruct m; simpl; lia. Qed.

Lemma Zdigits2_pos (m : Z) : 0 < m -> 1 <= Zdigits2 m.
Proof. destruct m; simpl; lia. Qed.

Lemma Zdigits2_unique (m d : Z) :
  2 ^ (d - 1) <= m < 2 ^ d -> 1 <= d -> Zdigits2 m = d.
Proof.
  intros Hm Hd. assert (0 < m).
  { assert (0 < 2 ^ (d - 1)) by (apply Z.pow_pos_nonneg; lia). lia. }
  rewrite Zdigits2_log2 by assumption.
  rewrite (Z.log2_unique m (d - 1)); [lia|lia|].
  replace (Z.succ (d - 1)) with d by lia. exact Hm.
Qed.

Lemma Zdigits2_le (a b : Z) : 0 <= a -> a <= b -> Zdigits2 a <= Zdigits2 b.
Proof.
  intros Ha Hab. destruct (Z.eq_dec a 0) as [->|Hn].
  - apply Zdigits2_nonneg. lia.
  - rewrite !Zdigits2_log2 by lia. apply Z.add_le_mono_r. now apply Z.log2_le_mono.
Qed.

(** A number below [2 ^ d] has at most [d] digits. *)
Lemma Zdigits2_lt_pow (m d : Z) : 0 <= m -> 0 <= d -> m < 2 ^ d -> Zdigits2 m <= d.
Proof.
  intros Hm Hd Hlt. destruct (Z.eq_dec m 0) as [->|Hn]; [simpl; lia|].
  destruct (Zdigits2_bounds (m:=m)) as [Hlo _]; [lia|].
  destruct (Z_le_gt_dec (Zdigits2 m) d) as [|Hgt]; [assumption|exfalso].
  assert (2 ^ d <= 2 ^ (Zdigits2 m - 1)) by (apply Z.pow_le_mono_r; lia). lia.
Qed.

Lemma Zdigits2_ge_pow (m d : Z) : 0 <= d -> 2 ^ d <= m -> d + 1 <= Zdigits2 m.
Proof.
  intros Hd Hle.
  assert (0 < 2 ^ d) by (apply Z.pow_pos_nonneg; lia).
  destruct (Zdigits2_bounds (m:=m)) as [_ Hhi]; [lia|].
  destruct (Z_le_gt_dec (d + 1) (Zdigits2 m)) as [|Hgt]; [assumption|exfalso].
  assert (0 <= Zdigits2 m) by (apply Zdigits2_nonneg; lia).
  assert (2 ^ Zdigits2 m <= 2 ^ d) by (apply Z.pow_le_mono_r; lia). lia.
Qed.

Lemma div_cross_le (A1 B1 A2 B2 : Z) :
  0 < B1 -> 0 < B2 -> A1 * B2 <= A2 * B1 -> A1 / B1 <= A2 / B2.
Proof.
  intros H1 H2 Hle. apply Z.div_le_lower_bound; [assumption|].
  pose proof (Z.mul_div_le A1 B1 H1) as L.
  assert (B1 * (B2 * (A1 / B1)) <= B1 * A2) by nia.
  apply Z.mul_le_mono_pos_l with (p := B1); assumption.
Qed.


Lemma div_cross_eq (A1 B1 A2 B2 : Z) :
  0 < B1 -> 0 < B2 -> A1 * B2 = A2 * B1 -> A1 / B1 = A2 / B2.
Proof.
  intros H1 H2 E. apply Z.le_antisymm; apply div_cross_le; lia.
Qed.


Lemma Zdigits2_mul_pow2 (m j : Z) :
  0 < m -> 0 <= j -> Zdigits2 (m * 2 ^ j) = Zdigits2 m + j.
Proof.
  intros Hm Hj.
  assert (0 < 2 ^ j) by (apply Z.pow_pos_nonneg; lia).
  rewrite !Zdigits2_log2 by nia. rewrite Z.log2_mul_pow2 by lia. lia.
Qed.


Lemma Zdigits2_div_pow2 (q t : Z) :
  0 <= q -> 0 <= t -> Zdigits2 (q / 2 ^ t) = Z.max (Zdigits2 q - t) 0.
Proof.
  intros Hq Ht.
  assert (P : 0 < 2 ^ t) by (apply Z.pow_pos_nonneg; lia).
  destruct (Z.eq_dec q 0) as [->|Hn].
  { rewrite Z.div_0_l by lia. simpl. lia. }
  destruct (Zdigits2_bounds (m := q)) as [Hlo Hhi]; [lia|].
  pose proof (@Zdigits2_pos q ltac:(lia)) as Hd.
  set (d := Zdigits2 q) in *.
  destruct (Z_le_gt_dec d t) as [Hle|Hgt].
  - assert (2 ^ d <= 2 ^ t) by (apply Z.pow_le_mono_r; lia).
    rewrite Z.div_small by lia. simpl. lia.
  - replace (Z.max (d - t) 0) with (d - t) by lia.
    apply Zdigits2_unique; [|lia]. split.
    + apply Z.div_le_lower_bound; [assumption|].
      rewrite <- Z.pow_add_r by lia. replace (t + (d - t - 1)) with (d - 1) by lia.
      exact Hlo.
    + apply Z.div_lt_upper_bound; [assumption|].
      rewrite <- Z.pow_add_r by lia. replace (t + (d - t)) with d by lia. exact Hhi.
Qed.


Lemma Zdigits2_scaled_div (N D j : Z) :
  0 < D -> 1 <= N / D -> 0 <= j ->
  Zdigits2 (N * 2 ^ j / D) = Zdigits2 (N / D) + j.
Proof.
  intros HD Hq Hj.
  assert (P : 0 < 2 ^ j) by (apply Z.pow_pos_nonneg; lia).
  destruct (Zdigits2_bounds (m := N / D)) as [Hlo Hhi]; [lia|].
  pose proof (@Zdigits2_pos (N / D) ltac:(lia)) as Hd.
  set (d := Zdigits2 (N / D)) in *.
  pose proof (Z.div_mod N D ltac:(lia)) as E.
  pose proof (Z.mod_pos_bound N D HD) as M.
  apply Zdigits2_unique; [|lia]. split.
  - apply Z.div_le_lower_bound; [assumption|].
    replace (d + j - 1) with (d - 1 + j) by lia. rewrite Z.pow_add_r by lia.
    assert (D * 2 ^ (d - 1) <= N) by nia.
    rewrite Z.mul_assoc. apply Z.mul_le_mono_nonneg_r; lia.
  - apply Z.div_lt_upper_bound; [assumption|].
    rewrite Z.pow_add_r by lia.
    assert (N < D * 2 ^ d) by nia.
    rewrite Z.mul_assoc. apply Z.mul_lt_mono_pos_r; lia.
Qed.


Lemma iter_xO_pow2 (m d : positive) : Zpos (Pos.iter xO m d) = Zpos m * 2 ^ Zpos d.
Proof.
  induction d as [|d IH] using Pos.peano_ind.
  - simpl. lia.
  - rewrite Pos.iter_succ, Pos2Z.inj_xO, IH, Pos2Z.inj_succ, Z.pow_succ_r by lia. ring.
Qed.


Lemma shl_align_spec (m : positive) (e e' : Z) :
  let '(m', e'') := shl_align m e e' in
  e'' = Z.min e e' /\ Zpos m' = Zpos m * 2 ^ (e - e'').
Proof.
  unfold shl_align. destruct (e' - e) as [|d|d] eqn:E.
  - split; [lia|]. replace (e - e) with 0 by lia. simpl. lia.
  - split; [lia|]. replace (e - e) with 0 by lia. simpl. lia.
  - split; [lia|]. rewrite iter_xO_pow2. f_equal. f_equal. lia.
Qed.


Lemma new_location_spec (D r : Z) :
  0 < D -> 0 <= r < D ->
  new_location D r = if r =? 0 then loc_Exact else loc_Inexact (2 * r ?= D).
Proof.
  intros HD Hr. unfold new_location.
  destruct (Z.even D) eqn:Ev.
  - reflexivity.
  - unfold new_location_odd. destruct (Z.eqb_spec r 0); [reflexivity|]. f_equal.
    assert (Hodd : 2 * r <> D).
    { intros E. rewrite <- E, Z.even_mul in Ev. discriminate. }
    destruct (Z.compare_spec (2 * r + 1) D), (Z.compare_spec (2 * r) D);
      try reflexivity; lia.
Qed.

End Digits.

Section Nearest.

Import Rounding.
Local Open Scope Z_scope.

Lemma loc_exact (k D : Z) : 0 < D -> loc (k * D) D = loc_Exact.
Proof. intros HD. unfold loc. now rewrite Z.mod_mul by lia. Qed.

(** [rnd N D] is an integer nearest to [N / D], and the even one of the two
    when [N / D] lies half-way. *)
Lemma rnd_spec (N D : Z) :
  0 < D ->
  2 * rnd N D * D - D <= 2 * N <= 2 * rnd N D * D + D
  /\ (2 * N = 2 * rnd N D * D - D \/ 2 * N = 2 * rnd N D * D + D ->
      Z.even (rnd N D) = true).
Proof.
  intros HD. unfold rnd, loc.
  pose proof (Z.div_mod N D ltac:(lia)) as E.
  pose proof (Z.mod_pos_bound N D HD) as B.
  set (q := N / D) in *. set (r := N mod D) in *.
  destruct (Z.eqb_spec r 0) as [Hr|Hr]; cbn [round_nearest_even].
  - split; [nia|]. intros [H|H]; exfalso; nia.
  - destruct (Z.compare_spec (2 * r) D) as [Hc|Hc|Hc]; cbn [round_nearest_even].
    + destruct (Z.even q) eqn:Hq.
      * split; [nia|]. intros _. exact Hq.
      * split; [nia|]. intros _. rewrite Z.even_add, Hq. reflexivity.
    + split; [nia|]. intros [H|H]; exfalso; nia.
    + split; [nia|]. intros [H|H]; exfalso; nia.
Qed.

Lemma rnd_mono (N1 D1 N2 D2 : Z) :
  0 < D1 -> 0 < D2 -> N1 * D2 <= N2 * D1 -> rnd N1 D1 <= rnd N2 D2.
Proof.
  intros H1 H2 Hle.
  destruct (rnd_spec N1 H1) as [[Hlo1 _] He1].
  destruct (rnd_spec N2 H2) as [[_ Hhi2] He2].
  set (k1 := rnd N1 D1) in *. set (k2 := rnd N2 D2) in *.
  destruct (Z_le_gt_dec k1 k2) as [|Hgt]; [assumption|exfalso].
  assert (Hk : (2 * k2 + 1) * (D1 * D2) <= (2 * k1 - 1) * (D1 * D2)).
  { apply Z.mul_le_mono_nonneg_r; nia. }
  assert (Ha : (2 * k1 - 1) * (D1 * D2) <= 2 * N1 * D2) by nia.
  assert (Hb : 2 * N2 * D1 <= (2 * k2 + 1) * (D1 * D2)) by nia.
  assert (Hk12 : k1 = k2 + 1).
  { assert ((2 * k1 - 1) * (D1 * D2) <= (2 * k2 + 1) * (D1 * D2)) by lia.
    assert (0 < D1 * D2) by nia.
    assert (2 * k1 - 1 <= 2 * k2 + 1) by (apply Z.mul_le_mono_pos_r with (p := D1 * D2); lia).
    lia. }
  assert (T1 : 2 * N1 = 2 * k1 * D1 - D1).
  { assert ((2 * k1 - 1) * (D1 * D2) = 2 * N1 * D2) by nia.
    apply Z.mul_reg_r with (p := D2); [lia|]. nia. }
  assert (T2 : 2 * N2 = 2 * k2 * D2 + D2).
  { assert (2 * N2 * D1 = (2 * k2 + 1) * (D1 * D2)) by nia.
    apply Z.mul_reg_r with (p := D1); [lia|]. nia. }
  pose proof (He1 (or_introl T1)) as E1. pose proof (He2 (or_intror T2)) as E2.
  rewrite Hk12, Z.even_add, E2 in E1. discriminate.
Qed.

Lemma rnd_ext (N1 D1 N2 D2 : Z) :
  0 < D1 -> 0 < D2 -> N1 * D2 = N2 * D1 -> rnd N1 D1 = rnd N2 D2.
Proof.
  intros H1 H2 E. apply Z.le_antisymm; apply rnd_mono; lia.
Qed.

Lemma rnd_exact (k D : Z) : 0 < D -> rnd (k * D) D = k.
Proof.
  intros HD. unfold rnd. rewrite loc_exact by assumption.
  cbn [round_nearest_even]. apply Z.div_mul. lia.
Qed.

Lemma rnd_one (N : Z) : rnd N 1 = N.
Proof. rewrite <- (Z.mul_1_r N) at 1. apply rnd_exact. lia. Qed.

Lemma rnd_nonneg (N D : Z) : 0 <= N -> 0 < D -> 0 <= rnd N D.
Proof.
  intros HN HD. rewrite <- (rnd_exact 0 HD). apply rnd_mono; lia.
Qed.

End Nearest.

Section Shifts.

Import Rounding.
Local Open Scope Z_scope.

Lemma shr_1_spec (m : Z) (r s : bool) :
  0 <= m ->
  shr_1 {| shr_m := m; shr_r := r; shr_s := s |}
  = {| shr_m := m / 2; shr_r := Z.odd m; shr_s := r || s |}.
Proof.
  intros Hm. rewrite <- Z.div2_div.
  destruct m as [|[p|p|]|p]; try reflexivity. lia.
Qed.

Lemma record_of_loc_of (mrs : shr_record) :
  shr_record_of_loc (shr_m mrs) (loc_of_shr_record mrs) = mrs.
Proof. destruct mrs as [m [|] [|]]; reflexivity. Qed.

Lemma loc_of_record_of (m : Z) (l : location) :
  loc_of_shr_record (shr_record_of_loc m l) = l.
Proof. destruct l as [|[| |]]; reflexivity. Qed.

Lemma shr_m_record_of (m : Z) (l : location) : shr_m (shr_record_of_loc m l) = m.
Proof. destruct l as [|[| |]]; reflexivity. Qed.

(** One step to the right on the record of [N / D] gives the record of
    [N / (2 D)]. *)
Lemma shr_1_loc (N D : Z) :
  0 <= N -> 0 < D ->
  shr_1 (shr_record_of_loc (N / D) (loc N D))
  = shr_record_of_loc (N / (D * 2)) (loc N (D * 2)).
Proof.
  intros HN HD.
  pose proof (Z.div_pos N D HN HD) as Hq.
  pose proof (Z.mod_pos_bound N D HD) as Hr.
  assert (Hm : N mod (D * 2) = N mod D + D * ((N / D) mod 2))
    by (apply Z.rem_mul_r; lia).
  assert (Hd : N / (D * 2) = N / D / 2) by (rewrite Z.div_div; lia).
  pose proof (Z.mod_pos_bound (N / D) 2 ltac:(lia)) as Hb.
  assert (Hodd : Z.odd (N / D) = negb ((N / D) mod 2 =? 0)).
  { rewrite Zmod_odd. now destruct (Z.odd (N / D)). }
  unfold loc at 2. rewrite Hm, Hd.
  set (q := N / D) in *. set (r := N mod D) in *.
  unfold loc. fold r.
  destruct (Z.eqb_spec r 0) as [Hr0|Hr0].
  - cbn [shr_record_of_loc]. rewrite shr_1_spec by exact Hq. cbn [orb]. rewrite Hodd.
    destruct (Z.eqb_spec (q mod 2) 0) as [Hq0|Hq0]; cbn [negb].
    + replace (r + D * (q mod 2)) with 0 by nia. reflexivity.
    + assert (q mod 2 = 1) by lia.
      replace (r + D * (q mod 2)) with D by nia.
      destruct (Z.eqb_spec D 0); [lia|].
      replace (2 * D ?= D * 2) with Eq by (symmetry; apply Z.compare_eq_iff; lia).
      reflexivity.
  - assert (Hs : forall c, shr_1 (shr_record_of_loc q (loc_Inexact c))
                           = {| shr_m := q / 2; shr_r := Z.odd q; shr_s := true |}).
    { intros [| |]; cbn [shr_record_of_loc]; rewrite shr_1_spec by exact Hq;
        cbn [orb]; reflexivity. }
    rewrite Hs, Hodd.
    destruct (Z.eqb_spec (q mod 2) 0) as [Hq0|Hq0]; cbn [negb].
    + replace (r + D * (q mod 2)) with r by nia.
      destruct (Z.eqb_spec r 0); [lia|].
      replace (2 * r ?= D * 2) with Lt by (symmetry; apply Z.compare_lt_iff; lia).
      reflexivity.
    + assert (q mod 2 = 1) by lia.
      replace (r + D * (q mod 2)) with (r + D) by nia.
      destruct (Z.eqb_spec (r + D) 0); [lia|].
      replace (2 * (r + D) ?= D * 2) with Gt by (symmetry; apply Z.compare_gt_iff; lia).
      reflexivity.
Qed.

Lemma iter_shr_1_loc (p : positive) :
  forall N D : Z,
    0 <= N -> 0 < D ->
    iter_pos shr_1 p (shr_record_of_loc (N / D) (loc N D))
    = shr_record_of_loc (N / (D * 2 ^ Zpos p)) (loc N (D * 2 ^ Zpos p)).
Proof.
  induction p as [p IH|p IH|]; intros N D HN HD; cbn [iter_pos].
  - assert (Hp : 0 < 2 ^ Zpos p) by (apply Z.pow_pos_nonneg; lia).
    rewrite shr_1_loc by assumption.
    rewrite IH by (try assumption; nia). rewrite IH by (try assumption; nia).
    replace (D * 2 * 2 ^ Zpos p * 2 ^ Zpos p) with (D * 2 ^ Zpos p~1); [reflexivity|].
    replace (Zpos p~1) with (Zpos p + Zpos p + 1) by lia.
    rewrite !Z.pow_add_r by lia. rewrite Z.pow_1_r. ring.
  - assert (Hp : 0 < 2 ^ Zpos p) by (apply Z.pow_pos_nonneg; lia).
    rewrite IH by assumption. rewrite IH by (try assumption; nia).
    replace (D * 2 ^ Zpos p * 2 ^ Zpos p) with (D * 2 ^ Zpos p~0); [reflexivity|].
    replace (Zpos p~0) with (Zpos p + Zpos p) by lia.
    rewrite !Z.pow_add_r by lia. ring.
  - rewrite shr_1_loc by assumption. now rewrite Z.pow_1_r.
Qed.

End Shifts.

Section RoundAux.

Import Rounding.
Local Open Scope Z_scope.

Variables prec emax : Z.
Hypothesis Hprec : 0 < prec.

Lemma fexp_ge_emin (g : Z) : SpecFloat.emin prec emax <= fexp prec emax g.
Proof. unfold fexp. lia. Qed.

Lemma fexp_le (g h : Z) : g <= h -> fexp prec emax g <= fexp prec emax h.
Proof. unfold fexp. lia. Qed.

Lemma shr_fexp_spec (N D e : Z) :
  0 <= N -> 0 < D ->
  let n := Z.max (fexp prec emax (Zdigits2 (N / D) + e) - e) 0 in
  shr_fexp prec emax (N / D) e (loc N D)
  = (shr_record_of_loc (N / (D * 2 ^ n)) (loc N (D * 2 ^ n)), e + n).
Proof.
  intros HN HD n. unfold shr_fexp, shr. subst n.
  destruct (fexp prec emax (Zdigits2 (N / D) + e) - e) as [|p|p] eqn:E.
  - cbn [Z.max]. rewrite Z.max_id. rewrite Z.pow_0_r, Z.mul_1_r, Z.add_0_r. reflexivity.
  - rewrite iter_shr_1_loc by assumption.
    replace (Z.max (Zpos p) 0) with (Zpos p) by lia. reflexivity.
  - replace (Z.max (Zneg p) 0) with 0 by lia.
    rewrite Z.pow_0_r, Z.mul_1_r, Z.add_0_r. reflexivity.
Qed.

(** [binary_round_aux] on the truncation [N / D] with its location rounds
    [N / D], scaled to the exponent of its leading digit, to nearest. *)
Lemma binary_round_aux_spec (s : bool) (N D e : Z) :
  0 <= N -> 0 < D ->
  let n := Z.max (fexp prec emax (Zdigits2 (N / D) + e) - e) 0 in
  binary_round_aux prec emax s (N / D) e (loc N D)
  = finalize prec emax s (rnd N (D * 2 ^ n)) (e + n).
Proof.
  intros HN HD n. unfold binary_round_aux.
  rewrite (shr_fexp_spec e HN HD). fold n.
  rewrite shr_m_record_of, loc_of_record_of. reflexivity.
Qed.

(** [finalize] on a mantissa of at most [prec] digits, or on [2 ^ prec]. *)
Lemma finalize_zero (s : bool) (e : Z) :
  SpecFloat.emin prec emax <= e -> finalize prec emax s 0 e = S754_zero s.
Proof.
  intros He. unfold finalize, shr_fexp, shr. cbn [Zdigits2].
  destruct (fexp prec emax (0 + e) - e) as [|p|p] eqn:E; try reflexivity.
  unfold fexp in E. lia.
Qed.

Lemma finalize_small (s : bool) (m : positive) (e : Z) :
  SpecFloat.emin prec emax <= e -> Zpos m < 2 ^ prec ->
  finalize prec emax s (Zpos m) e
  = if e <=? emax - prec then S754_finite s m e else S754_infinity s.
Proof.
  intros He Hm. unfold finalize, shr_fexp, shr.
  assert (Hd : Zdigits2 (Zpos m) <= prec) by (apply Zdigits2_lt_pow; lia).
  destruct (fexp prec emax (Zdigits2 (Zpos m) + e) - e) as [|p|p] eqn:E; try reflexivity.
  unfold fexp in E. lia.
Qed.

Lemma finalize_carry (s : bool) (e : Z) :
  SpecFloat.emin prec emax <= e ->
  finalize prec emax s (2 ^ prec) e
  = if e + 1 <=? emax - prec then S754_finite s (Z.to_pos (2 ^ (prec - 1))) (e + 1)
    else S754_infinity s.
Proof.
  intros He. unfold finalize.
  assert (Hp : 0 < 2 ^ prec) by (apply Z.pow_pos_nonneg; lia).
  assert (Hd : Zdigits2 (2 ^ prec) = prec + 1).
  { apply Zdigits2_unique; [|lia]. replace (prec + 1 - 1) with prec by lia.
    split; [lia|]. apply Z.pow_lt_mono_r; lia. }
  pose proof (@shr_fexp_spec (2 ^ prec) 1 e ltac:(lia) ltac:(lia)) as S.
  cbv zeta in S. rewrite Z.div_1_r in S.
  assert (L : loc (2 ^ prec) 1 = loc_Exact).
  { rewrite <- (Z.mul_1_r (2 ^ prec)) at 1. apply loc_exact. lia. }
  rewrite L in S. rewrite Hd in S.
  replace (Z.max (fexp prec emax (prec + 1 + e) - e) 0) with 1 in S
    by (unfold fexp; lia).
  rewrite S. rewrite shr_m_record_of. rewrite Z.pow_1_r, Z.mul_1_l.
  assert (Hh : 2 ^ prec / 2 = 2 ^ (prec - 1)).
  { replace prec with (prec - 1 + 1) at 1 by lia.
    rewrite Z.pow_add_r by lia. rewrite Z.pow_1_r. apply Z.div_mul. lia. }
  rewrite Hh.
  assert (Hq : 0 < 2 ^ (prec - 1)) by (apply Z.pow_pos_nonneg; lia).
  destruct (2 ^ (prec - 1)) as [|q|q] eqn:Eq; try lia. reflexivity.
Qed.

End RoundAux.

Section NearestFloat.

Import Rounding.
Local Open Scope Z_scope.

Variables prec emax : Z.
Hypothesis Hprec : 0 < prec.

Lemma finalize_cases (s : bool) (m e : Z) :
  SpecFloat.emin prec emax <= e -> 0 <= m <= 2 ^ prec ->
  finalize prec emax s m e
  = if m =? 0 then S754_zero s
    else
      let n := if m =? 2 ^ prec then 1 else 0 in
      if e + n <=? emax - prec then S754_finite s (Z.to_pos (m / 2 ^ n)) (e + n)
      else S754_infinity s.
Proof.
  intros He Hm.
  assert (Hp : 0 < 2 ^ prec) by (apply Z.pow_pos_nonneg; lia).
  destruct (Z.eqb_spec m 0) as [->|Hm0]; [now apply finalize_zero|].
  destruct (Z.eqb_spec m (2 ^ prec)) as [->|Hm1]; cbv zeta.
  - rewrite finalize_carry by assumption. rewrite Z.pow_1_r.
    replace (2 ^ prec / 2) with (2 ^ (prec - 1)); [reflexivity|].
    replace prec with (prec - 1 + 1) at 2 by lia.
    rewrite Z.pow_add_r by lia. rewrite Z.pow_1_r. symmetry. apply Z.div_mul. lia.
  - rewrite Z.pow_0_r, Z.div_1_r, Z.add_0_r.
    destruct m as [|p|p]; try lia. rewrite finalize_small by (try assumption; lia).
    reflexivity.
Qed.

Lemma carry_split (m : Z) :
  0 < m <= 2 ^ prec ->
  let n := if m =? 2 ^ prec then 1 else 0 in
  m = m / 2 ^ n * 2 ^ n /\ 0 <= n <= 1 /\ 0 < m / 2 ^ n.
Proof.
  intros Hm. destruct (Z.eqb_spec m (2 ^ prec)) as [->|_]; cbv zeta.
  - assert (Hs : 2 ^ prec = 2 ^ (prec - 1) * 2).
    { replace prec with (prec - 1 + 1) at 1 by lia.
      rewrite Z.pow_add_r by lia. now rewrite Z.pow_1_r. }
    assert (Hh : 2 ^ prec / 2 = 2 ^ (prec - 1)).
    { rewrite Hs. apply Z.div_mul. lia. }
    assert (0 < 2 ^ (prec - 1)) by (apply Z.pow_pos_nonneg; lia).
    rewrite Z.pow_1_r, Hh. lia.
  - rewrite Z.pow_0_r, Z.div_1_r. lia.
Qed.

(** Of two mantissas at their exponents, the one of smaller value gives
    the smaller float. *)
Lemma finalize_le (m1 e1 m2 e2 : Z) :
  SpecFloat.emin prec emax <= e1 -> e1 <= e2 ->
  0 <= m1 <= 2 ^ prec -> 0 <= m2 <= 2 ^ prec ->
  m1 <= m2 * 2 ^ (e2 - e1) ->
  SFleb (finalize prec emax false m1 e1) (finalize prec emax false m2 e2) = true.
Proof.
  intros He1 He12 Hm1 Hm2 Hle.
  assert (Hp : 0 < 2 ^ prec) by (apply Z.pow_pos_nonneg; lia).
  assert (Hq : 0 < 2 ^ (e2 - e1)) by (apply Z.pow_pos_nonneg; lia).
  rewrite !finalize_cases by (try assumption; lia).
  destruct (Z.eqb_spec m2 0) as [->|Hn2].
  { replace m1 with 0 by lia. reflexivity. }
  destruct (Z.eqb_spec m1 0) as [->|Hn1].
  { cbv zeta. destruct (_ <=? _); reflexivity. }
  cbv zeta.
  set (n1 := if m1 =? 2 ^ prec then 1 else 0).
  set (n2 := if m2 =? 2 ^ prec then 1 else 0).
  pose proof (@carry_split m1 ltac:(lia)) as Hv1. cbv zeta in Hv1. fold n1 in Hv1.
  pose proof (@carry_split m2 ltac:(lia)) as Hv2. cbv zeta in Hv2. fold n2 in Hv2.
  assert (Hn12 : e1 + n1 <= e2 + n2).
  { destruct (Z.eq_dec e1 e2) as [E|E]; [|lia]. subst e2.
    rewrite Z.sub_diag, Z.pow_0_r, Z.mul_1_r in Hle.
    unfold n1, n2.
    destruct (Z.eqb_spec m1 (2 ^ prec)), (Z.eqb_spec m2 (2 ^ prec)); lia. }
  destruct Hv1 as (Hv1 & Hb1 & Hp1). destruct Hv2 as (Hv2 & Hb2 & Hp2).
  set (p1 := m1 / 2 ^ n1) in *. set (p2 := m2 / 2 ^ n2) in *.
  destruct (Z.leb_spec (e2 + n2) (emax - prec)) as [Hf2|Hf2].
  - destruct (Z.leb_spec (e1 + n1) (emax - prec)) as [Hf1|Hf1]; [|lia].
    unfold SFleb, SFcompare.
    destruct (Z.compare_spec (e1 + n1) (e2 + n2)) as [E|E|E]; try reflexivity; [|lia].
    assert (Hpp : p1 <= p2).
    { assert (E' : e2 - e1 = n1 - n2) by lia. rewrite E' in Hle.
      assert (n1 = n2 \/ (n1 = 1 /\ n2 = 0)) as [En|[En1 En2]] by lia.
      - rewrite En in *. rewrite Z.sub_diag, Z.pow_0_r in Hle.
        assert (0 < 2 ^ n2) by (apply Z.pow_pos_nonneg; lia). nia.
      - rewrite En1, En2 in *. change (2 ^ (1 - 0)) with 2 in Hle.
        change (2 ^ 1) with 2 in Hv1. change (2 ^ 0) with 1 in Hv2. lia. }
    change (Pos.compare_cont Eq (Z.to_pos p1) (Z.to_pos p2))
      with (Pos.compare (Z.to_pos p1) (Z.to_pos p2)).
    destruct (Pos.compare_spec (Z.to_pos p1) (Z.to_pos p2)) as [C|C|C]; try reflexivity.
    apply Pos2Z.pos_lt_pos in C. rewrite !Z2Pos.id in C by lia. lia.
  - destruct (_ <=? _); reflexivity.
Qed.

Lemma ulp_shift_nonneg (A B : Z) : 0 <= ulp_shift prec A B.
Proof. unfold ulp_shift. lia. Qed.

Lemma ulp_shift_le (A1 B1 A2 B2 : Z) :
  0 <= A1 -> 0 < B1 -> 0 < B2 -> A1 * B2 <= A2 * B1 ->
  ulp_shift prec A1 B1 <= ulp_shift prec A2 B2.
Proof.
  intros HA H1 H2 Hle. unfold ulp_shift.
  assert (Zdigits2 (A1 / B1) <= Zdigits2 (A2 / B2)).
  { apply Zdigits2_le; [now apply Z.div_pos|now apply div_cross_le]. }
  lia.
Qed.

(** The quotient is below [2 ^ (prec + shift)]. *)
Lemma ulp_shift_upper (A B : Z) :
  0 <= A -> 0 < B -> A < 2 ^ (prec + ulp_shift prec A B) * B.
Proof.
  intros HA HB. unfold ulp_shift.
  pose proof (Z.div_pos A B HA HB) as Hq.
  pose proof (Zdigits2_nonneg Hq) as Hd.
  assert (Hlt : A / B < 2 ^ (prec + Z.max (Zdigits2 (A / B) - prec) 0)).
  { destruct (Z.eq_dec (A / B) 0) as [E|E].
    - rewrite E. apply Z.pow_pos_nonneg; lia.
    - destruct (Zdigits2_bounds (m := A / B)) as [_ Hhi]; [lia|].
      eapply Z.lt_le_trans; [exact Hhi|]. apply Z.pow_le_mono_r; lia. }
  pose proof (Z.div_mod A B ltac:(lia)) as E.
  pose proof (Z.mod_pos_bound A B HB) as M. nia.
Qed.

(** When the shift is positive the quotient has [prec + shift] digits. *)
Lemma ulp_shift_lower (A B : Z) :
  0 <= A -> 0 < B -> 0 < ulp_shift prec A B ->
  2 ^ (prec + ulp_shift prec A B - 1) * B <= A.
Proof.
  intros HA HB. unfold ulp_shift. intros Hk.
  pose proof (Z.div_pos A B HA HB) as Hq.
  assert (Hd : Zdigits2 (A / B) = prec + Z.max (Zdigits2 (A / B) - prec) 0) by lia.
  assert (Hpos : 0 < A / B).
  { destruct (Z.eq_dec (A / B) 0) as [E|E]; [|lia]. rewrite E in Hk. simpl in Hk. lia. }
  destruct (Zdigits2_bounds Hpos) as [Hlo _]. rewrite Hd in Hlo at 1.
  pose proof (Z.mul_div_le A B HB). nia.
Qed.

Lemma nearest_mantissa (A B : Z) :
  0 <= A -> 0 < B -> 0 <= rnd A (B * 2 ^ ulp_shift prec A B) <= 2 ^ prec.
Proof.
  intros HA HB. set (k := ulp_shift prec A B).
  assert (Hk : 0 <= k) by apply ulp_shift_nonneg.
  assert (H2k : 0 < 2 ^ k) by (apply Z.pow_pos_nonneg; lia).
  assert (HD : 0 < B * 2 ^ k) by nia.
  split; [apply rnd_nonneg; assumption|].
  rewrite <- (rnd_exact (2 ^ prec) HD). apply rnd_mono; try assumption.
  pose proof (@ulp_shift_upper A B HA HB) as U. fold k in U.
  rewrite Z.pow_add_r in U by lia. nia.
Qed.

(** Rounding to nearest is monotone, across binades too. *)
Lemma nearest_le (A1 B1 A2 B2 : Z) :
  0 <= A1 -> 0 < B1 -> 0 <= A2 -> 0 < B2 -> A1 * B2 <= A2 * B1 ->
  SFleb (nearest prec emax false A1 B1) (nearest prec emax false A2 B2) = true.
Proof.
  intros HA1 HB1 HA2 HB2 Hle. unfold nearest.
  pose proof (@ulp_shift_le A1 B1 A2 B2 HA1 HB1 HB2 Hle) as Hk.
  pose proof (ulp_shift_nonneg A1 B1) as Hk1.
  set (k1 := ulp_shift prec A1 B1) in *. set (k2 := ulp_shift prec A2 B2) in *.
  assert (P1 : 0 < 2 ^ k1) by (apply Z.pow_pos_nonneg; lia).
  assert (P2 : 0 < 2 ^ k2) by (apply Z.pow_pos_nonneg; lia).
  assert (HD1 : 0 < B1 * 2 ^ k1) by nia.
  assert (HD2 : 0 < B2 * 2 ^ k2) by nia.
  apply finalize_le.
  - lia.
  - lia.
  - apply nearest_mantissa; assumption.
  - apply nearest_mantissa; assumption.
  - replace (SpecFloat.emin prec emax + k2 - (SpecFloat.emin prec emax + k1))
      with (k2 - k1) by lia.
    destruct (Z.eq_dec k1 k2) as [E|E].
    + rewrite <- E, Z.sub_diag, Z.pow_0_r, Z.mul_1_r. apply rnd_mono; try assumption; nia.
    + assert (Hlt : k1 < k2) by lia.
      pose proof (@nearest_mantissa A1 B1 HA1 HB1) as M1. fold k1 in M1.
      assert (M2 : 2 ^ (prec - 1) <= rnd A2 (B2 * 2 ^ k2)).
      { rewrite <- (rnd_exact (2 ^ (prec - 1)) HD2) at 1.
        apply rnd_mono; try assumption.
        pose proof (@ulp_shift_lower A2 B2 HA2 HB2 ltac:(fold k2; lia)) as L. fold k2 in L.
        assert (Hpw : 2 ^ (prec + k2 - 1) = 2 ^ (prec - 1) * 2 ^ k2).
        { replace (prec + k2 - 1) with (prec - 1 + k2) by lia.
          apply Z.pow_add_r; lia. }
        rewrite Hpw in L. nia. }
      assert (Hs : 2 ^ prec = 2 ^ (prec - 1) * 2).
      { replace prec with (prec - 1 + 1) at 1 by lia.
        rewrite Z.pow_add_r by lia. now rewrite Z.pow_1_r. }
      assert (H2 : 2 ^ 1 <= 2 ^ (k2 - k1)) by (apply Z.pow_le_mono_r; lia).
      rewrite Z.pow_1_r in H2.
      assert (0 < 2 ^ (prec - 1)) by (apply Z.pow_pos_nonneg; lia).
      nia.
Qed.

End NearestFloat.

Section Frames.

Import Rounding.
Local Open Scope Z_scope.

Variables prec emax : Z.
Hypothesis Hprec : 0 < prec.

Lemma binary_round_aux_exact (s : bool) (N e : Z) :
  0 <= N ->
  let n := Z.max (fexp prec emax (Zdigits2 N + e) - e) 0 in
  binary_round_aux prec emax s N e loc_Exact
  = finalize prec emax s (rnd N (2 ^ n)) (e + n).
Proof.
  intros HN n.
  pose proof (@binary_round_aux_spec prec emax s N 1 e HN ltac:(lia)) as S.
  cbv zeta in S. rewrite Z.div_1_r in S.
  assert (L : loc N 1 = loc_Exact).
  { rewrite <- (Z.mul_1_r N) at 1. apply loc_exact. lia. }
  rewrite L in S. fold n in S. rewrite S. now rewrite Z.mul_1_l.
Qed.

(** [binary_round] rounds the value [m * 2 ^ e], counted in units of
    [2 ^ emin], to nearest. *)
Lemma binary_round_nearest (s : bool) (m : positive) (e : Z) :
  SpecFloat.emin prec emax <= e ->
  binary_round prec emax s m e
  = nearest prec emax s (Zpos m * 2 ^ (e - SpecFloat.emin prec emax)) 1.
Proof.
  intros He. unfold binary_round.
  set (E0 := fexp prec emax (Zpos (digits2_pos m) + e)).
  pose proof (shl_align_spec m e E0) as A.
  destruct (shl_align m e E0) as [mz ez]. destruct A as [Hez Hmz].
  rewrite (@binary_round_aux_exact s (Zpos mz) ez ltac:(lia)).
  unfold nearest.
  assert (P : 0 < 2 ^ (e - SpecFloat.emin prec emax)) by (apply Z.pow_pos_nonneg; lia).
  assert (Pz : 0 < 2 ^ (e - ez)) by (apply Z.pow_pos_nonneg; lia).
  assert (Hdz : Zdigits2 (Zpos mz) + ez = Zdigits2 (Zpos m) + e).
  { rewrite Hmz, Zdigits2_mul_pow2 by lia. lia. }
  assert (Hk : ulp_shift prec (Zpos m * 2 ^ (e - SpecFloat.emin prec emax)) 1
               = E0 - SpecFloat.emin prec emax).
  { unfold ulp_shift. rewrite Z.div_1_r, Zdigits2_mul_pow2 by lia.
    unfold E0, fexp. change (Zpos (digits2_pos m)) with (Zdigits2 (Zpos m)). lia. }
  rewrite Hk, Hdz. change (Zdigits2 (Zpos m)) with (Zpos (digits2_pos m)). fold E0.
  assert (HE0 : SpecFloat.emin prec emax <= E0) by apply fexp_ge_emin.
  set (n := Z.max (E0 - ez) 0).
  assert (Hn : ez + n = E0) by lia.
  replace (SpecFloat.emin prec emax + (E0 - SpecFloat.emin prec emax)) with E0 by lia.
  rewrite Hn. f_equal.
  assert (Pn : 0 < 2 ^ n) by (apply Z.pow_pos_nonneg; lia).
  assert (Pk : 0 < 2 ^ (E0 - SpecFloat.emin prec emax)) by (apply Z.pow_pos_nonneg; lia).
  apply rnd_ext; [lia|lia|].
  rewrite Hmz, Z.mul_1_l.
  rewrite <- !Z.mul_assoc, <- !Z.pow_add_r by lia.
  f_equal. f_equal. lia.
Qed.

End Frames.

Section Operations.

Import Rounding.
Local Open Scope Z_scope.

Variables prec emax : Z.
Hypothesis Hprec : 0 < prec.

(** The sum of two finite floats: the exact sum, rounded to nearest. *)
Lemma SFadd_finite (sx : bool) (mx : positive) (ex : Z) (sy : bool) (my : positive) (ey : Z) :
  SpecFloat.emin prec emax <= ex -> SpecFloat.emin prec emax <= ey ->
  let n := scaled prec emax (S754_finite sx mx ex) + scaled prec emax (S754_finite sy my ey) in
  SFadd prec emax (S754_finite sx mx ex) (S754_finite sy my ey)
  = match n with
    | Z0 => S754_zero false
    | Zpos _ => nearest prec emax false n 1
    | Zneg _ => nearest prec emax true (- n) 1
    end.
Proof.
  intros Hex Hey n. unfold SFadd.
  set (ez := Z.min ex ey).
  pose proof (shl_align_spec mx ex ez) as Ax. pose proof (shl_align_spec my ey ez) as Ay.
  destruct (shl_align mx ex ez) as [mx' ex']. destruct (shl_align my ey ez) as [my' ey'].
  destruct Ax as [Hex' Hmx]. destruct Ay as [Hey' Hmy]. cbn [fst].
  replace ex' with ez in Hmx by lia. replace ey' with ez in Hmy by lia.
  set (N := cond_Zopp sx (Zpos mx') + cond_Zopp sy (Zpos my')).
  assert (Pz : 0 < 2 ^ (ez - SpecFloat.emin prec emax))
    by (apply Z.pow_pos_nonneg; lia).
  assert (Hn : n = N * 2 ^ (ez - SpecFloat.emin prec emax)).
  { unfold n, N, scaled. rewrite Hmx, Hmy.
    replace (ex - SpecFloat.emin prec emax)
      with (ex - ez + (ez - SpecFloat.emin prec emax)) by lia.
    replace (ey - SpecFloat.emin prec emax)
      with (ey - ez + (ez - SpecFloat.emin prec emax)) by lia.
    rewrite !Z.pow_add_r by lia.
    destruct sx, sy; cbn [cond_Zopp]; ring. }
  unfold binary_normalize.
  destruct N as [|q|q] eqn:EN.
  - rewrite Hn. reflexivity.
  - rewrite binary_round_nearest by (try assumption; lia).
    rewrite <- Hn. destruct n as [|p|p] eqn:En; try lia; reflexivity.
  - rewrite binary_round_nearest by (try assumption; lia).
    assert (Hm : - n = Zpos q * 2 ^ (ez - SpecFloat.emin prec emax)) by (rewrite Hn; lia).
    rewrite <- Hm. destruct n as [|p|p] eqn:En; try lia; reflexivity.
Qed.

(** The quotient of two finite floats: the exact quotient, rounded to
    nearest. *)
Lemma SFdiv_finite (sx : bool) (mx : positive) (ex : Z) (sy : bool) (my : positive) (ey : Z) :
  SFdiv prec emax (S754_finite sx mx ex) (S754_finite sy my ey)
  = nearest prec emax (xorb sx sy)
      (Zpos mx * 2 ^ Z.max (ex - ey - SpecFloat.emin prec emax) 0)
      (Zpos my * 2 ^ Z.max (SpecFloat.emin prec emax - (ex - ey)) 0).
Proof.
  unfold SFdiv, SFdiv_core_binary.
  set (emin := SpecFloat.emin prec emax).
  set (dx := Zdigits2 (Zpos mx)). set (dy := Zdigits2 (Zpos my)).
  set (u := ex - ey).
  replace (dx + ex - (dy + ey)) with (dx - dy + u) by lia.
  set (e' := Z.min (fexp prec emax (dx - dy + u)) u).
  set (s := u - e').
  assert (Hs : 0 <= s) by lia.
  set (m' := match s with Zpos _ => Z.shiftl (Zpos mx) s | Z0 => Zpos mx | Zneg _ => 0 end).
  assert (Hm' : m' = Zpos mx * 2 ^ s).
  { unfold m'. destruct s as [|p|p] eqn:Es;
      [rewrite Z.pow_0_r; lia|apply Z.shiftl_mul_pow2; lia|lia]. }
  assert (Ps : 0 < 2 ^ s) by (apply Z.pow_pos_nonneg; lia).
  assert (HN : 0 <= m') by nia.
  assert (HD : 0 < Zpos my) by lia.
  pose proof (Z.mod_pos_bound m' (Zpos my) HD) as Hr.
  change (Z.div_eucl m' (Zpos my)) with (Z.div_eucl m' (Zpos my)).
  assert (Hde : Z.div_eucl m' (Zpos my) = (m' / Zpos my, m' mod Zpos my)).
  { unfold Z.div, Z.modulo. now destruct (Z.div_eucl m' (Zpos my)). }
  rewrite Hde.
  rewrite (new_location_spec HD Hr).
  change (if m' mod Zpos my =? 0 then loc_Exact
          else loc_Inexact (2 * (m' mod Zpos my) ?= Zpos my))
    with (loc m' (Zpos my)).
  rewrite (@binary_round_aux_spec prec emax (xorb sx sy) m' (Zpos my) e' HN HD).
  unfold nearest.
  set (q0 := m' / Zpos my).
  set (a := Z.max (u - emin) 0). set (b := Z.max (emin - u) 0).
  set (A := Zpos mx * 2 ^ a). set (B := Zpos my * 2 ^ b).
  assert (Pa : 0 < 2 ^ a) by (apply Z.pow_pos_nonneg; lia).
  assert (Pb : 0 < 2 ^ b) by (apply Z.pow_pos_nonneg; lia).
  assert (HB : 0 < B) by (unfold B; nia).
  assert (Hq0 : 0 <= q0) by (apply Z.div_pos; assumption).
  assert (Hemin : emin <= fexp prec emax (Zdigits2 q0 + e')) by apply fexp_ge_emin.
  (* exponent of the result *)
  assert (HE : e' + Z.max (fexp prec emax (Zdigits2 q0 + e') - e') 0
               = emin + ulp_shift prec A B
               /\ ulp_shift prec A B = fexp prec emax (Zdigits2 q0 + e') - emin).
  { destruct (Z_le_gt_dec e' emin) as [Hle|Hgt].
    - (* the quotient is cut at emin *)
      set (t := emin - e').
      assert (Pt : 0 < 2 ^ t) by (apply Z.pow_pos_nonneg; lia).
      assert (HAB : A / B = q0 / 2 ^ t).
      { unfold q0. rewrite Z.div_div by lia. apply div_cross_eq; [assumption|nia|].
        unfold A, B. rewrite Hm'.
        assert (Hp : 2 ^ a * 2 ^ t = 2 ^ s * 2 ^ b).
        { rewrite <- !Z.pow_add_r by lia. f_equal. lia. }
        nia. }
      assert (Hk : ulp_shift prec A B = fexp prec emax (Zdigits2 q0 + e') - emin).
      { unfold ulp_shift. rewrite HAB, Zdigits2_div_pow2 by lia. unfold fexp.
        fold emin. lia. }
      split; [|exact Hk]. rewrite Hk. lia.
    - (* the quotient is normal *)
      assert (Hf : fexp prec emax (dx - dy + u) = dx - dy + u - prec).
      { unfold fexp. fold emin. unfold e' in Hgt. unfold fexp in Hgt. fold emin in Hgt. lia. }
      assert (Hs' : prec - dx + dy <= s) by (unfold s, e'; lia).
      assert (Hdx : 2 ^ (dx - 1) <= Zpos mx) by (apply Zdigits2_bounds; lia).
      assert (Hdy : Zpos my < 2 ^ dy) by (apply Zdigits2_bounds; lia).
      assert (Hdx1 : 1 <= dx) by (apply Zdigits2_pos; lia).
      assert (Hdy1 : 1 <= dy) by (apply Zdigits2_pos; lia).
      assert (Hbig : 2 ^ (prec - 1) <= q0).
      { unfold q0. apply Z.div_le_lower_bound; [assumption|]. rewrite Hm'.
        assert (2 ^ (prec - 1) * 2 ^ dy <= 2 ^ (dx - 1) * 2 ^ s).
        { rewrite <- !Z.pow_add_r by lia. apply Z.pow_le_mono_r; lia. }
        assert (0 < 2 ^ (prec - 1)) by (apply Z.pow_pos_nonneg; lia).
        nia. }
      assert (Hdq : prec <= Zdigits2 q0).
      { pose proof (@Zdigits2_ge_pow q0 (prec - 1) ltac:(lia) Hbig). lia. }
      assert (Hu : emin < u) by (unfold e' in Hgt; lia).
      assert (HAB : A / B = m' * 2 ^ (e' - emin) / Zpos my).
      { apply div_cross_eq; [assumption|lia|].
        unfold A, B. rewrite Hm'.
        replace b with 0 by (unfold b; lia). replace a with (s + (e' - emin)) by (unfold a, s; lia).
        rewrite Z.pow_add_r by lia. rewrite Z.pow_0_r. ring. }
      assert (Hk : ulp_shift prec A B = fexp prec emax (Zdigits2 q0 + e') - emin).
      { assert (Hq1 : 1 <= m' / Zpos my).
        { fold q0. assert (0 < 2 ^ (prec - 1)) by (apply Z.pow_pos_nonneg; lia). lia. }
        unfold ulp_shift. rewrite HAB.
        rewrite Zdigits2_scaled_div by lia.
        fold q0. unfold fexp. fold emin. lia. }
      split; [|exact Hk]. rewrite Hk. unfold fexp. fold emin. lia. }
  destruct HE as [HE Hk]. rewrite HE. f_equal.
  set (n := Z.max (fexp prec emax (Zdigits2 q0 + e') - e') 0) in *.
  set (k := ulp_shift prec A B) in *.
  assert (Hk0 : 0 <= k) by apply ulp_shift_nonneg.
  assert (Pn : 0 < 2 ^ n) by (apply Z.pow_pos_nonneg; lia).
  assert (Pk : 0 < 2 ^ k) by (apply Z.pow_pos_nonneg; lia).
  apply rnd_ext; [nia|nia|].
  unfold A, B. rewrite Hm'.
  assert (Hp : 2 ^ s * 2 ^ b * 2 ^ k = 2 ^ a * 2 ^ n).
  { rewrite <- !Z.pow_add_r by lia. f_equal. unfold s, a, b. lia. }
  nia.
Qed.

End Operations.

Section Order.

Import Rounding.
Local Open Scope Z_scope.

Variables prec emax : Z.
Hypothesis Hprec : 0 < prec.

Lemma valid_finite (s : bool) (m : positive) (e : Z) :
  SpecFloat.valid_binary prec emax (S754_finite s m e) = true ->
  SpecFloat.emin prec emax <= e <= emax - prec
  /\ Zdigits2 (Zpos m) + e - prec <= e
  /\ (SpecFloat.emin prec emax < e -> Zdigits2 (Zpos m) = prec).
Proof.
  unfold SpecFloat.valid_binary, bounded, canonical_mantissa. intros H.
  apply andb_true_iff in H as [Hc Hb].
  apply Z.eqb_eq in Hc. apply Z.leb_le in Hb.
  change (Zpos (digits2_pos m)) with (Zdigits2 (Zpos m)) in Hc.
  unfold fexp in Hc. lia.
Qed.

Lemma valid_mantissa (s : bool) (m : positive) (e : Z) :
  SpecFloat.valid_binary prec emax (S754_finite s m e) = true ->
  Zpos m < 2 ^ prec
  /\ (SpecFloat.emin prec emax < e -> 2 ^ (prec - 1) <= Zpos m).
Proof.
  intros H. destruct (@valid_finite _ _ _ H) as (_ & Hd & Hn).
  destruct (Zdigits2_bounds (m := Zpos m)) as [Hlo Hhi]; [lia|]. split.
  - eapply Z.lt_le_trans; [exact Hhi|]. apply Z.pow_le_mono_r; lia.
  - intros He. rewrite (Hn He) in Hlo. exact Hlo.
Qed.

(** On valid floats the comparison of the code is the comparison of the
    values. *)
Lemma SFleb_scaled (m1 : positive) (e1 : Z) (m2 : positive) (e2 : Z) :
  SpecFloat.valid_binary prec emax (S754_finite false m1 e1) = true ->
  SpecFloat.valid_binary prec emax (S754_finite false m2 e2) = true ->
  SFleb (S754_finite false m1 e1) (S754_finite false m2 e2) = true ->
  Zpos m1 * 2 ^ (e1 - SpecFloat.emin prec emax)
  <= Zpos m2 * 2 ^ (e2 - SpecFloat.emin prec emax).
Proof.
  intros V1 V2.
  destruct (@valid_finite _ _ _ V1) as (B1 & _ & _). destruct (@valid_finite _ _ _ V2) as (B2 & _ & _).
  destruct (@valid_mantissa _ _ _ V1) as (U1 & _). destruct (@valid_mantissa _ _ _ V2) as (_ & L2).
  set (emin := SpecFloat.emin prec emax) in *.
  unfold SFleb, SFcompare.
  destruct (Z.compare_spec e1 e2) as [E|E|E]; try discriminate.
  - subst e2.
    change (Pos.compare_cont Eq m1 m2) with (Pos.compare m1 m2).
    destruct (Pos.compare_spec m1 m2) as [C|C|C]; try discriminate; intros _.
    + subst. lia.
    + assert (0 < 2 ^ (e1 - emin)) by (apply Z.pow_pos_nonneg; lia).
      apply Pos2Z.pos_lt_pos in C. nia.
  - intros _. specialize (L2 ltac:(lia)).
    assert (P1 : 0 < 2 ^ (e1 - emin)) by (apply Z.pow_pos_nonneg; lia).
    assert (Hp : 2 ^ prec * 2 ^ (e1 - emin) <= 2 ^ (prec - 1) * 2 ^ (e2 - emin)).
    { rewrite <- !Z.pow_add_r by lia. apply Z.pow_le_mono_r; lia. }
    assert (0 < 2 ^ (e2 - emin)) by (apply Z.pow_pos_nonneg; lia).
    nia.
Qed.

Lemma SFleb_refl_finite (s : bool) (m : positive) (e : Z) :
  SFleb (S754_finite s m e) (S754_finite s m e) = true.
Proof.
  unfold SFleb, SFcompare. rewrite Z.compare_refl.
  change (Pos.compare_cont Eq m m) with (Pos.compare m m). rewrite Pos.compare_refl.
  now destruct s.
Qed.

(** A value that is a float rounds to itself. *)
Lemma nearest_valid (s : bool) (m : positive) (e : Z) :
  SpecFloat.valid_binary prec emax (S754_finite s m e) = true ->
  nearest prec emax s (Zpos m * 2 ^ (e - SpecFloat.emin prec emax)) 1
  = S754_finite s m e.
Proof.
  intros V. destruct (@valid_finite _ _ _ V) as (B & Hd & Hn).
  destruct (@valid_mantissa _ _ _ V) as (U & _).
  set (emin := SpecFloat.emin prec emax) in *.
  assert (P : 0 < 2 ^ (e - emin)) by (apply Z.pow_pos_nonneg; lia).
  unfold nearest.
  assert (Hk : ulp_shift prec (Zpos m * 2 ^ (e - emin)) 1 = e - emin).
  { unfold ulp_shift. rewrite Z.div_1_r, Zdigits2_mul_pow2 by lia.
    destruct (Z.eq_dec e emin) as [E|E]; [lia|]. rewrite Hn by lia. lia. }
  rewrite Hk, Z.mul_1_l, rnd_exact by assumption. fold emin.
  replace (emin + (e - emin)) with e by lia.
  rewrite finalize_small by (try assumption; lia).
  destruct (Z.leb_spec e (emax - prec)); [reflexivity|lia].
Qed.

(** What rounding to nearest can give. *)
Lemma nearest_shape (s : bool) (A B : Z) :
  0 <= A -> 0 < B ->
  nearest prec emax s A B = S754_zero s
  \/ nearest prec emax s A B = S754_infinity s
  \/ exists m e, nearest prec emax s A B = S754_finite s m e.
Proof.
  intros HA HB. unfold nearest.
  pose proof (ulp_shift_nonneg prec A B) as Hk.
  rewrite finalize_cases by (first [assumption|lia|now apply nearest_mantissa]).
  destruct (_ =? 0); [now left|]. cbv zeta.
  destruct (_ <=? _); [right; right; eauto|right; now left].
Qed.

Lemma SFabs_nearest (s : bool) (A B : Z) :
  0 <= A -> 0 < B -> SFabs (nearest prec emax s A B) = nearest prec emax false A B.
Proof.
  intros HA HB. unfold nearest.
  pose proof (ulp_shift_nonneg prec A B) as Hk.
  rewrite !finalize_cases by (first [assumption|lia|now apply nearest_mantissa]).
  destruct (_ =? 0); [reflexivity|]. cbv zeta.
  destruct (_ <=? _); reflexivity.
Qed.

End Order.

Section Monotone.

Import Rounding.
Local Open Scope Z_scope.

Variables prec emax : Z.
Hypothesis Hprec : 0 < prec.

Lemma nearest_negative (A B : Z) :
  0 <= A -> 0 < B ->
  SFltb (S754_zero false) (nearest prec emax true A B) = false.
Proof.
  intros HA HB.
  destruct (@nearest_shape prec emax Hprec true A B HA HB) as [E|[E|(m & e & E)]];
    rewrite E; reflexivity.
Qed.

Lemma nearest_le_infinity (A B : Z) :
  0 <= A -> 0 < B ->
  SFleb (nearest prec emax false A B) (S754_infinity false) = true.
Proof.
  intros HA HB.
  destruct (@nearest_shape prec emax Hprec false A B HA HB) as [E|[E|(m & e & E)]];
    rewrite E; reflexivity.
Qed.

Lemma zero_le_nearest (s : bool) (A B : Z) :
  0 <= A -> 0 < B ->
  SFleb (S754_zero s) (nearest prec emax false A B) = true.
Proof.
  intros HA HB.
  destruct (@nearest_shape prec emax Hprec false A B HA HB) as [E|[E|(m & e & E)]];
    rewrite E; reflexivity.
Qed.

Lemma scaled_positive (m : positive) (e : Z) :
  SpecFloat.emin prec emax <= e -> 0 < scaled prec emax (S754_finite false m e).
Proof.
  intros He. cbn [scaled cond_Zopp].
  assert (0 < 2 ^ (e - SpecFloat.emin prec emax)) by (apply Z.pow_pos_nonneg; lia). nia.
Qed.

(** A sum of two finite floats that is positive is the exact sum, which is
    positive, rounded. *)
Lemma SFadd_positive (x y : spec_float) (sx : bool) (mx : positive) (ex : Z)
      (sy : bool) (my : positive) (ey : Z) :
  x = S754_finite sx mx ex -> y = S754_finite sy my ey ->
  SpecFloat.emin prec emax <= ex -> SpecFloat.emin prec emax <= ey ->
  SFltb (S754_zero false) (SFadd prec emax x y) = true ->
  0 < scaled prec emax x + scaled prec emax y
  /\ SFadd prec emax x y
     = nearest prec emax false (scaled prec emax x + scaled prec emax y) 1.
Proof.
  intros -> -> Hex Hey. rewrite (@SFadd_finite prec emax sx mx ex sy my ey Hex Hey).
  cbv zeta.
  destruct (scaled prec emax (S754_finite sx mx ex) + scaled prec emax (S754_finite sy my ey))
    as [|p|p] eqn:En.
  - discriminate.
  - intros _. split; [lia|reflexivity].
  - rewrite nearest_negative by lia. discriminate.
Qed.

Lemma SFadd_of_positive (sx : bool) (mx : positive) (ex : Z)
      (sy : bool) (my : positive) (ey : Z) :
  SpecFloat.emin prec emax <= ex -> SpecFloat.emin prec emax <= ey ->
  0 < scaled prec emax (S754_finite sx mx ex) + scaled prec emax (S754_finite sy my ey) ->
  SFadd prec emax (S754_finite sx mx ex) (S754_finite sy my ey)
  = nearest prec emax false
      (scaled prec emax (S754_finite sx mx ex) + scaled prec emax (S754_finite sy my ey)) 1.
Proof.
  intros Hex Hey Hn. rewrite (@SFadd_finite prec emax sx mx ex sy my ey Hex Hey).
  cbv zeta.
  destruct (scaled prec emax (S754_finite sx mx ex) + scaled prec emax (S754_finite sy my ey))
    as [|p|p] eqn:En; try lia. reflexivity.
Qed.

(** Adding a larger non-negative number to [s] gives a larger sum, when
    the smaller sum is positive. *)
Lemma SFadd_mono (s r1 r2 : spec_float) :
  SpecFloat.valid_binary prec emax s = true ->
  SpecFloat.valid_binary prec emax r1 = true ->
  SpecFloat.valid_binary prec emax r2 = true ->
  SFleb (S754_zero false) r1 = true ->
  SFleb r1 r2 = true ->
  SFltb (S754_zero false) (SFadd prec emax s r1) = true ->
  SFleb (SFadd prec emax s r1) (SFadd prec emax s r2) = true.
Proof.
  intros Vs V1 V2 H0 H12 Hpos.
  destruct s as [ss|[|]| |ss ms es].
  - (* s is a zero *)
    destruct r1 as [s1|[|]| |[|] m1 e1]; try discriminate H0;
      destruct r2 as [s2|[|]| |[|] m2 e2]; try discriminate H12;
      try (destruct ss, s1; discriminate Hpos);
      try reflexivity; exact H12.
  - (* minus infinity *)
    destruct r1 as [s1|[|]| |[|] m1 e1]; try discriminate H0; discriminate Hpos.
  - (* plus infinity *)
    destruct r1 as [s1|[|]| |[|] m1 e1]; try discriminate H0;
      destruct r2 as [s2|[|]| |[|] m2 e2]; try discriminate H12; reflexivity.
  - discriminate Hpos.
  - (* s is finite *)
    destruct (@valid_finite prec emax ss ms es Vs) as (Bs & _ & _).
    destruct r1 as [s1|[|]| |[|] m1 e1]; try discriminate H0.
    + (* r1 is a zero: the sum is s *)
      change (SFadd prec emax (S754_finite ss ms es) (S754_zero s1))
        with (S754_finite ss ms es) in *.
      destruct ss; [discriminate Hpos|].
      destruct r2 as [s2|[|]| |[|] m2 e2]; try discriminate H12.
      * apply SFleb_refl_finite.
      * reflexivity.
      * destruct (@valid_finite prec emax false m2 e2 V2) as (B2 & _ & _).
        pose proof (@scaled_positive ms es ltac:(lia)) as Ps.
        pose proof (@scaled_positive m2 e2 ltac:(lia)) as P2.
        rewrite SFadd_of_positive by lia.
        rewrite <- (@nearest_valid prec emax Hprec false ms es Vs) at 1.
        apply nearest_le; try lia; cbn [scaled cond_Zopp] in *; lia.
    + (* r1 is plus infinity *)
      destruct r2 as [s2|[|]| |[|] m2 e2]; try discriminate H12. reflexivity.
    + (* r1 is finite *)
      destruct (@valid_finite prec emax false m1 e1 V1) as (B1 & _ & _).
      destruct (@SFadd_positive _ _ ss ms es false m1 e1 eq_refl eq_refl
                  ltac:(lia) ltac:(lia) Hpos) as [Hn1 E1].
      rewrite E1.
      destruct r2 as [s2|[|]| |[|] m2 e2]; try discriminate H12.
      * apply nearest_le_infinity; lia.
      * destruct (@valid_finite prec emax false m2 e2 V2) as (B2 & _ & _).
        pose proof (@SFleb_scaled prec emax Hprec m1 e1 m2 e2 V1 V2 H12) as Hle.
        rewrite SFadd_of_positive by (cbn [scaled cond_Zopp] in *; lia).
        apply nearest_le; try lia; cbn [scaled cond_Zopp] in *; lia.
Qed.

(** Dividing a finite number by a larger positive number gives a quotient
    that is smaller in absolute value. *)
Lemma SFdiv_antitone (x d1 d2 : spec_float) :
  SpecFloat.valid_binary prec emax d1 = true ->
  SpecFloat.valid_binary prec emax d2 = true ->
  (forall s, x <> S754_infinity s) -> x <> S754_nan ->
  SFltb (S754_zero false) d1 = true ->
  SFleb d1 d2 = true ->
  SFleb (SFabs (SFdiv prec emax x d2)) (SFabs (SFdiv prec emax x d1)) = true.
Proof.
  intros V1 V2 Hinf Hnan Hpos H12.
  destruct d1 as [s1|[|]| |[|] m1 e1]; try discriminate Hpos;
    destruct d2 as [s2|[|]| |[|] m2 e2]; try discriminate H12;
    destruct x as [sx|sx| |sx mx ex]; try (now elim Hnan); try (now elim (Hinf sx));
    try reflexivity.
  - (* finite by infinity, against finite by finite *)
    rewrite SFdiv_finite by assumption.
    assert (Pa : forall z, 0 < 2 ^ Z.max z 0) by (intros z; apply Z.pow_pos_nonneg; lia).
    pose proof (Pa (ex - e1 - SpecFloat.emin prec emax)).
    pose proof (Pa (SpecFloat.emin prec emax - (ex - e1))).
    rewrite SFabs_nearest by (try assumption; nia).
    apply zero_le_nearest; nia.
  - (* finite by finite, twice *)
    rewrite !SFdiv_finite by assumption.
    destruct (@valid_finite prec emax false m1 e1 V1) as (B1 & _ & _).
    destruct (@valid_finite prec emax false m2 e2 V2) as (B2 & _ & _).
    pose proof (@SFleb_scaled prec emax Hprec m1 e1 m2 e2 V1 V2 H12) as Hle.
    set (emin := SpecFloat.emin prec emax) in *.
    set (a1 := Z.max (ex - e1 - emin) 0). set (b1 := Z.max (emin - (ex - e1)) 0).
    set (a2 := Z.max (ex - e2 - emin) 0). set (b2 := Z.max (emin - (ex - e2)) 0).
    assert (Pa1 : 0 < 2 ^ a1) by (apply Z.pow_pos_nonneg; lia).
    assert (Pb1 : 0 < 2 ^ b1) by (apply Z.pow_pos_nonneg; lia).
    assert (Pa2 : 0 < 2 ^ a2) by (apply Z.pow_pos_nonneg; lia).
    assert (Pb2 : 0 < 2 ^ b2) by (apply Z.pow_pos_nonneg; lia).
    rewrite !SFabs_nearest by (try assumption; nia).
    apply nearest_le; try assumption; try nia.
    set (P1 := 2 ^ (e1 - emin)) in *. set (P2 := 2 ^ (e2 - emin)) in *.
    assert (PP1 : 0 < P1) by (apply Z.pow_pos_nonneg; lia).
    assert (PP2 : 0 < P2) by (apply Z.pow_pos_nonneg; lia).
    assert (T : 2 ^ a2 * 2 ^ b1 * P2 = 2 ^ a1 * 2 ^ b2 * P1).
    { unfold P1, P2. rewrite <- !Z.pow_add_r by lia. f_equal. unfold a1, a2, b1, b2. lia. }
    set (c := 2 ^ a2 * 2 ^ b1) in *. set (c' := 2 ^ a1 * 2 ^ b2) in *.
    assert (Pc : 0 < c) by (unfold c; nia). assert (Pc' : 0 < c') by (unfold c'; nia).
    assert (Hm : Zpos m1 * c <= Zpos m2 * c').
    { apply Z.mul_le_mono_pos_r with (p := P1 * P2); [nia|].
      replace (Zpos m1 * c * (P1 * P2)) with (Zpos m1 * P1 * (c * P2)) by ring.
      replace (Zpos m2 * c' * (P1 * P2)) with (Zpos m2 * P2 * (c' * P1)) by ring.
      rewrite T. apply Z.mul_le_mono_nonneg_r; nia. }
    unfold c, c' in Hm. nia.
Qed.

End Monotone.

(** ** C6: the gain against the observation-error variance *)

Section GainOnBinary64.

Lemma prec_positive : (0 < FloatOps.prec)%Z.
Proof. reflexivity. Qed.

(** Binary64 addition is monotone in its second argument, where the sum
    is positive. *)
Lemma add_mono (s r1 r2 : float) :
  PrimFloat.leb 0 r1 = true ->
  PrimFloat.leb r1 r2 = true ->
  PrimFloat.ltb 0 (PrimFloat.add s r1) = true ->
  PrimFloat.leb (PrimFloat.add s r1) (PrimFloat.add s r2) = true.
Proof.
  rewrite !leb_spec, ltb_spec, !add_spec.
  change (Prim2SF 0) with (S754_zero false).
  apply (@SFadd_mono FloatOps.prec FloatOps.emax prec_positive); apply Prim2SF_valid.
Qed.

(** Binary64 division of a finite number is antitone, in absolute value,
    in a positive divisor. *)
Lemma div_antitone (x d1 d2 : float) :
  is_finite x = true ->
  PrimFloat.ltb 0 d1 = true ->
  PrimFloat.leb d1 d2 = true ->
  PrimFloat.leb (abs (PrimFloat.div x d2)) (abs (PrimFloat.div x d1)) = true.
Proof.
  intros Hx. rewrite !leb_spec, ltb_spec, !abs_spec, !div_spec.
  change (Prim2SF 0) with (S754_zero false).
  apply Binary64.is_finite_spec in Hx.
  apply (@SFdiv_antitone FloatOps.prec FloatOps.emax prec_positive); try apply Prim2SF_valid.
  - intros s E. destruct Hx as [[z Hz]|(z & m & e & Hz)]; congruence.
  - intros E. destruct Hx as [[z Hz]|(z & m & e & Hz)]; congruence.
Qed.

Lemma K_antitone (num : list float) (d1 d2 : float) :
  Forall (fun x => is_finite x = true) num ->
  PrimFloat.ltb 0 d1 = true ->
  PrimFloat.leb d1 d2 = true ->
  Forall2 (fun k2 k1 => PrimFloat.leb (abs k2) (abs k1) = true) (K num d2) (K num d1).
Proof.
  intros Hnum H1 H12. unfold K.
  induction Hnum as [|x num Hx _ IH]; cbn [map]; constructor.
  - now apply div_antitone.
  - exact IH.
Qed.

End GainOnBinary64.

Unset Implicit Arguments.

(** C6, as the code has it.  With [Pb] and [Hdot] fixed and every entry of
    the numerator [Pb . Hdot^T] finite, for all [0 <= R1 <= R2] such that
    the denominator computed with [R1] is positive, the denominator
    computed with [R2] is at least as large, and every element of the gain
    computed with [R2] is at most, in absolute value, the element computed
    with [R1]: on binary64, with the roundings of the sum and of the
    quotients. *)
Theorem C6_gain_monotone_in_R :
  forall (pb : list (list float)) (hdot : list float) (r1 r2 : float),
    let num := Num pb hdot in
    Forall (fun x => is_finite x = true) num ->
    PrimFloat.leb 0 r1 = true ->
    PrimFloat.leb r1 r2 = true ->
    PrimFloat.ltb 0 (Den hdot num r1) = true ->
    PrimFloat.leb (Den hdot num r1) (Den hdot num r2) = true
    /\ length (K num (Den hdot num r2)) = length (K num (Den hdot num r1))
    /\ Forall2 (fun k2 k1 => PrimFloat.leb (abs k2) (abs k1) = true)
               (K num (Den hdot num r2)) (K num (Den hdot num r1)).
Proof.
  intros pb hdot r1 r2 num Hnum H0 H12 Hpos.
  assert (Hden : PrimFloat.leb (Den hdot num r1) (Den hdot num r2) = true).
  { unfold Den in *. cbn [add float_scalar] in *. now apply add_mono. }
  split; [exact Hden|]. split; [now rewrite !K_length|].
  now apply K_antitone.
Qed.

(** C6 on the neighbourhood [2.0; 2.0] with the draws 0.5, for the
    measurements 2.0 and 4.0: R1 = 1.0 and R2 = 4.0, the denominators are
    2.0 and 5.0, the gains 1/2 and 1/5. *)
Lemma C6_witness :
  let pb := Pb (eb [2.0%float; 2.0%float] [0.5%float; 0.5%float]) in
  let hdot := Hdot 2 in
  let r1 := R 2.0%float in
  let r2 := R 4.0%float in
  let num := Num pb hdot in
  (Forall (fun x => is_finite x = true) num
   /\ PrimFloat.leb 0 r1 = true /\ PrimFloat.leb r1 r2 = true
   /\ PrimFloat.ltb 0 (Den hdot num r1) = true)
  /\ (PrimFloat.leb (Den hdot num r1) (Den hdot num r2) = true
      /\ length (K num (Den hdot num r2)) = length (K num (Den hdot num r1))
      /\ Forall2 (fun k2 k1 => PrimFloat.leb (abs k2) (abs k1) = true)
                 (K num (Den hdot num r2)) (K num (Den hdot num r1)))
  /\ K num (Den hdot num r1) = [0.5%float; 0.5%float]
  /\ K num (Den hdot num r2) = [0x1.999999999999ap-3%float; 0x1.999999999999ap-3%float].
Proof.
  cbv zeta.
  assert (Hnum : Forall (fun x => is_finite x = true)
                   (Num (Pb (eb [2.0%float; 2.0%float] [0.5%float; 0.5%float])) (Hdot 2))).
  { repeat constructor. }
  assert (H0 : PrimFloat.leb 0 (R 2.0%float) = true) by (vm_compute; reflexivity).
  assert (H12 : PrimFloat.leb (R 2.0%float) (R 4.0%float) = true) by (vm_compute; reflexivity).
  assert (Hpos : PrimFloat.ltb 0
                   (Den (Hdot 2)
                      (Num (Pb (eb [2.0%float; 2.0%float] [0.5%float; 0.5%float])) (Hdot 2))
                      (R 2.0%float)) = true) by (vm_compute; reflexivity).
  split; [repeat split; assumption|]. split.
  - exact (@C6_gain_monotone_in_R
             (Pb (eb [2.0%float; 2.0%float] [0.5%float; 0.5%float])) (Hdot 2)
             (R 2.0%float) (R 4.0%float) Hnum H0 H12 Hpos).
  - split; vm_compute; reflexivity.
Defined.
(** C6, as stated, fails on binary64.  With a fine cell that holds 0.0 the
    numerator is 0.0: at R1 = 0.0 the gain is 0.0 / 0.0, a NaN, at R2 = 1.0
    it is 0.0, and [0.0 <= NaN] is false.  With a fine cell that holds
    2^700 and the draw 0.5 the numerator overflows to infinity: at R1 = 1.0
    and at R2 = 4.0 the gain is infinity / infinity, a NaN, and
    [NaN <= NaN] is false. *)
Lemma C6_counterexample :
  (let hdot := Hdot 1 in
   let num := Num (Pb (eb [0.0%float] [0.25%float])) hdot in
   let k1 := K num (Den hdot num (R 0.0%float)) in
   let k2 := K num (Den hdot num (R 2.0%float)) in
   R 0.0%float = 0.0%float /\ R 2.0%float = 1.0%float
   /\ PrimFloat.leb 0.0%float 1.0%float = true
   /\ k1 = [nan] /\ k2 = [0.0%float]
   /\ map2 (fun g2 g1 => PrimFloat.leb (abs g2) (abs g1)) k2 k1 = [false])
  /\ (let hdot := Hdot 1 in
      let num := Num (Pb (eb [0x1p700%float] [0.5%float])) hdot in
      let k1 := K num (Den hdot num (R 2.0%float)) in
      let k2 := K num (Den hdot num (R 4.0%float)) in
      R 2.0%float = 1.0%float /\ R 4.0%float = 4.0%float
      /\ PrimFloat.ltb 0.0%float 1.0%float = true
      /\ PrimFloat.leb 1.0%float 4.0%float = true
      /\ num = [infinity]
      /\ k1 = [nan] /\ k2 = [nan]
      /\ map2 (fun g2 g1 => PrimFloat.leb (abs g2) (abs g1)) k2 k1 = [false]).
Proof. split; repeat split; vm_compute; reflexivity. Qed.

(** The denominator has to be positive.  Two fine cells of nearly opposite
    values, with the draws 0.5, give, in the sums as they are added here,
    [Hdot . Pb . Hdot^T = - 2^-53], a rounding error below zero: with
    R1 = 2^-56 and R2 = 2^-54 both denominators are negative, and the gain
    grows from R1 to R2. *)
Remark negative_denominator :
  let xb0 := [0x1.e032cp+1%float; (-0x1.e032c00000006p+1)%float] in
  let hdot := Hdot 2 in
  let num := Num (Pb (eb xb0 [0.5%float; 0.5%float])) hdot in
  let r1 := R 0x1p-27%float in
  let r2 := R 0x1p-26%float in
  dot hdot num = (-0x1p-53)%float
  /\ map is_finite num = [true; true]
  /\ PrimFloat.ltb 0 r1 = true /\ PrimFloat.leb r1 r2 = true
  /\ PrimFloat.ltb (Den hdot num r1) 0 = true
  /\ K num (Den hdot num r2) = [24.0%float; (-20.0)%float]
  /\ map2 (fun g2 g1 => PrimFloat.leb (abs g2) (abs g1))
          (K num (Den hdot num r2)) (K num (Den hdot num r1)) = [false; false].
Proof. cbv zeta. repeat split; vm_compute; reflexivity. Qed.

(** * Further properties of [optimal_interpolation] *)

Section EstimatorOutcome.

Context {F : Type} {ops : Scalar F}.

Lemma xb_complete (back_sel : list (list (pyval F))) :
  if forallb complete back_sel
  then exists xb0, xb back_sel = inr xb0
  else xb back_sel = inl IndexError.
Proof.
  unfold xb. induction back_sel as [|itm back_sel IH]; cbn [forallb mapM].
  - eauto.
  - unfold complete at 1.
    destruct (nth_error itm 2) as [v|] eqn:Ev.
    + assert (Hl : (3 <=? length itm) = true).
      { apply Nat.leb_le. apply nth_error_Some. congruence. }
      rewrite Hl. cbn [andb option_map of_option].
      destruct (forallb complete back_sel).
      * destruct IH as [xb0 ->]. eauto.
      * now rewrite IH.
    + assert (Hl : (3 <=? length itm) = false).
      { apply Nat.leb_gt. apply nth_error_None in Ev. lia. }
      rewrite Hl. reflexivity.
Qed.

Lemma iadd_address (syn : list (list F)) (m n : pyval F) (v : F) :
  match address (map (@length F) syn) [m; n] with
  | Some _ => exists syn', iadd syn m n v = inr syn'
  | None => iadd syn m n v = inl IndexError
  end.
Proof.
  unfold address, iadd, bind. cbn [nth_error]. rewrite length_map.
  destruct (py_index (length syn) m) as [e|i] eqn:Ei.
  - unfold py_index in Ei. destruct m; [|injection Ei as <-; reflexivity].
    repeat match type of Ei with
           | (if ?b then _ else _) = _ => destruct b
           end; try discriminate. now injection Ei as <-.
  - pose proof (py_index_bound _ _ _ Ei) as Hi.
    rewrite nth_error_map.
    destruct (nth_error syn i) as [row|] eqn:Er;
      [|apply nth_error_None in Er; lia].
    cbn [option_map of_option].
    destruct (py_index (length row) n) as [e|j] eqn:Ej.
    + unfold py_index in Ej. destruct n; [|injection Ej as <-; reflexivity].
      repeat match type of Ej with
             | (if ?b then _ else _) = _ => destruct b
             end; try discriminate. now injection Ej as <-.
    + pose proof (py_index_bound _ _ _ Ej) as Hj.
      destruct (nth_error row j) as [old|] eqn:Eo;
        [|apply nth_error_None in Eo; lia].
      cbn [of_option]. eauto.
Qed.

Lemma address_items (lens : list nat) (itm : list (pyval F)) (m n : pyval F) :
  nth_error itm 0 = Some m -> nth_error itm 1 = Some n ->
  address lens itm = address lens [m; n].
Proof. unfold address. intros -> ->. reflexivity. Qed.

(** When the loop of lines 68-71 raises, it raises [IndexError] at the
    first item that addresses no cell, and the grid is the one the items
    before it have left. *)
Lemma load_stops (back_sel : list (list (pyval F))) :
  forall (xa0 : list F) (syn syn' : list (list F)) (e : exn),
    load syn back_sel xa0 = (syn', Some e) ->
    exists k itm,
      nth_error back_sel k = Some itm /\ k < length xa0 /\
      address (map (@length F) syn) itm = None /\
      e = IndexError /\
      load syn (firstn k back_sel) (firstn k xa0) = (syn', None).
Proof.
  induction back_sel as [|itm back_sel IH]; intros xa0 syn syn' e.
  - simpl. discriminate.
  - destruct xa0 as [|v xa0]; [simpl; discriminate|]. cbn [load]. unfold bind.
    destruct (nth_error itm 0) as [m|] eqn:Em; cbn [of_option].
    2:{ intros [= <- <-]. exists 0, itm. repeat split; simpl; try lia.
        unfold address. now rewrite Em. }
    destruct (nth_error itm 1) as [n|] eqn:En; cbn [of_option].
    2:{ intros [= <- <-]. exists 0, itm. repeat split; simpl; try lia.
        unfold address. now rewrite Em, En. }
    pose proof (iadd_address syn m n v) as Ha.
    rewrite <- (address_items _ itm m n Em En) in Ha.
    destruct (address (map (@length F) syn) itm) as [p|] eqn:Ead.
    + destruct Ha as [syn1 Hi]. rewrite Hi. intros Hl.
      destruct (IH _ _ _ _ Hl) as (k & itm' & Hk & Hlt & Hnone & He & Hpre).
      pose proof (iadd_same_shape _ _ _ _ _ Hi) as Hs. unfold same_shape in Hs.
      exists (S k), itm'.
      split; [exact Hk|]. split; [simpl; lia|]. split; [now rewrite <- Hs|].
      split; [exact He|]. cbn [firstn load]. unfold bind.
      rewrite Em, En. cbn [of_option]. now rewrite Hi.
    + rewrite Ha. intros [= <- <-]. exists 0, itm. repeat split; simpl; try lia; auto.
Qed.

Lemma addresses_spec (lens : list nat) (itm : list (pyval F)) (i j : nat) :
  addresses lens itm i j = true <-> hits lens itm i j.
Proof.
  unfold addresses, hits. destruct (address lens itm) as [[a b]|].
  - rewrite andb_true_iff, !Nat.eqb_eq. split; [intros [-> ->]; reflexivity|].
    now intros [= -> ->].
  - split; discriminate.
Qed.

(** Every cell of the grid after the loop is the cell before it, plus, one
    after the other, the analysis elements of the items that address it. *)
Lemma load_accumulates (back_sel : list (list (pyval F))) :
  forall (xa0 : list F) (syn syn' : list (list F)) (i j : nat),
    load syn back_sel xa0 = (syn', None) ->
    nth2 syn' i j
    = option_map (fun old => fold_left (add (F:=F))
                               (written (map (@length F) syn) back_sel xa0 i j) old)
                 (nth2 syn i j).
Proof.
  induction back_sel as [|itm back_sel IH]; intros xa0 syn syn' i j.
  - simpl. intros [= <-]. unfold written. simpl. now destruct (nth2 syn i j).
  - destruct xa0 as [|v xa0].
    + simpl. intros [= <-]. unfold written. simpl. now destruct (nth2 syn i j).
    + intros Hl.
      destruct (load_cons_inv _ _ _ _ _ _ Hl) as (m & n & syn1 & Hm & Hn & Hi & Hl1).
      pose proof (iadd_same_shape _ _ _ _ _ Hi) as Hs. unfold same_shape in Hs.
      destruct (iadd_cell _ _ _ _ _ Hi) as (i0 & j0 & old & Hh0 & Hold & Hnew & Hother).
      apply (hits_items _ _ _ _ _ _ Hm Hn) in Hh0.
      rewrite (IH _ _ _ i j Hl1), Hs. unfold written. cbn [combine filter fst].
      destruct (addresses (map (@length F) syn) itm i j) eqn:Ead.
      * apply addresses_spec in Ead.
        injection (hits_functional _ _ _ _ _ _ Ead Hh0) as -> ->.
        rewrite Hnew, Hold. reflexivity.
      * rewrite Hother; [reflexivity|].
        intros [= -> ->]. apply addresses_spec in Hh0. congruence.
Qed.

End EstimatorOutcome.

(** X1.  The outcome of a call of [optimal_interpolation] on items whose
    values are floats, in the order in which the code fails: an item with
    fewer than three entries gives [IndexError] (line 23), whatever the
    measurement and the operator name; otherwise a measurement that is a
    Python float whose halved square overflows gives [OverflowError]
    (line 27); otherwise a name other than "mean" gives
    [NotImplementedError]; otherwise an empty neighbourhood gives
    [ZeroDivisionError]; in these four cases the grid is untouched.
    Otherwise the analysis is computed, one element per item, and only the
    loop that writes it can still fail. *)
Theorem X1_estimator_outcome :
  forall (err : nat -> float) (syn : list (list float)) (y_meas : Caller.measurement)
         (back_sel : list (list (pyval float))) (map_func : string),
    forallb float_valued back_sel = true ->
    if negb (forallb complete back_sel) then
      Caller.optimal_interpolation err syn y_meas back_sel map_func
      = (syn, Some IndexError)
    else if Caller.overflows y_meas then
      Caller.optimal_interpolation err syn y_meas back_sel map_func
      = (syn, Some OverflowError)
    else if negb (String.eqb map_func "mean") then
      Caller.optimal_interpolation err syn y_meas back_sel map_func
      = (syn, Some (NotImplementedError (unsupported_message map_func)))
    else
      match back_sel with
      | [] => Caller.optimal_interpolation err syn y_meas back_sel map_func
              = (syn, Some ZeroDivisionError)
      | _ :: _ =>
          exists v, Caller.analysis err y_meas back_sel map_func = inr v
                    /\ analysis err (Caller.value y_meas) back_sel map_func = inr v
                    /\ length v = length back_sel
                    /\ Caller.optimal_interpolation err syn y_meas back_sel map_func
                       = load syn back_sel v
      end.
Proof.
  intros err syn y_meas back_sel map_func _.
  pose proof (xb_complete back_sel) as Hxb.
  unfold Caller.optimal_interpolation. rewrite caller_analysis_cases.
  destruct (forallb complete back_sel); cbn [negb].
  - destruct Hxb as [xb0 Hxb]. rewrite Hxb.
    destruct (Caller.overflows y_meas); [reflexivity|].
    set (y := Caller.value y_meas).
    destruct (String.eqb map_func "mean") eqn:Hm; cbn [negb].
    + apply String.eqb_eq in Hm. subst map_func.
      destruct back_sel as [|itm back_sel].
      * simpl in Hxb. injection Hxb as <-. reflexivity.
      * assert (Hn : 1 <= length xb0).
        { rewrite (mapM_length _ _ _ Hxb). simpl. lia. }
        pose proof (analysis_mean err y _ xb0 Hxb Hn) as Ha.
        destruct (analysis_inv _ _ _ _ _ Ha) as (_ & _ & _ & _ & Hlen & _).
        eexists. split; [exact Ha|]. split; [exact Ha|]. split; [exact Hlen|].
        now rewrite Ha.
    + apply String.eqb_neq in Hm.
      pose proof (optimal_interpolation_unsupported err syn y back_sel map_func xb0 Hxb Hm)
        as Ho.
      exact Ho.
  - now rewrite Hxb.
Qed.

(** X1 on a Python float 2^600 under the name "median": the overflow of
    line 27 comes before the check of the name. *)
Lemma X1_witness :
  let back_sel := [[PInt 0; PInt 0; PFloat 1.0%float]] in
  forallb float_valued back_sel = true
  /\ Caller.optimal_interpolation (fun _ => 0.25%float) [[0.0%float]]
       (Caller.python_float 0x1p600%float) back_sel "median"
     = ([[0.0%float]], Some OverflowError).
Proof.
  cbv zeta. split; [reflexivity|].
  exact (@X1_estimator_outcome (fun _ => 0.25%float) [[0.0%float]]
           (Caller.python_float 0x1p600%float)
           [[PInt 0; PInt 0; PFloat 1.0%float]] "median" eq_refl).
Defined.

(** X2.  The grid is updated in place, item by item: a call that raises
    after the analysis has been computed raises [IndexError] at the first
    item that addresses no cell of the grid, and leaves in the grid the
    additions of all the items before it; a call that raises earlier leaves
    the grid as it was. *)
Theorem X2_partial_update {F : Type} {ops : Scalar F} :
  forall (err : nat -> F) (syn syn' : list (list F)) (y : F)
         (back_sel : list (list (pyval F))) (map_func : string) (e : exn),
    optimal_interpolation err syn y back_sel map_func = (syn', Some e) ->
    (analysis err y back_sel map_func = inl e /\ syn' = syn)
    \/ (exists xa0 k itm,
          analysis err y back_sel map_func = inr xa0
          /\ nth_error back_sel k = Some itm
          /\ address (map (@length F) syn) itm = None
          /\ e = IndexError
          /\ load syn (firstn k back_sel) (firstn k xa0) = (syn', None)
          /\ same_shape syn' syn).
Proof.
  intros err syn syn' y back_sel map_func e. unfold optimal_interpolation.
  destruct (analysis err y back_sel map_func) as [e0|xa0] eqn:Ha.
  - intros [= <- <-]. now left.
  - intros Hl. right.
    destruct (load_stops _ _ _ _ _ Hl) as (k & itm & Hk & _ & Hnone & He & Hpre).
    exists xa0, k, itm. repeat split; auto.
    now destruct (load_frame _ _ _ _ Hpre).
Qed.

(** X2 on a 2 x 2 grid: the first item is written, the second has a row
    index out of range. *)
Lemma X2_witness :
  let err := fun _ : nat => 0.25%float in
  let syn := [[0.0%float; 0.0%float]; [0.0%float; 0.0%float]] in
  let syn' := [[1.0%float; 0.0%float]; [0.0%float; 0.0%float]] in
  let back_sel := [[PInt 0; PInt 0; PFloat 1.0%float];
                   [PInt 2; PInt 0; PFloat 3.0%float]] in
  optimal_interpolation err syn 2.0%float back_sel "mean" = (syn', Some IndexError)
  /\ ((analysis err 2.0%float back_sel "mean" = inl IndexError /\ syn' = syn)
      \/ (exists xa0 k itm,
            analysis err 2.0%float back_sel "mean" = inr xa0
            /\ nth_error back_sel k = Some itm
            /\ address (map (@length float) syn) itm = None
            /\ IndexError = IndexError
            /\ load syn (firstn k back_sel) (firstn k xa0) = (syn', None)
            /\ same_shape syn' syn)).
Proof.
  cbv zeta.
  assert (Ho : optimal_interpolation (fun _ : nat => 0.25%float)
                 [[0.0%float; 0.0%float]; [0.0%float; 0.0%float]] 2.0%float
                 [[PInt 0; PInt 0; PFloat 1.0%float]; [PInt 2; PInt 0; PFloat 3.0%float]]
                 "mean"
               = ([[1.0%float; 0.0%float]; [0.0%float; 0.0%float]], Some IndexError))
    by (vm_compute; reflexivity).
  split; [exact Ho|].
  exact (X2_partial_update _ _ _ _ _ _ _ Ho).
Defined.

(** X3.  After a call that returns, every cell of the grid holds what it
    held before plus, added one after the other in the order of the
    neighbourhood, the analysis elements of all the items that address it:
    items that address the same cell accumulate, nothing is normalised. *)
Theorem X3_overlapping_writes_accumulate {F : Type} {ops : Scalar F} :
  forall (err : nat -> F) (syn syn' : list (list F)) (y : F)
         (back_sel : list (list (pyval F))) (map_func : string),
    optimal_interpolation err syn y back_sel map_func = (syn', None) ->
    exists xa0,
      analysis err y back_sel map_func = inr xa0
      /\ forall i j,
           nth2 syn' i j
           = option_map
               (fun old => fold_left (add (F:=F))
                             (written (map (@length F) syn) back_sel xa0 i j) old)
               (nth2 syn i j).
Proof.
  intros err syn syn' y back_sel map_func Ho.
  destruct (optimal_interpolation_inv _ _ _ _ _ _ Ho) as (xa0 & Ha & _ & Hl).
  exists xa0. split; [exact Ha|]. intros i j. now apply load_accumulates.
Qed.

(** X3 on a 1 x 2 grid: both items address the cell (0, 1), the second
    from the end of the row. *)
Lemma X3_witness :
  let err := fun _ : nat => 0.25%float in
  let syn := [[0.0%float; 10.0%float]] in
  let syn' := [[0.0%float; 14.0%float]] in
  let back_sel := [[PInt 0; PInt 1; PFloat 1.0%float];
                   [PInt 0; PInt (-1); PFloat 3.0%float]] in
  optimal_interpolation err syn 2.0%float back_sel "mean" = (syn', None)
  /\ exists xa0,
       analysis err 2.0%float back_sel "mean" = inr xa0
       /\ forall i j,
            nth2 syn' i j
            = option_map
                (fun old => fold_left (add (F:=float))
                              (written (map (@length float) syn) back_sel xa0 i j) old)
                (nth2 syn i j).
Proof.
  cbv zeta.
  assert (Ho : optimal_interpolation (fun _ : nat => 0.25%float)
                 [[0.0%float; 10.0%float]] 2.0%float
                 [[PInt 0; PInt 1; PFloat 1.0%float]; [PInt 0; PInt (-1); PFloat 3.0%float]]
                 "mean"
               = ([[0.0%float; 14.0%float]], None))
    by (vm_compute; reflexivity).
  split; [exact Ho|].
  exact (X3_overlapping_writes_accumulate _ _ _ _ _ _ Ho).
Defined.

(** * Further properties of [processor] *)

Lemma mapM_error {A B} (f : A -> exn + B) (l : list A) (e : exn) :
  mapM f l = inl e -> exists a, In a l /\ f a = inl e.
Proof.
  induction l as [|a l IH]; simpl; [discriminate|].
  destruct (f a) as [e0|b] eqn:Ea.
  - intros [= <-]. eauto.
  - destruct (mapM f l) as [e0|bs]; [|discriminate].
    intros [= <-]. destruct (IH eq_refl) as (a' & Hin & Ha'). eauto.
Qed.

Lemma In_stretch {A} (n : nat) (l : list A) (x : A) :
  In x (stretch n l) -> In x l.
Proof.
  destruct l as [|a [|b l]]; cbn [stretch]; auto.
  intros Hin. apply repeat_spec in Hin. subst x. now left.
Qed.

Lemma bdim_cases (a b c : nat) :
  bdim a b = Some c -> (a = c /\ (b = c \/ b = 1)) \/ (a = 1 /\ b = c).
Proof.
  unfold bdim.
  destruct (Nat.eqb_spec a b); [intros [= <-]; lia|].
  destruct (Nat.eqb_spec a 1); [intros [= <-]; lia|].
  destruct (Nat.eqb_spec b 1); [intros [= <-]; lia|discriminate].
Qed.

Lemma stretch_length {A} (c : nat) (l : list A) :
  length l = c \/ length l = 1 -> length (stretch c l) = c.
Proof.
  destruct l as [|a [|b l]]; cbn [stretch length]; intros [H|H]; try lia.
  - apply repeat_length.
  - apply repeat_length.
Qed.

(** The shape of a broadcast result. *)
Lemma broadcast2_shape {A B C} (f : A -> B -> C) (cx cy : nat)
      (X : list (list A)) (Y : list (list B)) (Z : list (list C)) :
  rect cx X -> rect cy Y -> X <> [] -> Y <> [] ->
  broadcast2 f X Y = inr Z ->
  exists k c, bdim (length X) (length Y) = Some k /\ bdim cx cy = Some c
              /\ length Z = k /\ rect c Z.
Proof.
  intros HX HY HXn HYn. unfold broadcast2, nrows.
  assert (Hcx : ncols X = cx).
  { destruct X as [|x X]; [congruence|]. now inversion HX. }
  assert (Hcy : ncols Y = cy).
  { destruct Y as [|y Y]; [congruence|]. now inversion HY. }
  rewrite Hcx, Hcy.
  destruct (bdim (length X) (length Y)) as [k|] eqn:Hk; [|discriminate].
  destruct (bdim cx cy) as [c|] eqn:Hc; [|discriminate].
  intros [= <-]. exists k, c. repeat split.
  - rewrite map2_length.
    rewrite !stretch_length by (apply bdim_cases in Hk; lia). apply Nat.min_id.
  - unfold rect. unfold map2 at 1. apply Forall_map. rewrite Forall_forall.
    intros [x y] Hin. cbn [fst snd].
    pose proof (in_combine_l _ _ _ _ Hin) as Hx. apply In_stretch in Hx.
    pose proof (in_combine_r _ _ _ _ Hin) as Hy. apply In_stretch in Hy.
    unfold rect in HX, HY. rewrite Forall_forall in HX, HY.
    specialize (HX _ Hx). specialize (HY _ Hy).
    rewrite map2_length.
    rewrite !stretch_length by (apply bdim_cases in Hc; lia). apply Nat.min_id.
Qed.

(** A broadcast result with a single cell comes from two single cells. *)
Lemma stretched_single {A B C} (g : nat -> A -> B -> C) (u : list A) (v : list B)
      (c : nat) (w : C) :
  bdim (length u) (length v) = Some c ->
  map2 (g c) (stretch c u) (stretch c v) = [w] ->
  exists a b, u = [a] /\ v = [b] /\ c = 1 /\ w = g 1 a b.
Proof.
  destruct u as [|a [|a' u]], v as [|b [|b' v]]; cbn [length];
    unfold bdim; cbn [Nat.eqb];
    try discriminate;
    try (intros [= <-]; cbn; try discriminate;
         intros [= <-]; eauto 6; fail).
Qed.

Lemma broadcast2_single {A B C} (f : A -> B -> C)
      (X : list (list A)) (Y : list (list B)) (w : C) :
  broadcast2 f X Y = inr [[w]] ->
  exists a b, X = [[a]] /\ Y = [[b]] /\ w = f a b.
Proof.
  unfold broadcast2.
  destruct (bdim (nrows X) (nrows Y)) as [k|] eqn:Hk; [|discriminate].
  destruct (bdim (ncols X) (ncols Y)) as [c|] eqn:Hc; [|discriminate].
  intros [= Hz].
  destruct (stretched_single (fun _ x y => map2 f (stretch c x) (stretch c y))
              X Y k [w] Hk Hz) as (x & y & -> & -> & -> & Hw).
  cbn [ncols] in Hc. symmetry in Hw.
  destruct (stretched_single (fun _ => f) x y c w Hc Hw) as (a & b & -> & -> & _ & ->).
  eauto.
Qed.

Section ProcessorFacts.

Context {F : Type} {ops : Scalar F}.

Lemma flatten_length (lat lon val : list (list F)) recs :
  flatten lat lon val = inr recs -> length recs = size val.
Proof.
  unfold flatten. intros Hr. rewrite (mapM_length _ _ _ Hr).
  now rewrite ndindex_length.
Qed.

(** One step of the comprehension of lines 112 and 115. *)
Lemma flatten_step (lat lon val : list (list F)) (a b : nat) :
  match (x <- get2 lat a b ;; y <- get2 lon a b ;; v <- get2 val a b ;;
         ret {| rec_lat := x; rec_lon := y; rec_value := v |})%py with
  | inr r => nth2 lat a b = Some (rec_lat r) /\ nth2 lon a b = Some (rec_lon r)
             /\ nth2 val a b = Some (rec_value r)
  | inl e => e = IndexError
             /\ (nth2 lat a b = None \/ nth2 lon a b = None \/ nth2 val a b = None)
  end.
Proof.
  unfold get2, bind.
  destruct (nth2 lat a b); cbn [of_option]; [|auto].
  destruct (nth2 lon a b); cbn [of_option]; [|auto].
  destruct (nth2 val a b); cbn [of_option]; [|auto].
  cbn. auto.
Qed.

Lemma flatten_returns (lat lon val : list (list F)) :
  (forall a b, a < nrows val -> b < ncols val ->
               nth2 lat a b <> None /\ nth2 lon a b <> None /\ nth2 val a b <> None) ->
  exists recs, flatten lat lon val = inr recs.
Proof.
  intros Hc. unfold flatten. apply mapM_total. intros [a b] Hin.
  apply In_ndindex in Hin as [Ha Hb]. cbn [fst snd].
  pose proof (flatten_step lat lon val a b) as Hs.
  destruct (x <- get2 lat a b ;; y <- get2 lon a b ;; v <- get2 val a b ;;
            ret {| rec_lat := x; rec_lon := y; rec_value := v |})%py as [e|r].
  - destruct (Hc a b Ha Hb) as (H1 & H2 & H3). destruct Hs as [_ [H|[H|H]]]; contradiction.
  - eauto.
Qed.

Lemma flatten_same_shape (lat lon val : list (list F)) :
  rect (ncols val) val -> same_shape lat val -> same_shape lon val ->
  exists recs, flatten lat lon val = inr recs.
Proof.
  intros Hr Hlat Hlon.
  destruct (same_shape_rect _ _ _ Hlat Hr) as [Hrlat Hllat].
  destruct (same_shape_rect _ _ _ Hlon Hr) as [Hrlon Hllon].
  apply flatten_returns. intros a b Ha Hb. unfold nrows in Ha.
  destruct (nth2_rect _ lat a b Hrlat) as [x Hx]; [lia|exact Hb|].
  destruct (nth2_rect _ lon a b Hrlon) as [y Hy]; [lia|exact Hb|].
  destruct (nth2_rect _ val a b Hr) as [v Hv]; [lia|exact Hb|].
  rewrite Hx, Hy, Hv. repeat split; discriminate.
Qed.

(** A grid flattened against a one-cell latitude array has at most one
    cell. *)
Lemma flatten_one_cell (x : F) (lon val : list (list F)) recs :
  flatten [[x]] lon val = inr recs -> 1 <= size val ->
  exists v, val = [[v]].
Proof.
  intros Hf Hs. unfold size in Hs.
  assert (Hr : 1 <= nrows val) by nia. assert (Hc : 1 <= ncols val) by nia.
  unfold flatten in Hf.
  destruct (mapM_nth _ _ _ Hf ((nrows val - 1) * ncols val + (ncols val - 1))
                     (nrows val - 1, ncols val - 1)) as (r & _ & Hcell).
  { unfold shape. apply ndindex_nth; lia. }
  cbn [fst snd] in Hcell.
  pose proof (flatten_step [[x]] lon val (nrows val - 1) (ncols val - 1)) as Hs'.
  rewrite Hcell in Hs'. destruct Hs' as (Hx & _ & _).
  assert (Ha : nrows val - 1 = 0 /\ ncols val - 1 = 0).
  { unfold nth2 in Hx. destruct (nrows val - 1) as [|a]; cbn [nth_error] in Hx.
    - destruct (ncols val - 1) as [|b]; [auto|]. cbn [nth_error] in Hx.
      destruct b; discriminate.
    - destruct a; discriminate. }
  destruct Ha as [Ha Hb]. unfold nrows, ncols in *.
  destruct val as [|[|v [|v' row]] [|row' val]]; cbn [length] in *; try lia.
  eauto.
Qed.

(** What the body of the loop needs in order to return. *)
Lemma cell_inv (err : nat -> F) lat_ratio lon_ratio map_smooth interpolation
      mapping syne c syne' :
  cell err lat_ratio lon_ratio map_smooth interpolation mapping syne c = inr syne' ->
  interpolation <> "Optimal Interpolation"%string
  /\ map_smooth <> []
  /\ broadcast2 int32_mul lat_ratio lon_ratio = inr [[2%Z]].
Proof.
  intros Hc.
  assert (Hi : interpolation <> "Optimal Interpolation"%string).
  { intros ->. exact (cell_estimator_raises _ _ _ _ _ _ _ _ Hc). }
  split; [exact Hi|]. rewrite cell_skip in Hc by exact Hi. unfold bind in Hc.
  destruct (indices lat_ratio lon_ratio c map_smooth) as [e|ind] eqn:Hind; [discriminate|].
  destruct (selected map_smooth ind) as [e|sel] eqn:Hsel; [discriminate|].
  destruct (assert_selected sel lat_ratio lon_ratio) as [e|[]] eqn:Has; [discriminate|].
  split.
  - intros ->. unfold indices, window in Hind. discriminate.
  - apply (assert_selected_passes sel lat_ratio lon_ratio); [|exact Has].
    exact (selected_length _ _ _ _ _ _ Hind Hsel).
Qed.

(** On one-cell ratios and one fine record the body of the loop returns
    exactly when the product of the ratios is 2 and the interpolation is
    skipped. *)
Lemma cell_one_cell (err : nat -> F) (p q : Z) (r : grid_record F)
      interpolation mapping syne c :
  interpolation <> "Optimal Interpolation"%string ->
  int32_mul p q = 2%Z ->
  cell err [[p]] [[q]] [r] interpolation mapping syne c = inr syne.
Proof.
  intros Hi Hpq. rewrite cell_skip by exact Hi.
  unfold indices. rewrite window_single. cbn [bind map]. rewrite np_where_row.
  assert (Hsel : exists sel, selected [r] [map (fun _ : nat => 0) (nonzero1 [in_window p q c r]);
                                           nonzero1 [in_window p q c r]] = inr sel).
  { destruct (in_window p q c r); cbn; eauto. }
  destruct Hsel as [sel Hsel]. unfold ret at 1. cbn [bind]. rewrite Hsel. cbn [bind].
  pose proof (mapM_length _ _ _ Hsel) as Hlen. cbn [length] in Hlen.
  assert (Has : assert_selected sel [[p]] [[q]] = inr tt).
  { apply (assert_selected_passes sel [[p]] [[q]] Hlen).
    rewrite broadcast2_rows by reflexivity. cbn. now rewrite Hpq. }
  rewrite Has. reflexivity.
Qed.

Lemma cells_cons_inv (rnd : nat -> nat -> F) lat_ratio lon_ratio map_smooth
      interpolation mapping i c rest syne syne' :
  cells rnd lat_ratio lon_ratio map_smooth interpolation mapping i (c :: rest) syne
  = inr syne' ->
  exists s1, cell (rnd i) lat_ratio lon_ratio map_smooth interpolation mapping syne c
             = inr s1.
Proof.
  cbn [cells]. unfold bind.
  destruct (cell (rnd i) lat_ratio lon_ratio map_smooth interpolation mapping syne c)
    as [e|s1]; [discriminate|eauto].
Qed.

(** The lines [processor] prints, and its outcome, once the two ratios
    and the two sequences of records are known. *)
Lemma processor_steps (rnd : nat -> nat -> F) coarse smooth c_lat c_lon s_lat s_lon
      varname interpolation mapping lat_ratio lon_ratio map_coarse map_smooth :
  ratio s_lat c_lat = inr lat_ratio -> ratio s_lon c_lon = inr lon_ratio ->
  flatten c_lat c_lon coarse = inr map_coarse ->
  flatten s_lat s_lon smooth = inr map_smooth ->
  processor rnd coarse smooth c_lat c_lon s_lat s_lon varname interpolation mapping
  = ([PRatio "coarse/smooth latitude ratio" lat_ratio;
      PRatio "coarse/smooth latitude ratio" lon_ratio],
     match cells rnd lat_ratio lon_ratio map_smooth interpolation mapping 0
                 map_coarse (np_zeros (shape smooth)) with
     | inl e => inl e
     | inr syne' => inr {| ds_varname := varname; ds_synergistic := syne';
                           ds_latitude := s_lat; ds_longitude := s_lon |}
     end).
Proof.
  intros Hlat Hlon Hmc Hms. unfold processor. rewrite Hlat, Hlon, Hmc, Hms.
  unfold lift, print. cbn [rbind fst snd app].
  unfold integrity_check.
  rewrite (flatten_length _ _ _ _ Hmc), (flatten_length _ _ _ _ Hms), !Nat.eqb_refl.
  cbn [negb]. unfold rret. cbn [rbind try_except fst snd app].
  destruct (cells rnd lat_ratio lon_ratio map_smooth interpolation mapping 0
                  map_coarse (np_zeros (shape smooth))); reflexivity.
Qed.

End ProcessorFacts.

(** X4.  The lines [processor] prints.  When both ratios can be computed
    it prints exactly two lines, the latitude ratio and then the longitude
    ratio, both under the label "coarse/smooth latitude ratio"; when one of
    the two divisions cannot be broadcast it prints nothing.  The check of
    lines 117-127 never prints: the number of records always equals the
    size of the grid they were read from. *)
Theorem X4_printed_lines {F : Type} {ops : Scalar F} :
  forall (rnd : nat -> nat -> F) (coarse smooth c_lat c_lon s_lat s_lon : list (list F))
         (varname interpolation mapping : string),
    fst (processor rnd coarse smooth c_lat c_lon s_lat s_lon varname interpolation mapping)
    = match ratio s_lat c_lat, ratio s_lon c_lon with
      | inr lat_ratio, inr lon_ratio =>
          [PRatio "coarse/smooth latitude ratio" lat_ratio;
           PRatio "coarse/smooth latitude ratio" lon_ratio]
      | _, _ => []
      end.
Proof.
  intros rnd coarse smooth c_lat c_lon s_lat s_lon varname interpolation mapping.
  destruct (ratio s_lat c_lat) as [e|lat_ratio] eqn:Hlat;
    [unfold processor; rewrite Hlat; reflexivity|].
  destruct (ratio s_lon c_lon) as [e|lon_ratio] eqn:Hlon;
    [unfold processor; rewrite Hlat, Hlon; reflexivity|].
  destruct (flatten c_lat c_lon coarse) as [e|map_coarse] eqn:Hmc;
    [unfold processor; rewrite Hlat, Hlon, Hmc; reflexivity|].
  destruct (flatten s_lat s_lon smooth) as [e|map_smooth] eqn:Hms;
    [unfold processor; rewrite Hlat, Hlon, Hmc, Hms; reflexivity|].
  now rewrite (processor_steps rnd _ _ _ _ _ _ varname interpolation mapping
                 _ _ _ _ Hlat Hlon Hmc Hms).
Qed.



(** X6.  On a coarse grid with at least one cell, [processor] gets
    through its loop, and hands a grid to [xr.Dataset], exactly when the
    interpolation name is not "Optimal Interpolation", all six arrays have
    a single cell, and the product of the two rounded quotients is 2 (the
    number of index arrays of [np.where]). *)
Theorem X6_returns_only_on_one_cell_grids {F : Type} {ops : Scalar F} :
  forall (rnd : nat -> nat -> F) (coarse smooth c_lat c_lon s_lat s_lon : list (list F))
         (varname interpolation mapping : string),
    1 <= size coarse ->
    ((exists ds,
         snd (processor rnd coarse smooth c_lat c_lon s_lat s_lon varname
                        interpolation mapping) = inr ds)
     <-> (interpolation <> "Optimal Interpolation"%string
          /\ exists w v c c' s s',
               coarse = [[w]] /\ smooth = [[v]] /\ c_lat = [[c]] /\ c_lon = [[c']]
               /\ s_lat = [[s]] /\ s_lon = [[s']]
               /\ int32_mul (rint32 (div s c)) (rint32 (div s' c')) = 2%Z)).
Proof.
  intros rnd coarse smooth c_lat c_lon s_lat s_lon varname interpolation mapping Hsz.
  split.
  - intros [ds Hp].
    apply processor_inv in Hp as (lr & lo & mc & ms & Hlat & Hlon & Hmc & Hms & Hc & _).
    pose proof (flatten_length _ _ _ _ Hmc) as Hlen.
    destruct mc as [|c0 rest]; [simpl in Hlen; lia|].
    apply cells_cons_inv in Hc as [s1 Hc].
    apply cell_inv in Hc as (Hi & Hne & Hprod).
    split; [exact Hi|].
    apply broadcast2_single in Hprod as (p & q & -> & -> & Hpq).
    unfold ratio in Hlat, Hlon.
    apply broadcast2_single in Hlat as (s & c & -> & -> & ->).
    apply broadcast2_single in Hlon as (s' & c' & -> & -> & ->).
    destruct (flatten_one_cell _ _ _ _ Hmc Hsz) as [w ->].
    destruct (flatten_one_cell _ _ _ _ Hms) as [v ->].
    { rewrite <- (flatten_length _ _ _ _ Hms). destruct ms; [congruence|simpl; lia]. }
    exists w, v, c, c', s, s'. repeat split; auto.
  - intros (Hi & w & v & c & c' & s & s' & -> & -> & -> & -> & -> & -> & Hpq).
    eexists.
    rewrite (processor_steps rnd [[w]] [[v]] [[c]] [[c']] [[s]] [[s']] varname
               interpolation mapping
               [[rint32 (div s c)]] [[rint32 (div s' c')]]
               [ {| rec_lat := c; rec_lon := c'; rec_value := w |} ]
               [ {| rec_lat := s; rec_lon := s'; rec_value := v |} ]
               eq_refl eq_refl eq_refl eq_refl).
    cbn [cells bind]. rewrite (cell_one_cell _ _ _ _ _ _ _ _ Hi Hpq). reflexivity.
Qed.

(** X6 on one-cell grids: latitude quotient 2, longitude quotient 1, under
    the name "Nearest". *)
Lemma X6_witness :
  let rnd := fun _ _ : nat => 0.25%float in
  1 <= size [[5.0%float]]
  /\ ((exists ds,
          snd (processor rnd [[5.0%float]] [[3.0%float]] [[1.0%float]] [[1.0%float]]
                         [[2.0%float]] [[1.0%float]] "NO2" "Nearest" "mean") = inr ds)
      <-> ("Nearest"%string <> "Optimal Interpolation"%string
           /\ exists w v c c' s s',
                [[5.0%float]] = [[w]] /\ [[3.0%float]] = [[v]] /\ [[1.0%float]] = [[c]]
                /\ [[1.0%float]] = [[c']] /\ [[2.0%float]] = [[s]] /\ [[1.0%float]] = [[s']]
                /\ int32_mul (rint32 (div s c)) (rint32 (div s' c')) = 2%Z)).
Proof.
  cbv zeta.
  assert (Hsz : 1 <= size [[5.0%float]]) by (vm_compute; lia).
  split; [exact Hsz|].
  exact (X6_returns_only_on_one_cell_grids (fun _ _ : nat => 0.25%float)
           [[5.0%float]] [[3.0%float]] [[1.0%float]] [[1.0%float]]
           [[2.0%float]] [[1.0%float]] "NO2" "Nearest" "mean" Hsz).
Defined.

(** X7.  On every fine grid with at least two rows and two columns, given
    with coordinate arrays of its shape, and every coarse grid with at
    least one cell, given with coordinate arrays of its shape, [processor]
    raises [ValueError], whatever the two names: either the fine and the
    coarse coordinates cannot be broadcast in the division of lines
    102-103, or the column of all R * C fine latitudes cannot be broadcast
    against the R x C array of ratios in the comparison of line 133. *)
Theorem X7_grids_raise_ValueError {F : Type} {ops : Scalar F} :
  forall (rnd : nat -> nat -> F) (coarse smooth c_lat c_lon s_lat s_lon : list (list F))
         (varname interpolation mapping : string),
    rect (ncols smooth) smooth -> 2 <= nrows smooth -> 2 <= ncols smooth ->
    same_shape s_lat smooth -> same_shape s_lon smooth ->
    rect (ncols coarse) coarse -> 1 <= nrows coarse -> 1 <= ncols coarse ->
    same_shape c_lat coarse -> same_shape c_lon coarse ->
    snd (processor rnd coarse smooth c_lat c_lon s_lat s_lon varname interpolation mapping)
    = inl ValueError.
Proof.
  intros rnd coarse smooth c_lat c_lon s_lat s_lon varname interpolation mapping
         Hrs HR HC Hslat Hslon Hrc Hr Hc Hclat Hclon.
  unfold nrows in HR, Hr.
  destruct (same_shape_rect _ _ _ Hslat Hrs) as [Hrslat Hlslat].
  destruct (same_shape_rect _ _ _ Hclat Hrc) as [Hrclat Hlclat].
  destruct (ratio s_lat c_lat) as [e|lat_ratio] eqn:Hlat.
  { unfold processor. rewrite Hlat. cbn. unfold ratio, broadcast2 in Hlat.
    destruct (bdim (nrows s_lat) (nrows c_lat)); [|now injection Hlat as <-].
    destruct (bdim (ncols s_lat) (ncols c_lat)); [discriminate|now injection Hlat as <-]. }
  destruct (ratio s_lon c_lon) as [e|lon_ratio] eqn:Hlon.
  { unfold processor. rewrite Hlat, Hlon. cbn. unfold ratio, broadcast2 in Hlon.
    destruct (bdim (nrows s_lon) (nrows c_lon)); [|now injection Hlon as <-].
    destruct (bdim (ncols s_lon) (ncols c_lon)); [discriminate|now injection Hlon as <-]. }
  destruct (flatten_same_shape _ _ _ Hrc Hclat Hclon) as [mc Hmc].
  destruct (flatten_same_shape _ _ _ Hrs Hslat Hslon) as [ms Hms].
  rewrite (processor_steps rnd _ _ _ _ _ _ varname interpolation mapping
             _ _ _ _ Hlat Hlon Hmc Hms). cbn [snd].
  pose proof (flatten_length _ _ _ _ Hmc) as Hlmc.
  pose proof (flatten_length _ _ _ _ Hms) as Hlms. unfold size, nrows in Hlmc, Hlms.
  destruct mc as [|c0 rest]; [simpl in Hlmc; nia|].
  assert (Hcell : forall err syne,
             cell err lat_ratio lon_ratio ms interpolation mapping syne c0
             = inl ValueError).
  { intros err syne. unfold cell, indices, window.
    destruct ms as [|r0 ms]; [simpl in Hlms; nia|].
    rewrite column_cons. cbn [bind].
    unfold ratio in Hlat.
    assert (Hne1 : s_lat <> []) by (intros ->; simpl in Hlslat; lia).
    assert (Hne2 : c_lat <> []) by (intros ->; simpl in Hlclat; lia).
    destruct (broadcast2_shape _ _ _ _ _ _ Hrslat Hrclat Hne1 Hne2 Hlat)
      as (k & c & Hk & Hcc & Hlk & Hrect).
    apply bdim_cases in Hk. apply bdim_cases in Hcc.
    assert (Hk' : k = length smooth) by lia.
    assert (Hc' : c = ncols smooth) by lia.
    rewrite Hk' in Hlk. rewrite Hc' in Hrect.
    set (lats := map (@rec_lat F) (r0 :: ms)).
    assert (Hll : length lats = length smooth * ncols smooth).
    { unfold lats. now rewrite length_map. }
    unfold broadcast2 at 1. cbn [nrows ncols length].
    assert (Hn : ncols (map (map (add (rec_lat c0))) (half_width lat_ratio))
                 = ncols smooth).
    { unfold half_width. destruct lat_ratio as [|row lat_ratio]; [simpl in Hlk; lia|].
      cbn [map ncols]. rewrite !length_map. now inversion Hrect. }
    rewrite Hn, Hll.
    assert (Hb : bdim (length smooth * ncols smooth) (ncols smooth) = None).
    { unfold bdim.
      destruct (Nat.eqb_spec (length smooth * ncols smooth) (ncols smooth)); [nia|].
      destruct (Nat.eqb_spec (length smooth * ncols smooth) 1); [nia|].
      destruct (Nat.eqb_spec (ncols smooth) 1); [lia|reflexivity]. }
    rewrite Hb.
    destruct (bdim 1 (nrows (map (map (add (rec_lat c0))) (half_width lat_ratio))));
      reflexivity. }
  cbn [cells]. now rewrite Hcell.
Qed.

(** X7 on a 2 x 2 fine grid under a one-cell coarse grid. *)
Lemma X7_witness :
  let smooth := [[1.0%float; 2.0%float]; [3.0%float; 4.0%float]] in
  let s_lat := [[9.5%float; 9.5%float]; [10.5%float; 10.5%float]] in
  let s_lon := [[19.5%float; 20.5%float]; [19.5%float; 20.5%float]] in
  let coarse := [[2.5%float]] in
  let c_lat := [[10.0%float]] in
  let c_lon := [[20.0%float]] in
  (rect (ncols smooth) smooth /\ 2 <= nrows smooth /\ 2 <= ncols smooth
   /\ same_shape s_lat smooth /\ same_shape s_lon smooth
   /\ rect (ncols coarse) coarse /\ 1 <= nrows coarse /\ 1 <= ncols coarse
   /\ same_shape c_lat coarse /\ same_shape c_lon coarse)
  /\ snd (processor (fun _ _ => 0.25%float) coarse smooth c_lat c_lon s_lat s_lon
                    "NO2" "Optimal Interpolation" "mean") = inl ValueError.
Proof.
  cbv zeta.
  assert (Hrs : rect (ncols [[1.0%float; 2.0%float]; [3.0%float; 4.0%float]])
                     [[1.0%float; 2.0%float]; [3.0%float; 4.0%float]])
    by (repeat constructor).
  assert (Hrc : rect (ncols [[2.5%float]]) [[2.5%float]]) by (repeat constructor).
  split.
  - repeat split; try assumption; try reflexivity; simpl; lia.
  - refine (X7_grids_raise_ValueError (fun _ _ => 0.25%float)
              [[2.5%float]] [[1.0%float; 2.0%float]; [3.0%float; 4.0%float]]
              [[10.0%float]] [[20.0%float]]
              [[9.5%float; 9.5%float]; [10.5%float; 10.5%float]]
              [[19.5%float; 20.5%float]; [19.5%float; 20.5%float]]
              "NO2" "Optimal Interpolation" "mean" Hrs _ _ _ _ Hrc _ _ _ _);
      try reflexivity; simpl; lia.
Defined.

(** X8.  Flattening reads the coordinate arrays only at the indices of the
    value array.  It returns exactly when both coordinate arrays have a
    cell at every index of the value array (cells beyond are ignored),
    and then gives one record per cell, row-major, with the latitude, the
    longitude and the value of that cell; otherwise it raises
    [IndexError]. *)
Theorem X8_flatten_reads_the_value_block {F : Type} {ops : Scalar F} :
  forall (lat lon val : list (list F)),
    rect (ncols val) val ->
    match flatten lat lon val with
    | inr recs =>
        length recs = size val
        /\ forall a b, a < nrows val -> b < ncols val ->
             exists x y v,
               nth2 lat a b = Some x /\ nth2 lon a b = Some y /\ nth2 val a b = Some v
               /\ nth_error recs (a * ncols val + b)
                  = Some {| rec_lat := x; rec_lon := y; rec_value := v |}
    | inl e =>
        e = IndexError
        /\ exists a b, a < nrows val /\ b < ncols val
                       /\ (nth2 lat a b = None \/ nth2 lon a b = None)
    end.
Proof.
  intros lat lon val Hr.
  destruct (flatten lat lon val) as [e|recs] eqn:Hf.
  - unfold flatten in Hf. apply mapM_error in Hf as ([a b] & Hin & He).
    apply In_ndindex in Hin as [Ha Hb]. cbn [fst snd] in He.
    pose proof (flatten_step lat lon val a b) as Hs. rewrite He in Hs.
    destruct Hs as [-> Hs]. split; [reflexivity|]. exists a, b.
    repeat split; auto.
    destruct Hs as [H|[H|H]]; auto.
    destruct (nth2_rect _ val a b Hr Ha Hb) as [v Hv]. congruence.
  - split; [exact (flatten_length _ _ _ _ Hf)|]. intros a b Ha Hb.
    unfold flatten in Hf.
    destruct (mapM_nth _ _ _ Hf (a * ncols val + b) (a, b)) as (r & Hn & Hcell).
    { unfold shape. now apply ndindex_nth. }
    cbn [fst snd] in Hcell.
    pose proof (flatten_step lat lon val a b) as Hs. rewrite Hcell in Hs.
    destruct Hs as (Hx & Hy & Hv). destruct r as [x y v]. cbn in *.
    exists x, y, v. auto.
Qed.

(** X8 on a 1 x 2 grid of values: the latitude array has a row more than
    the values, the longitude array a column less. *)
Lemma X8_witness :
  let lat := [[9.5%float; 9.5%float]; [10.5%float; 10.5%float]] in
  let lon := [[19.5%float]] in
  let val := [[1.0%float; 2.0%float]] in
  rect (ncols val) val
  /\ flatten lat lon val = inl IndexError
  /\ match flatten lat lon val with
     | inr recs =>
         length recs = size val
         /\ forall a b, a < nrows val -> b < ncols val ->
              exists x y v,
                nth2 lat a b = Some x /\ nth2 lon a b = Some y /\ nth2 val a b = Some v
                /\ nth_error recs (a * ncols val + b)
                   = Some {| rec_lat := x; rec_lon := y; rec_value := v |}
     | inl e =>
         e = IndexError
         /\ exists a b, a < nrows val /\ b < ncols val
                        /\ (nth2 lat a b = None \/ nth2 lon a b = None)
     end.
Proof.
  cbv zeta.
  assert (Hr : rect (ncols [[1.0%float; 2.0%float]]) [[1.0%float; 2.0%float]])
    by (repeat constructor).
  split; [exact Hr|]. split; [vm_compute; reflexivity|].
  exact (X8_flatten_reads_the_value_block
           [[9.5%float; 9.5%float]; [10.5%float; 10.5%float]] [[19.5%float]]
           [[1.0%float; 2.0%float]] Hr).
Defined.

(** * Further properties of the estimator's arithmetic *)

Lemma xa_no_innovation (xb0 k : list float) (y h : float) :
  length k = length xb0 ->
  Forall (fun a : float => is_finite a = true) xb0 ->
  Forall (fun a : float => is_finite a = true) k ->
  is_zero (sub y h) = true ->
  Forall2 (fun a x => PrimFloat.eqb a x = true) (xa xb0 k y h) xb0.
Proof.
  unfold xa, map2. intros Hlen Hx; revert k Hlen.
  induction Hx as [|x xb0 Hx _ IH]; intros [|g k] Hlen Hk Ht; try discriminate.
  - constructor.
  - cbn [combine map fst snd]. inversion Hk; subst. constructor.
    + apply Binary64.add_finite_zero; [exact Hx|].
      now apply Binary64.mul_finite_zero.
    + apply IH; auto.
Qed.

(** X12.  On binary64, when the measurement equals the mean of a finite
    background (the innovation [y - H(xb)] is a zero) and every element of
    the gain is finite, the analysis equals the background element by
    element: the update has the background as a fixed point. *)
Theorem X12_no_innovation_no_correction :
  forall (err : nat -> float) (y : float) (back_sel : list (list (pyval float)))
         (xb0 : list float),
    xb back_sel = inr xb0 ->
    1 <= length xb0 ->
    Forall (fun x => is_finite x = true) xb0 ->
    let hdot := Hdot (length xb0) in
    let num := Num (Pb (eb xb0 (map err (seq 0 (length xb0))))) hdot in
    Forall (fun g => is_finite g = true) (K num (Den hdot num (R y))) ->
    is_zero (sub y (spec_H xb0)) = true ->
    exists v, analysis err y back_sel "mean" = inr v
              /\ Forall2 (fun a x => PrimFloat.eqb a x = true) v xb0.
Proof.
  intros err y back_sel xb0 Hxb Hn Hfin hdot num HK Hinn.
  exists (xa xb0 (K num (Den hdot num (R y))) y (spec_H xb0)). split.
  - exact (analysis_mean err y back_sel xb0 Hxb Hn).
  - apply xa_no_innovation; auto.
    rewrite K_length. unfold num. rewrite Num_length. unfold Pb, eb.
    rewrite length_map, map2_length, length_map, length_seq. apply Nat.min_id.
Qed.

(** X12 on a background of 1.0 and 3.0 with the measurement 2.0. *)
Lemma X12_witness :
  let err := fun _ : nat => 0.25%float in
  let y := 2.0%float in
  let back_sel := [[PInt 0; PInt 0; PFloat 1.0%float];
                   [PInt 0; PInt 1; PFloat 3.0%float]] in
  let xb0 := [1.0%float; 3.0%float] in
  let hdot := Hdot (F:=float) (length xb0) in
  let num := Num (Pb (eb xb0 (map err (seq 0 (length xb0))))) hdot in
  (xb back_sel = inr xb0 /\ 1 <= length xb0
   /\ Forall (fun x => is_finite x = true) xb0
   /\ Forall (fun g => is_finite g = true) (K num (Den hdot num (R y)))
   /\ is_zero (sub y (spec_H xb0)) = true)
  /\ exists v, analysis err y back_sel "mean" = inr v
               /\ Forall2 (fun a x => PrimFloat.eqb a x = true) v xb0.
Proof.
  cbv zeta.
  assert (Hxb : xb [[PInt 0; PInt 0; PFloat 1.0%float];
                    [PInt 0; PInt 1; PFloat 3.0%float]]
                = inr [1.0%float; 3.0%float]) by reflexivity.
  assert (Hn : 1 <= length [1.0%float; 3.0%float]) by (simpl; lia).
  assert (Hfin : Forall (fun x => is_finite x = true) [1.0%float; 3.0%float])
    by (repeat constructor).
  assert (HK : Forall (fun g => is_finite g = true)
                 (K (Num (Pb (eb [1.0%float; 3.0%float]
                                 (map (fun _ : nat => 0.25%float)
                                      (seq 0 (length [1.0%float; 3.0%float])))))
                         (Hdot (F:=float) (length [1.0%float; 3.0%float])))
                    (Den (Hdot (F:=float) (length [1.0%float; 3.0%float]))
                         (Num (Pb (eb [1.0%float; 3.0%float]
                                      (map (fun _ : nat => 0.25%float)
                                           (seq 0 (length [1.0%float; 3.0%float])))))
                              (Hdot (F:=float) (length [1.0%float; 3.0%float])))
                         (R 2.0%float)))).
  { unfold K. cbn [length seq map eb Pb Num map2 combine fst snd].
    repeat constructor. }
  assert (Hinn : is_zero (sub 2.0%float (spec_H [1.0%float; 3.0%float])) = true)
    by (vm_compute; reflexivity).
  split; [repeat split; assumption|].
  exact (X12_no_innovation_no_correction (fun _ : nat => 0.25%float) 2.0%float
           [[PInt 0; PInt 0; PFloat 1.0%float]; [PInt 0; PInt 1; PFloat 3.0%float]]
           [1.0%float; 3.0%float] Hxb Hn Hfin HK Hinn).
Defined.

(** * Properties of [output_saving] and [main] *)

Section PatternFacts.

Variable decimal : N -> bool.

Lemma digits_inv (n : nat) :
  forall s r, FileIO.digits decimal n s = Some r ->
    exists a, s = a ++ r /\ length a = n /\ Forall (fun c => decimal c = true) a.
Proof.
  induction n as [|n IH]; intros s r; cbn [FileIO.digits].
  - intros [= <-]. exists []. auto.
  - destruct s as [|c s]; [discriminate|].
    destruct (decimal c) eqn:Hc; [|discriminate].
    intros Hd. destruct (IH _ _ Hd) as (a & -> & Hl & Ha).
    exists (c :: a). repeat split; simpl; auto.
Qed.

Lemma digits_app (a r : FileIO.str) :
  Forall (fun c => decimal c = true) a ->
  FileIO.digits decimal (length a) (a ++ r) = Some r.
Proof.
  induction 1 as [|c a Hc _ IH]; cbn [length app FileIO.digits]; [reflexivity|].
  now rewrite Hc.
Qed.

Lemma match_here_inv (s g : FileIO.str) :
  FileIO.match_here decimal s = Some g ->
  FileIO.stamp decimal g /\ exists post, s = g ++ post.
Proof.
  unfold FileIO.match_here.
  destruct (FileIO.digits decimal 8 s) as [[|c r]|] eqn:H8; try discriminate.
  destruct (N.eqb_spec c 84) as [->|]; [|discriminate].
  destruct (FileIO.digits decimal 6 r) as [post|] eqn:H6; [|discriminate].
  destruct (digits_inv _ _ _ H8) as (a & -> & Hla & Ha).
  destruct (digits_inv _ _ _ H6) as (b & -> & Hlb & Hb).
  assert (E : firstn 15 (a ++ 84%N :: b ++ post) = a ++ 84%N :: b).
  { replace (a ++ 84%N :: b ++ post) with ((a ++ 84%N :: b) ++ post)
      by (rewrite <- app_assoc; reflexivity).
    rewrite firstn_app.
    replace (15 - length (a ++ 84%N :: b)) with 0
      by (rewrite length_app; cbn [length]; lia).
    rewrite firstn_all2 by (rewrite length_app; cbn [length]; lia).
    cbn [firstn]. apply app_nil_r. }
  rewrite E. intros G. apply (f_equal (fun o => match o with Some x => x | None => [] end)) in G.
  cbv beta iota in G. subst g. split.
  - exists a, b. repeat split; auto. apply Forall_app. auto.
  - exists post. rewrite <- app_assoc. reflexivity.
Qed.

Lemma match_here_stamp (d post : FileIO.str) :
  FileIO.stamp decimal d -> FileIO.match_here decimal (d ++ post) <> None.
Proof.
  intros (a & b & -> & Hla & Hlb & Hab). apply Forall_app in Hab as [Ha Hb].
  unfold FileIO.match_here. rewrite <- app_assoc. cbn [app].
  rewrite <- Hla at 1. rewrite (digits_app a _ Ha).
  cbn [N.eqb Pos.eqb]. rewrite <- Hlb at 1. rewrite (digits_app b _ Hb).
  discriminate.
Qed.

Lemma search_inv (s g : FileIO.str) :
  FileIO.search decimal s = Some g ->
  FileIO.stamp decimal g /\ exists pre post, s = pre ++ g ++ post.
Proof.
  induction s as [|c s IH]; cbn [FileIO.search].
  - destruct (FileIO.match_here decimal []) as [g'|] eqn:Hm; [|discriminate].
    intros [= <-]. destruct (match_here_inv _ _ Hm) as [Hs [post E]].
    split; [exact Hs|]. exists [], post. exact E.
  - destruct (FileIO.match_here decimal (c :: s)) as [g'|] eqn:Hm.
    + intros [= <-]. destruct (match_here_inv _ _ Hm) as [Hs [post E]].
      split; [exact Hs|]. exists [], post. exact E.
    + intros Hr. destruct (IH Hr) as [Hs (pre & post & ->)].
      split; [exact Hs|]. exists (c :: pre), post. reflexivity.
Qed.

Lemma search_finds (pre d post : FileIO.str) :
  FileIO.stamp decimal d -> FileIO.search decimal (pre ++ d ++ post) <> None.
Proof.
  intros Hd. induction pre as [|c pre IH].
  - cbn [app]. pose proof (match_here_stamp d post Hd) as Hm.
    destruct (d ++ post) as [|x l] eqn:E; cbn [FileIO.search];
      destruct (FileIO.match_here decimal _); congruence.
  - cbn [app FileIO.search].
    destruct (FileIO.match_here decimal (c :: pre ++ d ++ post)); [discriminate|exact IH].
Qed.

Lemma search_contains (s : FileIO.str) :
  FileIO.contains_stamp decimal s <-> FileIO.search decimal s <> None.
Proof.
  split.
  - intros (pre & d & post & -> & Hd). now apply search_finds.
  - destruct (FileIO.search decimal s) as [g|] eqn:Hs; [intros _|congruence].
    destruct (search_inv _ _ Hs) as [Hg (pre & post & ->)].
    exists pre, g, post. auto.
Qed.

Lemma output_saving_cases {D P : Type}
      (save : D -> string -> option FileIO.str -> string -> string -> FileIO.str
              -> FileIO.str -> FileIO.str -> FileIO.str -> FileIO.error + P)
      (out_dataset : D) (varname : string) (reference : FileIO.str)
      (out_dir : option FileIO.str) (type_of_interpolation date : string) :
  FileIO.output_saving decimal save out_dataset varname reference out_dir
                       type_of_interpolation date
  = inl (match FileIO.search decimal reference with
         | Some _ => FileIO.AttributeError "str" "strftime"
         | None => FileIO.ValueError
                     (FileIO.NoDate (reference ++ FileIO.lit " does not contain a date"))
         end).
Proof.
  unfold FileIO.output_saving.
  destruct (FileIO.search decimal reference); reflexivity.
Qed.

End PatternFacts.

(** X13.  [output_saving] returns no path and writes no file, whatever it
    is given: when the reference name contains a date-time stamp (eight
    decimal digits, the letter T, six decimal digits) it raises
    [AttributeError], the stamp found being a [str], which has no
    [strftime]; when the name contains none it raises [ValueError] with
    the message "<reference> does not contain a date".  Lines 98-165 are
    never reached. *)
Theorem X13_output_saving_always_raises :
  forall (decimal : N -> bool) (D P : Type)
         (save : D -> string -> option FileIO.str -> string -> string -> FileIO.str
                 -> FileIO.str -> FileIO.str -> FileIO.str -> FileIO.error + P)
         (out_dataset : D) (varname : string) (reference : FileIO.str)
         (out_dir : option FileIO.str) (type_of_interpolation date : string),
    (FileIO.contains_stamp decimal reference
     /\ FileIO.output_saving decimal save out_dataset varname reference out_dir
                             type_of_interpolation date
        = inl (FileIO.AttributeError "str" "strftime"))
    \/ (~ FileIO.contains_stamp decimal reference
        /\ FileIO.output_saving decimal save out_dataset varname reference out_dir
                                type_of_interpolation date
           = inl (FileIO.ValueError
                    (FileIO.NoDate (reference ++ FileIO.lit " does not contain a date")))).
Proof.
  intros decimal D P save out_dataset varname reference out_dir type_of_interpolation
         date.
  rewrite output_saving_cases.
  pose proof (search_contains decimal reference) as Hc.
  destruct (FileIO.search decimal reference) as [g|].
  - left. split; [apply Hc; discriminate|reflexivity].
  - right. split; [|reflexivity]. intros H. apply Hc in H. congruence.
Qed.

Section MainFacts.

Context {F : Type} {ops : Scalar F} {Timestamp : Type}.

Variable w : Main.world (F:=F) Timestamp.

Lemma obind_inl {A B} (c : Main.out A) (k : A -> Main.out B) (e : FileIO.error) :
  snd c = inl e -> Main.obind c k = (fst c, inl e).
Proof. destruct c as [o [e'|a]]; simpl; [now intros [= ->]|discriminate]. Qed.

Lemma obind_inr {A B} (c : Main.out A) (k : A -> Main.out B) (a : A) :
  snd c = inr a -> Main.obind c k = (fst c ++ fst (k a), snd (k a)).
Proof. destruct c as [o [e'|a']]; simpl; [discriminate|now intros [= ->]]. Qed.

(** The body of the loop never completes: data set, processor or
    [output_saving], one of them raises. *)
Lemma body_raises (interpolation_method : string) (out_dir : option FileIO.str)
      (varname : string) (k : nat) (fileDs1 fileDs2 : FileIO.str) :
  exists e, snd (Main.body w interpolation_method out_dir varname k fileDs1 fileDs2)
            = inl e.
Proof.
  unfold Main.body, Main.olift, Main.oprint.
  destruct (Main.load_dataset w fileDs1 varname) as [e|[[a1 la1] lo1]]; [simpl; eauto|].
  destruct (Main.load_dataset w fileDs2 varname) as [e|[[a2 la2] lo2]]; [simpl; eauto|].
  cbn [Main.obind fst snd app].
  destruct (processor (Main.rnd w k) a1 a2 la1 lo1 la2 lo2 varname
                      interpolation_method "mean") as [o [e|ds]].
  - simpl. eauto.
  - unfold Main.of_processor. cbn [Main.obind fst snd].
    rewrite (output_saving_cases (Main.decimal w) (Main.save w)).
    cbn [Main.obind fst snd]. eauto.
Qed.

Lemma body_writers (save' : Dataset F -> string -> option FileIO.str -> string
                             -> string -> FileIO.str -> FileIO.str -> FileIO.str
                             -> FileIO.str -> FileIO.error + FileIO.str)
      (plotter' : FileIO.str -> string -> Main.out unit)
      (interpolation_method : string) (out_dir : option FileIO.str)
      (varname : string) (k : nat) (fileDs1 fileDs2 : FileIO.str) :
  Main.body (with_writers w save' plotter') interpolation_method out_dir varname k
            fileDs1 fileDs2
  = Main.body w interpolation_method out_dir varname k fileDs1 fileDs2.
Proof.
  unfold Main.body, Main.olift, Main.oprint, with_writers.
  cbn [Main.load_dataset Main.rnd Main.decimal Main.save Main.plotter].
  destruct (Main.load_dataset w fileDs1 varname) as [e|[[a1 la1] lo1]]; [reflexivity|].
  destruct (Main.load_dataset w fileDs2 varname) as [e|[[a2 la2] lo2]]; [reflexivity|].
  cbn [Main.obind fst snd app].
  destruct (processor (Main.rnd w k) a1 a2 la1 lo1 la2 lo2 varname
                      interpolation_method "mean") as [o [e|ds]]; [reflexivity|].
  unfold Main.of_processor. cbn [Main.obind fst snd].
  rewrite !output_saving_cases. reflexivity.
Qed.

(** [main], after the lists of files: the first pass of the loop decides. *)
Lemma main_steps (base_dir_ds1 base_dir_ds2 : option FileIO.str)
      (extension date_start date_end : FileIO.str) (do_files_from_dates : bool)
      (file_pattern_ds1 file_pattern_ds2 file_format_in_ds1 file_format_in_ds2 : FileIO.str)
      (interpolation_method : string) (out_dir : option FileIO.str) (varname : string) :
  Main.main w base_dir_ds1 base_dir_ds2 extension date_start date_end
            do_files_from_dates file_pattern_ds1 file_pattern_ds2
            file_format_in_ds1 file_format_in_ds2 interpolation_method out_dir varname
  = match Main.get_files w base_dir_ds1 base_dir_ds2 extension date_start date_end
                         do_files_from_dates file_pattern_ds1 file_pattern_ds2
                         file_format_in_ds1 file_format_in_ds2 with
    | inl e => ([Main.Line (FileIO.lit "Synergy processing starts at " ++ Main.clock w)],
                inl e)
    | inr files =>
        match Main.unpack (fst files) with
        | inl e => ([Main.Line (FileIO.lit "Synergy processing starts at "
                                ++ Main.clock w)], inl e)
        | inr names =>
            (Main.Line (FileIO.lit "Synergy processing starts at " ++ Main.clock w)
             :: fst (Main.body w interpolation_method out_dir varname 0
                               (fst names) (snd names)),
             snd (Main.body w interpolation_method out_dir varname 0
                            (fst names) (snd names)))
        end
    end.
Proof.
  unfold Main.main, Main.olift, Main.oprint.
  destruct (Main.get_files w base_dir_ds1 base_dir_ds2 extension date_start date_end
              do_files_from_dates file_pattern_ds1 file_pattern_ds2
              file_format_in_ds1 file_format_in_ds2) as [e|files]; [reflexivity|].
  cbn [Main.obind fst snd app].
  destruct (Main.unpack (fst files)) as [e|names]; [reflexivity|].
  cbn [Main.obind fst snd app].
  destruct (body_raises interpolation_method out_dir varname 0 (fst names) (snd names))
    as [e He].
  rewrite (obind_inl _ _ _ He). cbn [fst snd]. now rewrite He.
Qed.

Lemma get_files_writers save' plotter'
      (base_dir_ds1 base_dir_ds2 : option FileIO.str)
      (extension date_start date_end : FileIO.str) (do_files_from_dates : bool)
      (file_pattern_ds1 file_pattern_ds2 file_format_in_ds1 file_format_in_ds2 : FileIO.str) :
  Main.get_files (with_writers w save' plotter') base_dir_ds1 base_dir_ds2 extension
                 date_start date_end do_files_from_dates file_pattern_ds1
                 file_pattern_ds2 file_format_in_ds1 file_format_in_ds2
  = Main.get_files w base_dir_ds1 base_dir_ds2 extension date_start date_end
                   do_files_from_dates file_pattern_ds1 file_pattern_ds2
                   file_format_in_ds1 file_format_in_ds2.
Proof. reflexivity. Qed.

End MainFacts.

(** X14.  [main] never completes: whatever the arguments, the clock, the
    file system and the data sets, the run ends with an exception, raised
    before the loop, by the unpacking of line 74, or in the first pass of
    the loop, where [output_saving] at the latest raises.  Nothing is ever
    saved or plotted: the lines printed and the exception are the same
    whatever the code that writes the file and the plotter do. *)
Theorem X14_main_never_completes {F : Type} {ops : Scalar F} {Timestamp : Type} :
  forall (w : Main.world (F:=F) Timestamp)
         (base_dir_ds1 base_dir_ds2 : option FileIO.str)
         (extension date_start date_end : FileIO.str) (do_files_from_dates : bool)
         (file_pattern_ds1 file_pattern_ds2 file_format_in_ds1 file_format_in_ds2
          : FileIO.str)
         (interpolation_method : string) (out_dir : option FileIO.str) (varname : string),
    (exists e,
        snd (Main.main w base_dir_ds1 base_dir_ds2 extension date_start date_end
                       do_files_from_dates file_pattern_ds1 file_pattern_ds2
                       file_format_in_ds1 file_format_in_ds2 interpolation_method
                       out_dir varname) = inl e)
    /\ forall save' plotter',
         Main.main (with_writers w save' plotter') base_dir_ds1 base_dir_ds2 extension
                   date_start date_end do_files_from_dates file_pattern_ds1
                   file_pattern_ds2 file_format_in_ds1 file_format_in_ds2
                   interpolation_method out_dir varname
         = Main.main w base_dir_ds1 base_dir_ds2 extension date_start date_end
                     do_files_from_dates file_pattern_ds1 file_pattern_ds2
                     file_format_in_ds1 file_format_in_ds2 interpolation_method
                     out_dir varname.
Proof.
  intros w base_dir_ds1 base_dir_ds2 extension date_start date_end do_files_from_dates
         file_pattern_ds1 file_pattern_ds2 file_format_in_ds1 file_format_in_ds2
         interpolation_method out_dir varname.
  split.
  - rewrite main_steps.
    destruct (Main.get_files w base_dir_ds1 base_dir_ds2 extension date_start date_end
                do_files_from_dates file_pattern_ds1 file_pattern_ds2
                file_format_in_ds1 file_format_in_ds2) as [e|files]; [simpl; eauto|].
    destruct (Main.unpack (fst files)) as [e|names]; [simpl; eauto|].
    cbn [snd]. apply body_raises.
  - intros save' plotter'. rewrite !main_steps, get_files_writers.
    destruct (Main.get_files w base_dir_ds1 base_dir_ds2 extension date_start date_end
                do_files_from_dates file_pattern_ds1 file_pattern_ds2
                file_format_in_ds1 file_format_in_ds2) as [e|files]; [reflexivity|].
    destruct (Main.unpack (fst files)) as [e|names]; [reflexivity|].
    now rewrite body_writers.
Qed.

(** X15.  With [do_files_from_dates], only one of the two lists of files
    is ever computed, the test of the second format being the [else] branch
    of the test of the first.  When the first format is 's5p_l3' the list
    of the second data set stays [None], whatever the second format; when
    it is not, the list of the first data set stays [None], and [main],
    having printed its first line only, raises [TypeError] on unpacking
    it. *)
Theorem X15_dates_mode_lists_one_data_set {F : Type} {ops : Scalar F} {Timestamp : Type} :
  forall (w : Main.world (F:=F) Timestamp)
         (base_dir_ds1 base_dir_ds2 : option FileIO.str)
         (extension date_start date_end : FileIO.str)
         (file_pattern_ds1 file_pattern_ds2 file_format_in_ds1 file_format_in_ds2
          : FileIO.str)
         (interpolation_method : string) (out_dir : option FileIO.str) (varname : string)
         (files_ds1 files_ds2 : option (list FileIO.str)),
    Main.get_files w base_dir_ds1 base_dir_ds2 extension date_start date_end true
                   file_pattern_ds1 file_pattern_ds2 file_format_in_ds1
                   file_format_in_ds2 = inr (files_ds1, files_ds2) ->
    if FileIO.str_eqb (Main.lower w file_format_in_ds1) (FileIO.lit "s5p_l3")
    then files_ds2 = None /\ exists l, files_ds1 = Some l /\ l <> []
    else files_ds1 = None
         /\ (exists l, files_ds2 = Some l /\ l <> [])
         /\ Main.main w base_dir_ds1 base_dir_ds2 extension date_start date_end true
                      file_pattern_ds1 file_pattern_ds2 file_format_in_ds1
                      file_format_in_ds2 interpolation_method out_dir varname
            = ([Main.Line (FileIO.lit "Synergy processing starts at " ++ Main.clock w)],
               inl (FileIO.TypeError FileIO.NoneNotIterable)).
Proof.
  intros w base_dir_ds1 base_dir_ds2 extension date_start date_end
         file_pattern_ds1 file_pattern_ds2 file_format_in_ds1 file_format_in_ds2
         interpolation_method out_dir varname files_ds1 files_ds2 Hg.
  rewrite main_steps, Hg. revert Hg. unfold Main.get_files, FileIO.bind.
  destruct (Main.date_range w date_start date_end) as [e|date_index]; [discriminate|].
  destruct (FileIO.str_eqb (Main.lower w file_format_in_ds1) (FileIO.lit "s5p_l3")).
  - destruct (FileIO.list_files (Main.glob w) (Main.day_pattern w) base_dir_ds1
                                date_index extension) as [e|[|f l]]; try discriminate.
    intros [= <- <-]. split; [reflexivity|]. exists (f :: l). split; [reflexivity|discriminate].
  - destruct (FileIO.str_eqb (Main.lower w file_format_in_ds2) (FileIO.lit "s3a_l3")
              || FileIO.str_eqb (Main.lower w file_format_in_ds2) (FileIO.lit "s3b_l3"));
      [|discriminate].
    destruct (FileIO.list_files (Main.glob w) (Main.day_pattern w) base_dir_ds2
                                date_index extension) as [e|[|f l]]; try discriminate.
    intros [= <- <-]. split; [reflexivity|]. split; [|reflexivity].
    exists (f :: l). split; [reflexivity|discriminate].
Qed.

(** X16.  The two file names of a pass of the loop both come from the
    list of the first data set: line 74 iterates over the pair of the two
    lists and unpacks each list into [fileDs1, fileDs2].  When the first
    list has exactly two entries they are loaded as the coarse and as the
    fine data set, and the run is the first pass on them; with one entry,
    or more than two, [main] raises [ValueError] before it loads anything.
    The entries of the second list are never used. *)
Theorem X16_loop_unpacks_first_list {F : Type} {ops : Scalar F} {Timestamp : Type} :
  forall (w : Main.world (F:=F) Timestamp)
         (base_dir_ds1 base_dir_ds2 : option FileIO.str)
         (extension date_start date_end : FileIO.str) (do_files_from_dates : bool)
         (file_pattern_ds1 file_pattern_ds2 file_format_in_ds1 file_format_in_ds2
          : FileIO.str)
         (interpolation_method : string) (out_dir : option FileIO.str) (varname : string)
         (l : list FileIO.str) (files_ds2 : option (list FileIO.str)),
    Main.get_files w base_dir_ds1 base_dir_ds2 extension date_start date_end
                   do_files_from_dates file_pattern_ds1 file_pattern_ds2
                   file_format_in_ds1 file_format_in_ds2 = inr (Some l, files_ds2) ->
    let start := Main.Line (FileIO.lit "Synergy processing starts at " ++ Main.clock w) in
    let run := Main.main w base_dir_ds1 base_dir_ds2 extension date_start date_end
                         do_files_from_dates file_pattern_ds1 file_pattern_ds2
                         file_format_in_ds1 file_format_in_ds2 interpolation_method
                         out_dir varname in
    match l with
    | [a; b] =>
        run = (start :: fst (Main.body w interpolation_method out_dir varname 0 a b),
               snd (Main.body w interpolation_method out_dir varname 0 a b))
        /\ forall ds1 ds2,
             Main.load_dataset w a varname = inr ds1 ->
             Main.load_dataset w b varname = inr ds2 ->
             exists rest,
               fst run = start
                         :: Main.Line (FileIO.lit "DOAS dataset loaded: " ++ a)
                         :: Main.Line (FileIO.lit "OC-PFT dataset loaded: " ++ b)
                         :: rest
    | [] | [_] =>
        run = ([start], inl (FileIO.ValueError (FileIO.NotEnoughValues 2 (length l))))
    | _ => run = ([start], inl (FileIO.ValueError (FileIO.TooManyValues 2)))
    end.
Proof.
  intros w base_dir_ds1 base_dir_ds2 extension date_start date_end do_files_from_dates
         file_pattern_ds1 file_pattern_ds2 file_format_in_ds1 file_format_in_ds2
         interpolation_method out_dir varname l files_ds2 Hg start run.
  subst run. rewrite main_steps, Hg. cbn [fst].
  destruct l as [|a [|b [|c l]]]; try reflexivity.
  cbn [Main.unpack fst snd]. split; [reflexivity|].
  intros [[a1 la1] lo1] [[a2 la2] lo2] H1 H2.
  unfold Main.body, Main.olift, Main.oprint. rewrite H1, H2.
  cbn [Main.obind fst snd app]. eauto.
Qed.

(** X15 in a world with one file per day under the second directory, and a
    first format other than 's5p_l3'. *)
Lemma X15_witness :
  let w : Main.world (F:=float) nat :=
    {| Main.clock := FileIO.lit "10:15:00";
       Main.decimal := fun c => ((48 <=? c) && (c <=? 57))%N;
       Main.lower := fun s => s;
       Main.date_range := fun _ _ => inr [1; 2];
       Main.glob := fun p => [p];
       Main.day_pattern := fun base d ext => base ++ FileIO.lit "/*." ++ ext;
       Main.load_dataset := fun _ _ => inl (FileIO.LibraryError "FileNotFoundError");
       Main.rnd := fun _ _ _ => 0.25%float;
       Main.save := fun _ _ _ _ _ _ _ _ _ => inl (FileIO.LibraryError "OSError");
       Main.plotter := fun _ _ => Main.oret tt |} in
  let nc := FileIO.lit "nc" in
  let dir := Some (FileIO.lit "/data") in
  let t := FileIO.lit "2018-06-01" in
  let p := FileIO.lit "/path/to/**/fi*.nc" in
  let files := [FileIO.lit "/data/*.nc"; FileIO.lit "/data/*.nc"] in
  Main.get_files w dir dir nc t t true p p (FileIO.lit "s3a_l3") (FileIO.lit "s3a_l3")
  = inr (None, Some files)
  /\ (@None (list FileIO.str) = None
      /\ (exists l, Some files = Some l /\ l <> [])
      /\ Main.main w dir dir nc t t true p p (FileIO.lit "s3a_l3") (FileIO.lit "s3a_l3")
                   "Optimal Interpolation" None "CYA"
         = ([Main.Line (FileIO.lit "Synergy processing starts at " ++ Main.clock w)],
            inl (FileIO.TypeError FileIO.NoneNotIterable))).
Proof.
  cbv zeta.
  set (w := {| Main.clock := FileIO.lit "10:15:00";
               Main.decimal := fun c => ((48 <=? c) && (c <=? 57))%N;
               Main.lower := fun s => s;
               Main.date_range := fun _ _ => inr [1; 2];
               Main.glob := fun p => [p];
               Main.day_pattern := fun base d ext => base ++ FileIO.lit "/*." ++ ext;
               Main.load_dataset := fun _ _ => inl (FileIO.LibraryError "FileNotFoundError");
               Main.rnd := fun _ _ _ => 0.25%float;
               Main.save := fun _ _ _ _ _ _ _ _ _ => inl (FileIO.LibraryError "OSError");
               Main.plotter := fun _ _ => Main.oret tt |} : Main.world (F:=float) nat).
  assert (Hg : Main.get_files w (Some (FileIO.lit "/data")) (Some (FileIO.lit "/data"))
                 (FileIO.lit "nc") (FileIO.lit "2018-06-01") (FileIO.lit "2018-06-01")
                 true (FileIO.lit "/path/to/**/fi*.nc") (FileIO.lit "/path/to/**/fi*.nc")
                 (FileIO.lit "s3a_l3") (FileIO.lit "s3a_l3")
               = inr (None, Some [FileIO.lit "/data/*.nc"; FileIO.lit "/data/*.nc"]))
    by (vm_compute; reflexivity).
  split; [exact Hg|].
  exact (X15_dates_mode_lists_one_data_set w _ _ _ _ _ _ _ _ _
           "Optimal Interpolation" None "CYA" _ _ Hg).
Defined.

(** X16 in a world where each pattern matches two files, which hold
    one-cell grids. *)
Lemma X16_witness :
  let w : Main.world (F:=float) nat :=
    {| Main.clock := FileIO.lit "10:15:00";
       Main.decimal := fun c => ((48 <=? c) && (c <=? 57))%N;
       Main.lower := fun s => s;
       Main.date_range := fun _ _ => inr [1; 2];
       Main.glob := fun p => [p ++ FileIO.lit "1"; p ++ FileIO.lit "2"];
       Main.day_pattern := fun base d ext => base ++ FileIO.lit "/*." ++ ext;
       Main.load_dataset := fun _ _ => inr ([[5.0%float]], [[1.0%float]], [[1.0%float]]);
       Main.rnd := fun _ _ _ => 0.25%float;
       Main.save := fun _ _ _ _ _ _ _ _ _ => inl (FileIO.LibraryError "OSError");
       Main.plotter := fun _ _ => Main.oret tt |} in
  let nc := FileIO.lit "nc" in
  let t := FileIO.lit "2018-06-01" in
  let a := FileIO.lit "tropomi" ++ FileIO.lit "1" in
  let b := FileIO.lit "tropomi" ++ FileIO.lit "2" in
  let files_ds2 := Some [FileIO.lit "olci" ++ FileIO.lit "1";
                         FileIO.lit "olci" ++ FileIO.lit "2"] in
  let start := Main.Line (FileIO.lit "Synergy processing starts at " ++ Main.clock w) in
  let run := Main.main w None None nc t t false (FileIO.lit "tropomi") (FileIO.lit "olci")
                       (FileIO.lit "s5p_l3") (FileIO.lit "s3a_l3")
                       "Optimal Interpolation" None "CYA" in
  Main.get_files w None None nc t t false (FileIO.lit "tropomi") (FileIO.lit "olci")
                 (FileIO.lit "s5p_l3") (FileIO.lit "s3a_l3")
  = inr (Some [a; b], files_ds2)
  /\ run = (start :: fst (Main.body w "Optimal Interpolation" None "CYA" 0 a b),
            snd (Main.body w "Optimal Interpolation" None "CYA" 0 a b))
  /\ forall ds1 ds2,
       Main.load_dataset w a "CYA" = inr ds1 ->
       Main.load_dataset w b "CYA" = inr ds2 ->
       exists rest,
         fst run = start
                   :: Main.Line (FileIO.lit "DOAS dataset loaded: " ++ a)
                   :: Main.Line (FileIO.lit "OC-PFT dataset loaded: " ++ b)
                   :: rest.
Proof.
  cbv zeta.
  set (w := {| Main.clock := FileIO.lit "10:15:00";
               Main.decimal := fun c => ((48 <=? c) && (c <=? 57))%N;
               Main.lower := fun s => s;
               Main.date_range := fun _ _ => inr [1; 2];
               Main.glob := fun p => [p ++ FileIO.lit "1"; p ++ FileIO.lit "2"];
               Main.day_pattern := fun base d ext => base ++ FileIO.lit "/*." ++ ext;
               Main.load_dataset :=
                 fun _ _ => inr ([[5.0%float]], [[1.0%float]], [[1.0%float]]);
               Main.rnd := fun _ _ _ => 0.25%float;
               Main.save := fun _ _ _ _ _ _ _ _ _ => inl (FileIO.LibraryError "OSError");
               Main.plotter := fun _ _ => Main.oret tt |} : Main.world (F:=float) nat).
  assert (Hg : Main.get_files w None None (FileIO.lit "nc") (FileIO.lit "2018-06-01")
                 (FileIO.lit "2018-06-01") false (FileIO.lit "tropomi") (FileIO.lit "olci")
                 (FileIO.lit "s5p_l3") (FileIO.lit "s3a_l3")
               = inr (Some [FileIO.lit "tropomi" ++ FileIO.lit "1";
                            FileIO.lit "tropomi" ++ FileIO.lit "2"],
                      Some [FileIO.lit "olci" ++ FileIO.lit "1";
                            FileIO.lit "olci" ++ FileIO.lit "2"]))
    by reflexivity.
  split; [exact Hg|].
  exact (X16_loop_unpacks_first_list w _ _ _ _ _ _ _ _ _ _
           "Optimal Interpolation" None "CYA" _ _ Hg).
Defined.

(** * The records handed to the estimator *)

Section SelectedFacts.

Context {F : Type} {ops : Scalar F}.

(** Reading the records at the indices of the true entries of a row of
    tests gives the records that pass the test, in order. *)
Lemma lookup_true_cells {A B} (f : A -> B) (p : A -> bool) (l : list A) :
  forall pre : list A,
    mapM (fun ix => of_option IndexError (option_map f (nth_error (pre ++ l) ix)))
         (map fst (filter snd (combine (seq (length pre) (length l)) (map p l))))
    = inr (map f (filter p l)).
Proof.
  induction l as [|x l IH]; intros pre; [reflexivity|].
  cbn [length seq map combine filter snd fst].
  specialize (IH (pre ++ [x])).
  rewrite <- app_assoc in IH. cbn [app] in IH.
  rewrite length_app in IH. cbn [length] in IH. rewrite Nat.add_1_r in IH.
  destruct (p x); cbn [map mapM fst].
  - rewrite nth_error_app2 by lia. rewrite Nat.sub_diag. cbn [nth_error option_map of_option].
    now rewrite IH.
  - exact IH.
Qed.

Lemma lookup_first {A B} (f : A -> B) (x : A) (l : list A) (ixs : list nat) :
  mapM (fun ix => of_option IndexError (option_map f (nth_error (x :: l) ix)))
       (map (fun _ => 0) ixs)
  = inr (repeat (f x) (length ixs)).
Proof.
  induction ixs as [|i ixs IH]; [reflexivity|].
  cbn [map mapM nth_error option_map of_option length repeat]. now rewrite IH.
Qed.

(** Line 139 on a condition of one row. *)
Lemma selected_row (p : grid_record F -> bool) (r : grid_record F)
      (ms : list (grid_record F)) :
  selected (r :: ms) (np_where [map p (r :: ms)])
  = inr [repeat (rec_value r) (length (filter p (r :: ms)));
         map (@rec_value F) (filter p (r :: ms))].
Proof.
  rewrite np_where_row. unfold selected, nonzero1. rewrite length_map.
  pose proof (lookup_true_cells (@rec_value F) p (r :: ms) []) as Hc.
  cbn [app length] in Hc.
  pose proof (mapM_length _ _ _ Hc) as Hl. rewrite length_map in Hl.
  cbn [mapM length]. rewrite lookup_first, Hc, <- Hl. reflexivity.
Qed.

End SelectedFacts.

(** X17.  What line 139 selects, for one pair of ratios and a non-empty
    sequence of fine records.  [np.where] returns the row indices and the
    column indices of the condition, which has one row; [selected] is
    therefore a list of two arrays: the value of the first fine record,
    repeated once per matched record, and the values of the matched
    records, in order.  The matched values are not what the assertion
    counts, nor what the estimator is given as items. *)
Theorem X17_selected_arrays {F : Type} {ops : Scalar F} :
  forall (a b : Z) (c r : grid_record F) (ms : list (grid_record F)),
    exists ind,
      indices [[a]] [[b]] c (r :: ms) = inr ind
      /\ selected (r :: ms) ind
         = inr [repeat (rec_value r) (length (filter (in_window a b c) (r :: ms)));
                map (@rec_value F) (filter (in_window a b c) (r :: ms))].
Proof.
  intros a b c r ms. unfold indices. rewrite window_single. cbn [bind].
  eexists. split; [reflexivity|]. apply selected_row.
Qed.

(** X18.  The outcome of [processor] on grids of one cell each, whatever
    the values: when the [int32] product of the two rounded quotients is
    not 2 the assertion of line 141 fails, whether or not the fine cell was
    matched; when it is 2, the run under "Optimal Interpolation" raises
    [IndexError] on line 23, the two selected arrays having at most one
    entry, whatever the operator name; under any other name it comes to
    its end with the grid [[0]]. *)
Theorem X18_one_cell_grids {F : Type} {ops : Scalar F} :
  forall (rnd : nat -> nat -> F) (w v c c' s s' : F)
         (varname interpolation mapping : string),
    let p := rint32 (div s c) in
    let q := rint32 (div s' c') in
    snd (processor rnd [[w]] [[v]] [[c]] [[c']] [[s]] [[s']] varname interpolation mapping)
    = if (int32_mul p q =? 2)%Z then
        if String.eqb interpolation "Optimal Interpolation" then inl IndexError
        else inr {| ds_varname := varname; ds_synergistic := [[zero]];
                    ds_latitude := [[s]]; ds_longitude := [[s']] |}
      else inl (AssertionError 2 [[int32_mul p q]]).
Proof.
  intros rnd w v c c' s s' varname interpolation mapping p q.
  rewrite (processor_steps rnd [[w]] [[v]] [[c]] [[c']] [[s]] [[s']] varname
             interpolation mapping [[p]] [[q]]
             [ {| rec_lat := c; rec_lon := c'; rec_value := w |} ]
             [ {| rec_lat := s; rec_lon := s'; rec_value := v |} ]
             eq_refl eq_refl eq_refl eq_refl).
  cbn [snd cells].
  set (c0 := {| rec_lat := c; rec_lon := c'; rec_value := w |}).
  set (r0 := {| rec_lat := s; rec_lon := s'; rec_value := v |}).
  unfold cell, indices. rewrite window_single. cbn [bind].
  unfold ret at 1. cbn [bind]. rewrite selected_row. cbn [bind].
  unfold assert_selected. rewrite broadcast2_rows by reflexivity.
  cbn [bind map2 combine map fst snd length truth].
  change (Z.of_nat 2) with 2%Z. rewrite (Z.eqb_sym 2).
  destruct (int32_mul p q =? 2)%Z; [|reflexivity].
  cbn [bind ret].
  destruct (String.eqb interpolation "Optimal Interpolation"); [|reflexivity].
  unfold optimal_interpolation, analysis, xb. cbn [filter].
  destruct (in_window p q c0 r0); reflexivity.
Qed.
